(** * Auto-parking simulation: path planner, vehicle controller, spot selection

    A shallow embedding of the Python sources
    - [pathfinding.py]  (class [PathFinder], grid A* search),
    - [vehicle.py]      (class [Vehicle], kinematic state machine and the
                         oriented-rectangle collision test),
    - [parking.py]      (class [ParkingSimulation], planner based orchestrator),
    - [main.py]         (classes [AutonomousCar] and [ParkingSimulation],
                         phase based orchestrator with the failed-spot list),
    together with the properties stated about them.

    Conventions.
    - Python [int] is [Z]; [//] is [Z.div] (floor).
    - The costs of the grid search are Python [float]s computed with [+],
      [*] and [<] only.  They are modelled as IEEE binary64 numbers, Rocq's
      primitive [float]; the literals [1.414] and [0.414] denote the same
      doubles in both languages.
    - World coordinates, headings and velocities go through [math.sqrt],
      [math.atan2], [math.cos], [math.sin] and [%], for which there is no
      binary64 model.  They are idealised as exact rationals [Q]: every
      integer and every double is a rational, arithmetic is exact, and the
      functions of the [math] module are parameters ([MathLib]).
    - [dict] is [gmap], [set] is [gset], [list] is [list].
    - A [while] loop takes a fuel argument; [None] means that the fuel ran
      out, [Some r] that the loop returned [r]. *)

From Stdlib Require Import ZArith QArith Qround Qabs List Bool Floats String Lia Lqa.
From stdpp Require Import base option list sorting gmap strings pretty.

Set Warnings "-inexact-float".

(** ** pygame rectangles

    [pygame.Rect] is an axis-aligned rectangle with integer fields.  Only the
    attributes read by the sources are modelled. *)
Module Rect.
Local Open Scope Z_scope.

Record t := mk { x : Z; y : Z; w : Z; h : Z }.

Definition left (r : t) : Z := x r.
Definition top (r : t) : Z := y r.
Definition right (r : t) : Z := x r + w r.
Definition bottom (r : t) : Z := y r + h r.
Definition centerx (r : t) : Z := x r + w r / 2.
Definition centery (r : t) : Z := y r + h r / 2.

#[global] Instance eq_dec : EqDecision t.
Proof. solve_decision. Defined.
End Rect.

(** ** Python numbers as binary64 *)
Module PyFloat.
(** [float(n)] for a Python integer [n]: the nearest double, ties to even. *)
Definition of_Z (n : Z) : float :=
  SF2Prim (binary_normalize prec emax n 0 false).

(** The order of tuples [(priority, (x, y))] as Python compares them: the
    first component on which the tuples differ (by [==]) decides by [<]. *)
Definition eqb (a b : float) : bool := PrimFloat.eqb a b.
Definition ltb (a b : float) : bool := PrimFloat.ltb a b.
End PyFloat.

(** An order-preserving rank of the doubles: [x < y] (as floats) makes the
    rank of [x] smaller than that of [y].  It bounds how often a stored
    float can be replaced by a smaller one. *)
Module FloatOrder.
Local Open Scope Z_scope.

Definition radix_prec : Z := Eval compute in 2 ^ prec.
Definition e_min : Z := Eval compute in emin.
Definition rank_top : Z := Eval compute in (emax - prec - e_min + 1) * radix_prec.

Definition sf_rank (x : spec_float) : Z :=
  match x with
  | S754_zero _ | S754_nan => 0
  | S754_infinity s => if s then - rank_top else rank_top
  | S754_finite s m e =>
      let r := (e - e_min) * radix_prec + Z.pos m in
      if s then - r else r
  end.

Definition rank (x : float) : N := Z.to_N (sf_rank (Prim2SF x) + rank_top).
End FloatOrder.

(** ** Python numbers as exact rationals *)
Module Num.
Local Open Scope Q_scope.

Definition ltb (a b : Q) : bool := negb (Qle_bool b a).
Definition leb (a b : Q) : bool := Qle_bool a b.
Definition eqb (a b : Q) : bool := Qeq_bool a b.

(** [min(a, b)] and [max(a, b)] return their first argument on a tie. *)
Definition min (a b : Q) : Q := if ltb b a then b else a.
Definition max (a b : Q) : Q := if ltb a b then b else a.

(** [a % m]: the remainder has the sign of [m]. *)
Definition pymod (a m : Q) : Q := a - m * inject_Z (Qfloor (a / m)).

(** [int(a)]: truncation toward zero. *)
Definition trunc (a : Q) : Z := if ltb a 0 then Qceiling a else Qfloor a.

Definition of_Z (n : Z) : Q := inject_Z n.

Definition point : Type := Q * Q.
Definition point_of_Z (p : Z * Z) : point := (of_Z (fst p), of_Z (snd p)).
End Num.

(** The functions of Python's [math] module that the sources call. *)
Record MathLib := {
  sqrt : Q → Q;
  cos : Q → Q;
  sin : Q → Q;
  atan2 : Q → Q → Q;
  degrees : Q → Q;
  radians : Q → Q
}.

(** ** pathfinding.py *)
Module PathFinder.
Local Open Scope Z_scope.

Definition cell : Type := Z * Z.

Record t := mk {
  width : Z;
  height : Z;
  grid_size : Z;
  grid_width : Z;
  grid_height : Z
}.

(** [PathFinder.__init__]; [width // 0] raises [ZeroDivisionError]. *)
Definition init (width height grid_size : Z) : option t :=
  if grid_size =? 0 then None
  else Some {| width := width;
               height := height;
               grid_size := grid_size;
               grid_width := width / grid_size;
               grid_height := height / grid_size |}.

(** [PathFinder._is_valid_position] *)
Definition _is_valid_position (self : t) (pos : cell) : bool :=
  let '(x, y) := pos in
  (0 <=? x) && (x <? grid_width self) && (0 <=? y) && (y <? grid_height self).

(** [range(lo, hi)] *)
Definition range (lo hi : Z) : list Z := seqZ lo (hi - lo).

(** The grid is a list of rows; [grid[y][x]] reads one cell.  Every read in
    the source is guarded by [_is_valid_position], an unguarded read would
    raise [IndexError], modelled as [None]. *)
Abbreviation grid := (list (list bool)).

Definition grid_get (g : grid) (pos : cell) : option bool :=
  let '(x, y) := pos in
  row ← g !! Z.to_nat y; row !! Z.to_nat x.

(** [grid[y][x] = True] *)
Definition grid_mark (g : grid) (y x : Z) : grid :=
  match g !! Z.to_nat y with
  | Some row => <[Z.to_nat y := <[Z.to_nat x := true]> row]> g
  | None => g
  end.

(** The body of [for obstacle in obstacles] in [_create_obstacle_grid]. *)
Definition mark_obstacle (self : t) (g : grid) (obstacle : Rect.t) : grid :=
  let left := Z.max 0 (Rect.left obstacle / grid_size self) in
  let right := Z.min (grid_width self - 1) (Rect.right obstacle / grid_size self) in
  let top := Z.max 0 (Rect.top obstacle / grid_size self) in
  let bottom := Z.min (grid_height self - 1) (Rect.bottom obstacle / grid_size self) in
  let margin := 1 in
  fold_left
    (fun g y =>
       fold_left (fun g x => grid_mark g y x)
         (range (Z.max 0 (left - margin))
                (Z.min (grid_width self) (right + margin + 1))) g)
    (range (Z.max 0 (top - margin))
           (Z.min (grid_height self) (bottom + margin + 1))) g.

(** [PathFinder._create_obstacle_grid] *)
Definition _create_obstacle_grid (self : t) (obstacles : list Rect.t) : grid :=
  let grid :=
    replicate (Z.to_nat (grid_height self))
              (replicate (Z.to_nat (grid_width self)) false) in
  fold_left (mark_obstacle self) obstacles grid.

(** A cell the search may step on: inside the grid and not marked. *)
Definition blocked (g : grid) (pos : cell) : bool :=
  match grid_get g pos with Some b => b | None => true end.

(** [PathFinder._heuristic] *)
Definition _heuristic (a b : cell) : float :=
  let dx := Z.abs (fst a - fst b) in
  let dy := Z.abs (snd a - snd b) in
  (PyFloat.of_Z (Z.max dx dy) + 0.414 * PyFloat.of_Z (Z.min dx dy))%float.

(** *** The priority queue

    [heapq] keeps a binary heap of tuples [(priority, position)];
    [heappop] returns the least tuple.  The open-set guard of the search
    pushes a position only while it is not queued, so the queued tuples are
    pairwise different and the least one is unique: the queue is modelled
    as the list of queued tuples and [heappop] as the extraction of its
    minimum. *)
Definition entry : Type := float * cell.

Definition cell_ltb (a b : cell) : bool :=
  if fst a =? fst b then snd a <? snd b else fst a <? fst b.

Definition entry_ltb (a b : entry) : bool :=
  if PyFloat.eqb (fst a) (fst b) then cell_ltb (snd a) (snd b)
  else PyFloat.ltb (fst a) (fst b).

Definition heappush (heap : list entry) (e : entry) : list entry := e :: heap.

Fixpoint heap_min (e : entry) (heap : list entry) : entry :=
  match heap with
  | [] => e
  | e' :: heap' => heap_min (if entry_ltb e' e then e' else e) heap'
  end.

Fixpoint heap_remove (c : cell) (heap : list entry) : list entry :=
  match heap with
  | [] => []
  | e :: heap' =>
      if decide (snd e = c) then heap' else e :: heap_remove c heap'
  end.

Definition heappop (heap : list entry) : option (entry * list entry) :=
  match heap with
  | [] => None
  | e :: heap' =>
      let m := heap_min e heap' in Some (m, heap_remove (snd m) heap)
  end.

(** *** The search state: the five containers of [find_path] *)
Record search := mkSearch {
  open_set : list entry;
  came_from : gmap cell cell;
  g_score : gmap cell float;
  f_score : gmap cell float;
  open_set_hash : gset cell
}.

Definition neighbor_offsets : list (Z * Z) :=
  [(0, 1); (1, 0); (0, -1); (-1, 0); (1, 1); (-1, 1); (1, -1); (-1, -1)].

(** [g_score[current]]; the key is always present when the source reads
    it, a missing key would raise [KeyError]. *)
Definition g_of (st : search) (c : cell) : float :=
  default PrimFloat.nan (g_score st !! c).

(** The body of [for dx, dy in [...]]. *)
Definition relax (self : t) (obstacle_grid : grid) (end_grid current : cell)
    (st : search) (d : Z * Z) : search :=
  let '(dx, dy) := d in
  let neighbor := (fst current + dx, snd current + dy) in
  if negb (_is_valid_position self neighbor) || blocked obstacle_grid neighbor
  then st
  else
    let tentative_g_score :=
      if negb (dx =? 0) && negb (dy =? 0)
      then (g_of st current + 1.414)%float
      else (g_of st current + 1)%float in
    if match g_score st !! neighbor with
       | None => true
       | Some g => PyFloat.ltb tentative_g_score g
       end
    then
      let f := (tentative_g_score + _heuristic neighbor end_grid)%float in
      let st' :=
        {| open_set := open_set st;
           came_from := <[neighbor := current]> (came_from st);
           g_score := <[neighbor := tentative_g_score]> (g_score st);
           f_score := <[neighbor := f]> (f_score st);
           open_set_hash := open_set_hash st |} in
      if decide (neighbor ∈ open_set_hash st) then st'
      else
        {| open_set := heappush (open_set st') (f, neighbor);
           came_from := came_from st';
           g_score := g_score st';
           f_score := f_score st';
           open_set_hash := {[neighbor]} ∪ open_set_hash st' |}
    else st.

(** [PathFinder._reconstruct_path]: [total_path] grows at its end, the
    result is its reversal. *)
Fixpoint reconstruct_loop (fuel : nat) (came_from : gmap cell cell)
    (current : cell) (total_path : list cell) : option (list cell) :=
  match came_from !! current with
  | None => Some total_path
  | Some prev =>
      match fuel with
      | O => None
      | S fuel' => reconstruct_loop fuel' came_from prev (total_path ++ [prev])
      end
  end.

Definition _reconstruct_path (fuel : nat) (came_from : gmap cell cell)
    (current : cell) : option (list cell) :=
  reverse <$> reconstruct_loop fuel came_from current [current].

(** The centre of a cell in world coordinates. *)
Definition to_world (self : t) (c : cell) : Z * Z :=
  (fst c * grid_size self + grid_size self / 2,
   snd c * grid_size self + grid_size self / 2).

(** [for dx, dy in [(0, 1), (1, 0), ...]: ...] *)
Definition relax_neighbors (self : t) (obstacle_grid : grid)
    (end_grid current : cell) (st : search) : search :=
  fold_left (relax self obstacle_grid end_grid current) neighbor_offsets st.

(** [while open_set: ...] *)
Fixpoint search_loop (fuel : nat) (self : t) (obstacle_grid : grid)
    (end_grid : cell) (st : search) : option (list (Z * Z)) :=
  match heappop (open_set st) with
  | None => Some []
  | Some ((_, current), rest) =>
      match fuel with
      | O => None
      | S fuel' =>
          let st1 :=
            {| open_set := rest;
               came_from := came_from st;
               g_score := g_score st;
               f_score := f_score st;
               open_set_hash := open_set_hash st ∖ {[current]} |} in
          if decide (current = end_grid) then
            path ← _reconstruct_path fuel' (came_from st1) current;
            Some (map (to_world self) path)
          else
            search_loop fuel' self obstacle_grid end_grid
              (relax_neighbors self obstacle_grid end_grid current st1)
      end
  end.

(** The cell of a world point: [int(p[0] / grid_size), int(p[1] / grid_size)]. *)
Definition to_grid (self : t) (p : Num.point) : cell :=
  (Num.trunc (fst p / Num.of_Z (grid_size self))%Q,
   Num.trunc (snd p / Num.of_Z (grid_size self))%Q).

Definition initial_search (start_grid end_grid : cell) : search :=
  {| open_set := heappush [] (0%float, start_grid);
     came_from := ∅;
     g_score := {[start_grid := 0%float]};
     f_score := {[start_grid := _heuristic start_grid end_grid]};
     open_set_hash := {[start_grid]} |}.

(** [PathFinder.find_path] *)
Definition find_path (fuel : nat) (self : t) (start end_ : Num.point)
    (obstacles : list Rect.t) : option (list (Z * Z)) :=
  let start_grid := to_grid self start in
  let end_grid := to_grid self end_ in
  if negb (_is_valid_position self start_grid)
     || negb (_is_valid_position self end_grid)
  then Some []
  else
    let obstacle_grid := _create_obstacle_grid self obstacles in
    if blocked obstacle_grid start_grid || blocked obstacle_grid end_grid
    then Some []
    else search_loop fuel self obstacle_grid end_grid
           (initial_search start_grid end_grid).

End PathFinder.

(** ** utils.py *)
Module Utils.
Import Num.
Local Open Scope Q_scope.

Section with_math.
Context (math : MathLib).

(** [rotate_point] *)
Definition rotate_point (x y center_x center_y angle_deg : Q) : point :=
  let angle_rad := radians math angle_deg in
  let translated_x := x - center_x in
  let translated_y := y - center_y in
  let rotated_x :=
    translated_x * cos math angle_rad - translated_y * sin math angle_rad in
  let rotated_y :=
    translated_x * sin math angle_rad + translated_y * cos math angle_rad in
  (rotated_x + center_x, rotated_y + center_y).

(** [distance] *)
Definition distance (point1 point2 : point) : Q :=
  sqrt math ((fst point2 - fst point1) ^ 2 + (snd point2 - snd point1) ^ 2).

(** [angle_between_points] *)
Definition angle_between_points (point1 point2 : point) : Q :=
  let dx := fst point2 - fst point1 in
  let dy := snd point2 - snd point1 in
  degrees math (atan2 math dy dx).
End with_math.

(** [point_in_rect] *)
Definition point_in_rect (pt : point) (rect : Rect.t) : bool :=
  (leb (of_Z (Rect.left rect)) (fst pt) && leb (fst pt) (of_Z (Rect.right rect)))
  && (leb (of_Z (Rect.top rect)) (snd pt) && leb (snd pt) (of_Z (Rect.bottom rect))).

(** [ccw] of [lines_intersect] *)
Definition ccw (a b c : point) : bool :=
  ltb ((snd b - snd a) * (fst c - fst a)) ((snd c - snd a) * (fst b - fst a)).

(** [lines_intersect] *)
Definition lines_intersect (line1_start line1_end line2_start line2_end : point)
    : bool :=
  xorb (ccw line1_start line2_start line2_end) (ccw line1_end line2_start line2_end)
  && xorb (ccw line1_start line1_end line2_start) (ccw line1_start line1_end line2_end).

(** [rect_edges] of [line_intersects_rect] *)
Definition rect_edges (rect : Rect.t) : list (point * point) :=
  let left := of_Z (Rect.left rect) in
  let right := of_Z (Rect.right rect) in
  let top := of_Z (Rect.top rect) in
  let bottom := of_Z (Rect.bottom rect) in
  [ ((left, top), (right, top));
    ((right, top), (right, bottom));
    ((right, bottom), (left, bottom));
    ((left, bottom), (left, top)) ].

(** [line_intersects_rect] *)
Definition line_intersects_rect (line_start line_end : point) (rect : Rect.t)
    : bool :=
  if point_in_rect line_start rect || point_in_rect line_end rect then true
  else
    existsb
      (λ '(edge_start, edge_end),
         lines_intersect line_start line_end edge_start edge_end)
      (rect_edges rect).
End Utils.

(** ** vehicle.py *)
Module Vehicle.
Import Num.
Local Open Scope Q_scope.

(** The values that [self.state] takes. *)
Inductive state := Idle | Moving | Rotating | Parking | Returning.

#[global] Instance state_eq_dec : EqDecision state.
Proof. solve_decision. Defined.

Definition color : Type := Z * Z * Z.

Record t := mk {
  x : Q;
  y : Q;
  start_x : Q;
  start_y : Q;
  angle : Q;
  start_angle : Q;
  velocity : Q;
  max_velocity : Q;
  acceleration : Q;
  deceleration : Q;
  turning_speed : Q;
  width : Q;
  length : Q;
  color_ : color;
  target_x : option Q;
  target_y : option Q;
  target_angle : option Q;
  path : list point;
  current_path_index : nat;
  path_colors : list color;
  path_color : option color;
  state_ : state;
  parking_phase : Z
}.

(** [Vehicle.__init__] *)
Definition init (x y angle : Q) : t :=
  {| x := x;
     y := y;
     start_x := x;
     start_y := y;
     angle := angle;
     start_angle := angle;
     velocity := 0;
     max_velocity := 4;
     acceleration := 0.1;
     deceleration := 0.2;
     turning_speed := 2;
     width := 40;
     length := 80;
     color_ := (0, 0, 255)%Z;
     target_x := None;
     target_y := None;
     target_angle := None;
     path := [];
     current_path_index := 0;
     path_colors := [(0, 255, 0); (255, 165, 0); (128, 0, 128)]%Z;
     path_color := None;
     state_ := Idle;
     parking_phase := 0 |}.

(** Field updates, one per assigned attribute. *)
Definition set_pose (self : t) (x y angle : Q) : t :=
  mk x y (start_x self) (start_y self) angle (start_angle self)
     (velocity self) (max_velocity self) (acceleration self)
     (deceleration self) (turning_speed self) (width self) (length self)
     (color_ self) (target_x self) (target_y self) (target_angle self)
     (path self) (current_path_index self) (path_colors self)
     (path_color self) (state_ self) (parking_phase self).

Definition set_angle (self : t) (angle : Q) : t :=
  set_pose self (x self) (y self) angle.

Definition set_velocity (self : t) (velocity : Q) : t :=
  mk (x self) (y self) (start_x self) (start_y self) (angle self)
     (start_angle self) velocity (max_velocity self) (acceleration self)
     (deceleration self) (turning_speed self) (width self) (length self)
     (color_ self) (target_x self) (target_y self) (target_angle self)
     (path self) (current_path_index self) (path_colors self)
     (path_color self) (state_ self) (parking_phase self).

Definition set_targets (self : t) (tx ty ta : option Q) : t :=
  mk (x self) (y self) (start_x self) (start_y self) (angle self)
     (start_angle self) (velocity self) (max_velocity self)
     (acceleration self) (deceleration self) (turning_speed self)
     (width self) (length self) (color_ self) tx ty ta
     (path self) (current_path_index self) (path_colors self)
     (path_color self) (state_ self) (parking_phase self).

Definition set_route (self : t) (path : list point) (index : nat)
    (path_color : option color) : t :=
  mk (x self) (y self) (start_x self) (start_y self) (angle self)
     (start_angle self) (velocity self) (max_velocity self)
     (acceleration self) (deceleration self) (turning_speed self)
     (width self) (length self) (color_ self) (target_x self)
     (target_y self) (target_angle self) path index (path_colors self)
     path_color (state_ self) (parking_phase self).

Definition set_state (self : t) (s : state) : t :=
  mk (x self) (y self) (start_x self) (start_y self) (angle self)
     (start_angle self) (velocity self) (max_velocity self)
     (acceleration self) (deceleration self) (turning_speed self)
     (width self) (length self) (color_ self) (target_x self)
     (target_y self) (target_angle self) (path self)
     (current_path_index self) (path_colors self) (path_color self)
     s (parking_phase self).

Definition set_parking_phase (self : t) (phase : Z) : t :=
  mk (x self) (y self) (start_x self) (start_y self) (angle self)
     (start_angle self) (velocity self) (max_velocity self)
     (acceleration self) (deceleration self) (turning_speed self)
     (width self) (length self) (color_ self) (target_x self)
     (target_y self) (target_angle self) (path self)
     (current_path_index self) (path_colors self) (path_color self)
     (state_ self) phase.

(** [Vehicle.reset] *)
Definition reset (self : t) : t :=
  let self := set_pose self (start_x self) (start_y self) (start_angle self) in
  let self := set_velocity self 0 in
  let self := set_targets self None None None in
  let self := set_route self [] 0 (path_color self) in
  let self := set_state self Idle in
  set_parking_phase self 0.

(** [Vehicle.set_path]; [path_colors] has three entries, so the index
    [min(attempt_number - 1, 2)] is in range for [attempt_number >= 1]
    (a smaller one indexes from the end of the list, as Python does). *)
Definition set_path (self : t) (path : list point) (attempt_number : Z) : t :=
  let n := Z.of_nat (List.length (path_colors self)) in
  let i := Z.min (attempt_number - 1) (n - 1) in
  let i := if (i <? 0)%Z then (i + n)%Z else i in
  set_route self path 0 (path_colors self !! Z.to_nat i).


(** *** Collision test *)

(** [ccw] of [_do_lines_intersect] *)
Definition ccw (a b c : point) : bool :=
  ltb ((snd b - snd a) * (fst c - fst a)) ((snd c - snd a) * (fst b - fst a)).

(** [Vehicle._do_lines_intersect] *)
Definition _do_lines_intersect (p1 p2 p3 p4 : point) : bool :=
  xorb (ccw p1 p3 p4) (ccw p2 p3 p4) && xorb (ccw p1 p2 p3) (ccw p1 p2 p4).

(** [polygon[i]] for an index in range. *)
Definition corner (polygon : list point) (i : nat) : point :=
  default (0, 0) (polygon !! i).

(** The body of [for i in range(n + 1)] in [_is_point_in_polygon]; the
    loop carries [inside], [(p1x, p1y)] and [xinters].  [xinters] is read
    only where [y > min(p1y, p2y)] and [y <= max(p1y, p2y)], which makes
    [p1y != p2y], so it has been assigned in the same iteration. *)
Definition pip_step (pt : point) (polygon : list point)
    (acc : bool * point * Q) (i : nat) : bool * point * Q :=
  let '(inside, (p1x, p1y), xinters) := acc in
  let '(x, y) := pt in
  let n := List.length polygon in
  let '(p2x, p2y) := corner polygon (i mod n) in
  let '(inside, xinters) :=
    if ltb (min p1y p2y) y && leb y (max p1y p2y) && leb x (max p1x p2x)
    then
      let xinters :=
        if negb (Num.eqb p1y p2y)
        then (y - p1y) * (p2x - p1x) / (p2y - p1y) + p1x
        else xinters in
      if Num.eqb p1x p2x || leb x xinters
      then (negb inside, xinters)
      else (inside, xinters)
    else (inside, xinters) in
  (inside, (p2x, p2y), xinters).

(** [Vehicle._is_point_in_polygon] *)
Definition _is_point_in_polygon (pt : point) (polygon : list point) : bool :=
  let n := List.length polygon in
  fst (fst (fold_left (pip_step pt polygon) (seq 0 (n + 1))
              (false, corner polygon 0, 0))).

(** The test of [_check_rectangle_collision] on two lists of four corners:
    some edge of the first crosses some edge of the second, or the first
    corner of one lies in the other. *)
Definition collides (a b : list point) : bool :=
  existsb
    (λ i, existsb
            (λ j, _do_lines_intersect
                    (corner a i) (corner a ((i + 1) mod 4))
                    (corner b j) (corner b ((j + 1) mod 4)))
            (seq 0 4))
    (seq 0 4)
  || (_is_point_in_polygon (corner a 0) b || _is_point_in_polygon (corner b 0) a).

(** The corners of a [pygame.Rect], in the order of [obstacle_corners]. *)
Definition rect_corners (r : Rect.t) : list point :=
  [ (of_Z (Rect.left r), of_Z (Rect.top r));
    (of_Z (Rect.right r), of_Z (Rect.top r));
    (of_Z (Rect.right r), of_Z (Rect.bottom r));
    (of_Z (Rect.left r), of_Z (Rect.bottom r)) ].

(** [Vehicle._check_rectangle_collision] *)
Definition _check_rectangle_collision (vehicle_corners : list point)
    (obstacle_rect : Rect.t) : bool :=
  collides vehicle_corners (rect_corners obstacle_rect).

Section with_math.
Context (math : MathLib).

(** [Vehicle.get_corners] *)
Definition get_corners (self : t) : list point :=
  let half_length := length self / 2 in
  let half_width := width self / 2 in
  let corners :=
    [ (- half_length, - half_width);
      (half_length, - half_width);
      (half_length, half_width);
      (- half_length, half_width) ] in
  map (λ '(corner_x, corner_y),
         let '(rx, ry) :=
           Utils.rotate_point math corner_x corner_y 0 0 (angle self) in
         (x self + rx, y self + ry))
      corners.

(** [Vehicle.is_colliding] *)
Definition is_colliding (self : t) (obstacles : list Rect.t) : bool :=
  let vehicle_corners := get_corners self in
  existsb (_check_rectangle_collision vehicle_corners) obstacles.

(** The heading error toward [desired_angle], wrapped into (-180, 180]:
    [angle_diff = (desired_angle - self.angle) % 360], minus 360 when it
    exceeds 180. *)
Definition angle_diff_to (self : t) (desired_angle : Q) : Q :=
  let angle_diff := pymod (desired_angle - angle self) 360 in
  if ltb 180 angle_diff then angle_diff - 360 else angle_diff.

(** The turn of at most [turning_speed] toward the target heading,
    followed by [self.angle %= 360]. *)
Definition turn (self : t) (angle_diff : Q) : t :=
  let a :=
    if ltb 0 angle_diff
    then angle self + min (turning_speed self) angle_diff
    else angle self - min (turning_speed self) (- angle_diff) in
  set_angle self (pymod a 360).

(** The block shared by [_update_moving], [_update_parking] and the
    travel phase of [_update_returning]: steer toward the point
    [(dx, dy)] away, then move.  [top_speed] and [gain] are
    [max_velocity] and [acceleration], halved while parking. *)
Definition pursue (self : t) (dx dy top_speed gain : Q) : t :=
  let target_angle_rad := atan2 math dy dx in
  let desired_angle := degrees math target_angle_rad in
  let angle_diff := angle_diff_to self desired_angle in
  let self :=
    if ltb 2 (Qabs angle_diff)
    then
      let self := turn self angle_diff in
      set_velocity self (max 0 (velocity self - 0.05))
    else set_velocity self (min top_speed (velocity self + gain)) in
  let rad_angle := radians math (angle self) in
  set_pose self
    (x self + velocity self * cos math rad_angle)
    (y self + velocity self * sin math rad_angle)
    (angle self).

(** [Vehicle._update_moving] *)
Definition _update_moving (self : t) : t :=
  match target_x self, target_y self with
  | Some tx, Some ty =>
      let dx := tx - x self in
      let dy := ty - y self in
      let target_distance := sqrt math (dx * dx + dy * dy) in
      let self := pursue self dx dy (max_velocity self) (acceleration self) in
      if ltb target_distance 5 then
        let self := set_velocity self 0 in
        match target_angle self with
        | Some _ => set_state self Rotating
        | None =>
            set_targets (set_state self Idle) None None (target_angle self)
        end
      else self
  | _, _ => set_state self Idle
  end.

(** [Vehicle._update_rotating] *)
Definition _update_rotating (self : t) : t :=
  match target_angle self with
  | None => set_state self Idle
  | Some ta =>
      let angle_diff := angle_diff_to self ta in
      if ltb 1 (Qabs angle_diff) then turn self angle_diff
      else
        let self := set_angle self ta in
        let self := set_state self Idle in
        set_targets self (target_x self) (target_y self) None
  end.

(** [Vehicle._update_parking] *)
Definition _update_parking (self : t) (obstacles : list Rect.t) : t :=
  if is_colliding self obstacles then set_state self Returning
  else
    match path self !! current_path_index self with
    | Some target =>
        let dx := fst target - x self in
        let dy := snd target - y self in
        let target_distance := sqrt math (dx * dx + dy * dy) in
        let self :=
          pursue self dx dy (max_velocity self / 2) (acceleration self / 2) in
        if ltb target_distance 5 then
          let self :=
            set_route self (path self) (current_path_index self + 1)
              (path_color self) in
          if (List.length (path self) <=? current_path_index self)%nat
          then set_velocity (set_state self Idle) 0
          else self
        else self
    | None => set_velocity (set_state self Idle) 0
    end.

(** [Vehicle._update_returning] *)
Definition _update_returning (self : t) : t :=
  let dx := start_x self - x self in
  let dy := start_y self - y self in
  let distance_to_start := sqrt math (dx * dx + dy * dy) in
  if ltb distance_to_start 10 then
    let self := set_pose self (start_x self) (start_y self) (angle self) in
    let angle_diff := angle_diff_to self (start_angle self) in
    if ltb (Qabs angle_diff) 2 then
      let self := set_angle self (start_angle self) in
      let self := set_velocity self 0 in
      set_state self Idle
    else turn self angle_diff
  else pursue self dx dy (max_velocity self) (acceleration self).

(** [Vehicle.update] *)
Definition update (self : t) (obstacles : list Rect.t) : t :=
  match state_ self with
  | Idle => self
  | Moving => _update_moving self
  | Rotating => _update_rotating self
  | Parking => _update_parking self obstacles
  | Returning => _update_returning self
  end.
End with_math.
End Vehicle.

(** ** A rational stand-in for the [math] module

    The theorems below hold for every [MathLib].  To run the model on
    concrete inputs, this instance approximates the functions by rational
    ones: a square root to six decimals, 355/113 for pi, Taylor polynomials
    for sine and cosine (exact at 0), and a two-piece rational arctangent. *)
Module ApproxMath.
Local Open Scope Q_scope.

Definition pi : Q := 355 # 113.

Definition sqrt (q : Q) : Q :=
  if Qle_bool q 0 then 0
  else Qred (Z.sqrt (Qnum q * Z.pos (Qden q) * 10 ^ 12) # (Qden q * 1000000)).

Definition cos (r : Q) : Q := Qred (1 - r ^ 2 / 2 + r ^ 4 / 24).
Definition sin (r : Q) : Q := Qred (r - r ^ 3 / 6 + r ^ 5 / 120).

Definition atan (t : Q) : Q :=
  if Qle_bool (Qabs t) 1 then t / (1 + 0.28 * t ^ 2)
  else (if Qle_bool 0 t then pi / 2 else - (pi / 2)) - t / (t ^ 2 + 0.28).

Definition atan2 (dy dx : Q) : Q :=
  Qred
    (if Num.ltb 0 dx then atan (dy / dx)
     else if Num.ltb dx 0 then
       (if Qle_bool 0 dy then atan (dy / dx) + pi else atan (dy / dx) - pi)
     else if Num.ltb 0 dy then pi / 2
     else if Num.ltb dy 0 then - (pi / 2)
     else 0).

Definition degrees (r : Q) : Q := Qred (r * 180 / pi).
Definition radians (a : Q) : Q := Qred (a * pi / 180).

Definition math : MathLib :=
  Build_MathLib sqrt cos sin atan2 degrees radians.
End ApproxMath.

(** ** parking.py

    The orchestrator that plans with [PathFinder] and drives a [Vehicle]. *)
Module Parking.
Import Num.
Local Open Scope string_scope.
Local Open Scope Z_scope.

Inductive spot_type := Parallel | Perpendicular.
Inductive orientation := Horizontal | Vertical.

(** A parking spot: the dictionary with the keys ["rect"], ["type"] and
    ["orientation"]. *)
Record parking_spot := mkSpot {
  rect : Rect.t;
  type_ : spot_type;
  orientation_ : orientation
}.

#[global] Instance spot_type_eq_dec : EqDecision spot_type.
Proof. solve_decision. Defined.
#[global] Instance orientation_eq_dec : EqDecision orientation.
Proof. solve_decision. Defined.
#[global] Instance spot_eq_dec : EqDecision parking_spot.
Proof. solve_decision. Defined.

Record t := mk {
  width : Z;
  height : Z;
  vehicle : Vehicle.t;
  obstacles : list Rect.t;
  parking_spots : list parking_spot;
  pathfinder : PathFinder.t;
  current_attempt : Z;
  max_attempts : Z;
  status : string;
  active_spot : option parking_spot
}.

Definition set_status (self : t) (status : string) : t :=
  mk (width self) (height self) (vehicle self) (obstacles self)
     (parking_spots self) (pathfinder self) (current_attempt self)
     (max_attempts self) status (active_spot self).

Definition set_vehicle (self : t) (vehicle : Vehicle.t) : t :=
  mk (width self) (height self) vehicle (obstacles self)
     (parking_spots self) (pathfinder self) (current_attempt self)
     (max_attempts self) (status self) (active_spot self).

Definition set_attempt (self : t) (active_spot : option parking_spot)
    (current_attempt : Z) : t :=
  mk (width self) (height self) (vehicle self) (obstacles self)
     (parking_spots self) (pathfinder self) current_attempt
     (max_attempts self) (status self) active_spot.

(** [ParkingSimulation.calculate_entry_point] *)
Definition calculate_entry_point (spot : parking_spot) : Z * Z :=
  let rect := rect spot in
  match type_ spot, orientation_ spot with
  | Parallel, Horizontal => (Rect.left rect - 50, Rect.centery rect)
  | Parallel, Vertical => (Rect.centerx rect, Rect.top rect - 50)
  | Perpendicular, Horizontal => (Rect.centerx rect, Rect.top rect - 70)
  | Perpendicular, Vertical => (Rect.left rect - 70, Rect.centery rect)
  end.

(** [ParkingSimulation.add_parking_maneuver] *)
Definition add_parking_maneuver (entry_point : Z * Z) (spot : parking_spot) : list (Z * Z) :=
  let rect := rect spot in
  let path := [entry_point] in
  match type_ spot, orientation_ spot with
  | Parallel, Horizontal =>
      path ++ [(Rect.left rect + 30, Rect.centery rect)]
           ++ [(Rect.centerx rect, Rect.centery rect)]
  | Parallel, Vertical =>
      path ++ [(Rect.centerx rect, Rect.top rect + 30)]
           ++ [(Rect.centerx rect, Rect.centery rect)]
  | Perpendicular, Horizontal =>
      path ++ [(Rect.centerx rect, Rect.top rect + 30)]
           ++ [(Rect.centerx rect, Rect.centery rect)]
  | Perpendicular, Vertical =>
      path ++ [(Rect.left rect + 30, Rect.centery rect)]
           ++ [(Rect.centerx rect, Rect.centery rect)]
  end.

Section with_math.
Context (math : MathLib).

(** The loop [for spot in self.parking_spots] of [find_parking_spot]; it
    carries [(nearest_spot, min_distance)], [None] for the initial
    [(None, float('inf'))]. *)
Definition nearest_step (vehicle_pos : point) (acc : option (parking_spot * Q))
    (spot : parking_spot) : option (parking_spot * Q) :=
  let spot_center :=
    (of_Z (Rect.centerx (rect spot)), of_Z (Rect.centery (rect spot))) in
  let dist := Utils.distance math vehicle_pos spot_center in
  match acc with
  | None => Some (spot, dist)
  | Some (nearest_spot, min_distance) =>
      if ltb dist min_distance then Some (spot, dist) else acc
  end.

Definition nearest_spot (self : t) : option parking_spot :=
  let vehicle_pos := (Vehicle.x (vehicle self), Vehicle.y (vehicle self)) in
  fst <$> fold_left (nearest_step vehicle_pos) (parking_spots self) None.

(** The obstacles handed to the planner: the parked cars and every spot
    other than the targeted one. *)
Definition planning_obstacles (self : t) (nearest_spot : parking_spot) : list Rect.t :=
  obstacles self
  ++ map rect (filter (λ spot, spot ≠ nearest_spot) (parking_spots self)).

(** The route that [find_parking_spot] asks the planner for. *)
Definition plan (fuel : nat) (self : t) (nearest_spot : parking_spot)
    : option (list (Z * Z)) :=
  let entry_point := calculate_entry_point nearest_spot in
  PathFinder.find_path fuel (pathfinder self)
    (Vehicle.x (vehicle self), Vehicle.y (vehicle self))
    (point_of_Z entry_point)
    (planning_obstacles self nearest_spot).

(** [ParkingSimulation.find_parking_spot]: the returned boolean and the
    simulation after the call. *)
Definition find_parking_spot (fuel : nat) (self : t) : option (bool * t) :=
  if max_attempts self <=? current_attempt self then
    Some (false, set_status self "No parking available after 3 attempts")
  else
    match nearest_spot self with
    | Some nearest_spot =>
        let self := set_attempt self (Some nearest_spot) (current_attempt self + 1) in
        path ← plan fuel self nearest_spot;
        match last path with
        | Some path_end =>
            let full_path := add_parking_maneuver path_end nearest_spot in
            let vehicle :=
              Vehicle.set_path (vehicle self) (map point_of_Z full_path)
                (current_attempt self) in
            let vehicle := Vehicle.set_state vehicle Vehicle.Parking in
            let self := set_vehicle self vehicle in
            Some (true,
                  set_status self
                    ("Attempting parking in spot " +:+ pretty (current_attempt self)
                     +:+ "/" +:+ pretty (max_attempts self)))
        | None => Some (false, set_status self "No valid parking spots found")
        end
    | None => Some (false, set_status self "No valid parking spots found")
    end.

(** [ParkingSimulation.__init__], given the outcome of the random
    [create_environment] (the parked cars and the vacant spots). *)
Definition init (fuel : nat) (width height : Z) (obstacles : list Rect.t)
    (parking_spots : list parking_spot) : option t :=
  let vehicle := Vehicle.init 100 (of_Z (height / 2)) 0 in
  pathfinder ← PathFinder.init width height 20;
  snd <$> find_parking_spot fuel
    {| width := width;
       height := height;
       vehicle := vehicle;
       obstacles := obstacles;
       parking_spots := parking_spots;
       pathfinder := pathfinder;
       current_attempt := 0;
       max_attempts := 3;
       status := "Ready to start";
       active_spot := None |}.

(** The body of the two inner loops of [create_environment]: one call of
    [random.random()] decides whether the slot holds a parked car (10 units
    smaller than the slot in each direction) or is a vacant spot.  The loop
    state is the number of calls made so far and the two lists. *)
Definition place (random : nat → Q)
    (st : nat * list Rect.t * list parking_spot)
    (x y spot_width spot_height : Z) (type_ : spot_type)
    (orientation_ : orientation) : nat * list Rect.t * list parking_spot :=
  let '(calls, obstacles, parking_spots) := st in
  if ltb (random calls) 0.7 then
    let obstacle_rect := Rect.mk x y (spot_width - 10) (spot_height - 10) in
    (S calls, (obstacles ++ [obstacle_rect])%list, parking_spots)
  else
    let spot_rect := Rect.mk x y spot_width spot_height in
    (S calls, obstacles,
     (parking_spots ++ [mkSpot spot_rect type_ orientation_])%list).

(** [ParkingSimulation.create_environment]; [random k] is the result of the
    call number [k] of [random.random()].  The result is the pair of
    [self.obstacles] and [self.parking_spots]. *)
Definition create_environment (width height : Z) (random : nat → Q)
    : list Rect.t * list parking_spot :=
  let st : nat * list Rect.t * list parking_spot := (0%nat, [], []) in
  let parallel_count := 6 in
  let spot_width := 100 in
  let spot_height := 50 in
  let start_x := 300 in
  let y_positions := [150; height - 200] in
  let st :=
    fold_left
      (λ st y_pos,
         fold_left
           (λ st i,
              let x := start_x + i * (spot_width + 20) in
              place random st x y_pos spot_width spot_height Parallel Horizontal)
           (PathFinder.range 0 parallel_count) st)
      y_positions st in
  let perp_count := 4 in
  let spot_width := 60 in
  let spot_height := 90 in
  let start_y := 250 in
  let x_positions := [300; width - 200] in
  let st :=
    fold_left
      (λ st x_pos,
         fold_left
           (λ st i,
              let y := start_y + i * (spot_height + 20) in
              place random st x_pos y spot_width spot_height Perpendicular Vertical)
           (PathFinder.range 0 perp_count) st)
      x_positions st in
  (snd (fst st), snd st).

(** [ParkingSimulation.reset] *)
Definition reset (fuel : nat) (random : nat → Q) (self : t) : option t :=
  let vehicle := Vehicle.reset (vehicle self) in
  let '(obstacles, parking_spots) :=
    create_environment (width self) (height self) random in
  snd <$> find_parking_spot fuel
    {| width := width self;
       height := height self;
       vehicle := vehicle;
       obstacles := obstacles;
       parking_spots := parking_spots;
       pathfinder := pathfinder self;
       current_attempt := 0;
       max_attempts := max_attempts self;
       status := "Reset";
       active_spot := None |}.

(** [ParkingSimulation.get_status] *)
Definition get_status (self : t) : string := status self.

(** [ParkingSimulation.update] *)
Definition update (fuel : nat) (self : t) : option t :=
  let previous_state := Vehicle.state_ (vehicle self) in
  let self :=
    set_vehicle self (Vehicle.update math (vehicle self) (obstacles self)) in
  let state := Vehicle.state_ (vehicle self) in
  self ←
    (if decide (previous_state ≠ state) then
       if decide (state = Vehicle.Idle ∧ previous_state = Vehicle.Parking) then
         Some (set_status self "Successfully parked!")
       else if decide (state = Vehicle.Idle ∧ previous_state = Vehicle.Returning) then
         let self :=
           set_status self
             ("Parking attempt " +:+ pretty (current_attempt self)
              +:+ " failed, trying new spot") in
         snd <$> find_parking_spot fuel self
       else Some self
     else Some self);
  if bool_decide (Vehicle.state_ (vehicle self) = Vehicle.Idle)
     && (current_attempt self <? max_attempts self)
     && negb (String.prefix "Successfully" (status self))
  then snd <$> find_parking_spot fuel self
  else Some self.
End with_math.
End Parking.

(** ** main.py

    The orchestrator that steers in phases and keeps the failed-spot list. *)
Module Main.
Import Num.
Local Open Scope Q_scope.

Definition WINDOW_WIDTH : Z := 1200.
Definition WINDOW_HEIGHT : Z := 800.
Definition CAR_LENGTH : Z := 40.
Definition CAR_WIDTH : Z := 20.

Inductive ParkingType := PARALLEL | PERPENDICULAR.
Inductive CarState := SEARCHING | PARKING | PARKED | FAILED.
Inductive side := Right | Left.

#[global] Instance ParkingType_eq_dec : EqDecision ParkingType.
Proof. solve_decision. Defined.
#[global] Instance CarState_eq_dec : EqDecision CarState.
Proof. solve_decision. Defined.

(** A parking spot or a parked car: the dictionary with the keys ['rect']
    and ['type'].  Python compares dictionaries by their contents. *)
Record parking_spot := mkSpot {
  rect : Rect.t;
  type_ : ParkingType
}.

#[global] Instance spot_eq_dec : EqDecision parking_spot.
Proof. solve_decision. Defined.

(** [AutonomousCar] *)
Record AutonomousCar := mkCar {
  x : Q;
  y : Q;
  angle : Q;
  speed : Q;
  steering_angle : Q;
  state : CarState;
  attempt_count : Z;
  path_points : list point;
  target_spot : option parking_spot;
  failed_spots : list parking_spot;
  approach_side : side
}.

(** [AutonomousCar.__init__] *)
Definition new_car (x y : Q) : AutonomousCar :=
  {| x := x; y := y; angle := 0; speed := 0; steering_angle := 0;
     state := SEARCHING; attempt_count := 0; path_points := [];
     target_spot := None; failed_spots := []; approach_side := Right |}.

(** [AutonomousCar.reset_position] *)
Definition reset_position (car : AutonomousCar) : AutonomousCar :=
  mkCar 100 (of_Z (WINDOW_HEIGHT / 2)) 0 (speed car) (steering_angle car)
    (state car) (attempt_count car) [] (target_spot car) (failed_spots car)
    (match approach_side car with Right => Left | Left => Right end).

Section with_math.
Context (math : MathLib).

(** [AutonomousCar.move] *)
Definition move (car : AutonomousCar) : AutonomousCar :=
  if bool_decide (state car = SEARCHING) || bool_decide (state car = PARKING)
  then
    let x' := x car + cos math (radians math (angle car)) * speed car in
    let y' := y car - sin math (radians math (angle car)) * speed car in
    mkCar x' y' (angle car + steering_angle car) (speed car)
      (steering_angle car) (state car) (attempt_count car)
      (path_points car ++ [(x', y')]) (target_spot car) (failed_spots car)
      (approach_side car)
  else car.

(** [ParkingSimulation] of main.py, without the window, the buttons and the
    clock; [parking_phase] is [None] until the attribute is created. *)
Record t := mk {
  car : AutonomousCar;
  parking_spots : list parking_spot;
  parked_cars : list parking_spot;
  parking_phase : option Z
}.

(** The guard of the loop in [find_nearest_parking_spot]: the spot is
    occupied or was previously failed. *)
Definition skipped (self : t) (spot : parking_spot) : bool :=
  existsb (λ car, bool_decide (rect car = rect spot)) (parked_cars self)
  || bool_decide (spot ∈ failed_spots (car self)).

(** The distance that [find_nearest_parking_spot] computes for a spot. *)
Definition spot_distance (self : t) (spot : parking_spot) : Q :=
  sqrt math ((x (car self) - of_Z (Rect.centerx (rect spot))) ^ 2
             + (y (car self) - of_Z (Rect.centery (rect spot))) ^ 2).

(** [list.sort(key=...)]: a stable sort by [<] on the keys. *)
Fixpoint insert_by {A} (key : A → Q) (a : A) (l : list A) : list A :=
  match l with
  | [] => [a]
  | b :: l' => if ltb (key a) (key b) then a :: l else b :: insert_by key a l'
  end.

Definition sort_by {A} (key : A → Q) (l : list A) : list A :=
  fold_left (λ sorted a, insert_by key a sorted) l [].

(** [l[i]], with Python's negative indices. *)
Definition py_index {A} (l : list A) (i : Z) : option A :=
  if (i <? 0)%Z then
    if (i + Z.of_nat (length l) <? 0)%Z then None
    else l !! Z.to_nat (i + Z.of_nat (length l))
  else l !! Z.to_nat i.

(** [ParkingSimulation.find_nearest_parking_spot] *)
Definition find_nearest_parking_spot (self : t) : option parking_spot :=
  let available_spots :=
    map (λ spot, (spot, spot_distance self spot))
        (List.filter (λ spot, negb (skipped self spot)) (parking_spots self)) in
  match available_spots with
  | [] => None
  | _ =>
      let available_spots := sort_by snd available_spots in
      let spot_index :=
        Z.min (attempt_count (car self)) (Z.of_nat (length available_spots) - 1) in
      fst <$> py_index available_spots spot_index
  end.

(** [pygame.Rect(left, top, width, height)] built from numbers that may be
    floats: the coordinates are truncated to integers. *)
Definition rect_of_floats (left top : Q) (width height : Z) : Rect.t :=
  Rect.mk (trunc left) (trunc top) width height.

(** [pygame.Rect.colliderect]: the rectangles overlap in more than an edge. *)
Definition colliderect (a b : Rect.t) : bool :=
  ((0 <? Rect.w a) && (0 <? Rect.h a) && (0 <? Rect.w b) && (0 <? Rect.h b)
   && (Rect.left a <? Rect.right b) && (Rect.left b <? Rect.right a)
   && (Rect.top a <? Rect.bottom b) && (Rect.top b <? Rect.bottom a))%Z.

(** [ParkingSimulation.check_collision] *)
Definition check_collision (self : t) : bool :=
  let car_rect :=
    rect_of_floats (x (car self) - of_Z CAR_WIDTH / 2)
                   (y (car self) - of_Z CAR_LENGTH / 2) CAR_WIDTH CAR_LENGTH in
  existsb (λ parked_car, colliderect car_rect (rect parked_car)) (parked_cars self)
  || (ltb (x (car self)) 0 || ltb (of_Z WINDOW_WIDTH) (x (car self))
      || ltb (y (car self)) 0 || ltb (of_Z WINDOW_HEIGHT) (y (car self))).

(** [ParkingSimulation.generate_approach_path]: [(approach_x, approach_y,
    final_angle)]. *)
Definition generate_approach_path (self : t) (target_spot : parking_spot)
    : Z * Z * Z :=
  match type_ target_spot with
  | PARALLEL =>
      match approach_side (car self) with
      | Right => (Rect.x (rect target_spot) - 100, Rect.y (rect target_spot) - 50, 0)
      | Left => (Rect.x (rect target_spot) - 100, Rect.y (rect target_spot) + 50, 0)
      end
  | PERPENDICULAR =>
      let offset := if (attempt_count (car self) mod 2 =? 0)%Z then 150 else 200 in
      (Rect.x (rect target_spot) - offset, Rect.y (rect target_spot), 90)
  end%Z.

Definition set_motion (car : AutonomousCar) (speed steering_angle : Q)
    (state : CarState) : AutonomousCar :=
  mkCar (x car) (y car) (angle car) speed steering_angle state
    (attempt_count car) (path_points car) (target_spot car) (failed_spots car)
    (approach_side car).

(** The steering of one phase: toward [(tx, ty)] with the given speed, gain
    and steering bound. *)
Definition steer (car : AutonomousCar) (dx dy speed gain bound : Q)
    : AutonomousCar :=
  let angle_to_target := degrees math (atan2 math (- dy) dx) in
  let angle_diff := pymod (angle_to_target - angle car) 360 in
  set_motion car speed (min (max (angle_diff * gain) (- bound)) bound) (state car).

(** [ParkingSimulation.parallel_parking_movement]; the method
    [perpendicular_parking_movement] has the same body. *)
Definition parallel_parking_movement (self : t) (target_spot : parking_spot) : t :=
  let target := rect target_spot in
  let '(approach_x, approach_y, _) := generate_approach_path self target_spot in
  let phase := default 1%Z (parking_phase self) in
  if (phase =? 1)%Z then
    let dx := of_Z approach_x - x (car self) in
    let dy := of_Z approach_y - y (car self) in
    if ltb 5 (Qabs dx) || ltb 5 (Qabs dy) then
      mk (steer (car self) dx dy 2 0.1 3) (parking_spots self)
         (parked_cars self) (Some phase)
    else mk (car self) (parking_spots self) (parked_cars self) (Some 2%Z)
  else if (phase =? 2)%Z then
    let dx := of_Z (Rect.centerx target) - x (car self) in
    let dy := of_Z (Rect.centery target) - y (car self) in
    if ltb 5 (Qabs dx) || ltb 5 (Qabs dy) then
      mk (steer (car self) dx dy 1 0.15 5) (parking_spots self)
         (parked_cars self) (Some phase)
    else
      mk (set_motion (car self) 0 0 PARKED) (parking_spots self)
         (parked_cars self) (Some 1%Z)
  else mk (car self) (parking_spots self) (parked_cars self) (Some phase).

Definition perpendicular_parking_movement (self : t) (target_spot : parking_spot) : t :=
  parallel_parking_movement self target_spot.

Definition set_car (self : t) (car : AutonomousCar) : t :=
  mk car (parking_spots self) (parked_cars self) (parking_phase self).

(** [self.car.failed_spots.append(self.car.target_spot)] under
    [if self.car.target_spot:]. *)
Definition mark_failed (car : AutonomousCar) : AutonomousCar :=
  match target_spot car with
  | Some spot =>
      mkCar (x car) (y car) (angle car) (speed car) (steering_angle car)
        (state car) (attempt_count car) (path_points car) (target_spot car)
        (failed_spots car ++ [spot]) (approach_side car)
  | None => car
  end.

Definition set_search (car : AutonomousCar) (state : CarState)
    (attempt_count : Z) (target_spot : option parking_spot) : AutonomousCar :=
  mkCar (x car) (y car) (angle car) (speed car) (steering_angle car)
    state attempt_count (path_points car) target_spot (failed_spots car)
    (approach_side car).

(** The branch [if self.car.state == CarState.SEARCHING] of [run]. *)
Definition search_step (self : t) : t :=
  match find_nearest_parking_spot self with
  | Some target_spot =>
      set_car self
        (set_search (car self) PARKING (attempt_count (car self)) (Some target_spot))
  | None =>
      if (3 <=? attempt_count (car self))%Z then
        set_car self
          (set_search (car self) FAILED (attempt_count (car self))
             (target_spot (car self)))
      else
        let car :=
          set_search (car self) (state (car self)) (attempt_count (car self) + 1)%Z
            (target_spot (car self)) in
        set_car self (reset_position (mark_failed car))
  end.

(** The branch [if self.check_collision()] of [run]. *)
Definition collision_step (self : t) : t :=
  if check_collision self then
    let car := mark_failed (car self) in
    let car :=
      set_search car SEARCHING (attempt_count car + 1)%Z (target_spot car) in
    mk (reset_position car) (parking_spots self) (parked_cars self)
       (match parking_phase self with Some _ => Some 1%Z | None => None end)
  else self.

(** One iteration of the loop of [ParkingSimulation.run] while the
    simulation is not paused (events and drawing left out). *)
Definition tick (self : t) : t :=
  let self :=
    match state (car self) with
    | SEARCHING => search_step self
    | PARKING =>
        match target_spot (car self) with
        | Some target_spot =>
            match type_ target_spot with
            | PARALLEL => parallel_parking_movement self target_spot
            | PERPENDICULAR => perpendicular_parking_movement self target_spot
            end
        | None => self
        end
    | _ => self
    end in
  let self := set_car self (move (car self)) in
  collision_step self.

(** The spot that an iteration targets, if it selects one. *)
Definition selected (self : t) : option parking_spot :=
  match state (car self) with
  | SEARCHING => find_nearest_parking_spot self
  | _ => None
  end.

(** The simulation after [n] iterations, and the spots targeted during them,
    the latest first. *)
Fixpoint run (n : nat) (self : t) : t :=
  match n with
  | O => self
  | S n' => tick (run n' self)
  end.

Fixpoint attempts (n : nat) (self : t) : list parking_spot :=
  match n with
  | O => []
  | S n' =>
      match selected (run n' self) with
      | Some spot => spot :: attempts n' self
      | None => attempts n' self
      end
  end.

(** [ParkingSimulation.__init__] and [reset_simulation], given the outcome
    of the random [generate_parked_cars]. *)
Definition init (parking_spots parked_cars : list parking_spot) : t :=
  {| car := new_car 100 (of_Z (WINDOW_HEIGHT / 2));
     parking_spots := parking_spots;
     parked_cars := parked_cars;
     parking_phase := None |}.
End with_math.
End Main.


(** * The rank respects the order of the doubles *)
Module FloatOrderFacts.
Import FloatOrder.
Local Open Scope Z_scope.

Lemma digits2_pos_bound m : Z.pos m < 2 ^ Z.pos (digits2_pos m).
Proof.
  induction m as [m IH|m IH|]; simpl digits2_pos.
  - rewrite Pos2Z.inj_succ, Z.pow_succ_r by lia. lia.
  - rewrite Pos2Z.inj_succ, Z.pow_succ_r by lia. lia.
  - reflexivity.
Qed.

Lemma valid_finite_bounds s m e :
  valid_binary (S754_finite s m e) = true →
  e_min <= e <= emax - prec ∧ 0 < Z.pos m < radix_prec.
Proof.
  simpl. unfold bounded, canonical_mantissa, fexp.
  intros [Hc He]%andb_true_iff.
  apply Z.eqb_eq in Hc. apply Z.leb_le in He.
  change emin with e_min in Hc.
  pose proof (digits2_pos_bound m) as Hm.
  assert (Z.pos (digits2_pos m) <= prec) as Hd by lia.
  assert (2 ^ Z.pos (digits2_pos m) <= 2 ^ prec) as Hp
    by (apply Z.pow_le_mono_r; lia).
  change (2 ^ prec) with radix_prec in Hp. lia.
Qed.

Lemma sf_rank_bounds x :
  valid_binary x = true → - rank_top <= sf_rank x <= rank_top.
Proof.
  destruct x as [s|s| |s m e]; intros Hv; simpl.
  - unfold rank_top; lia.
  - destruct s; unfold rank_top; lia.
  - unfold rank_top; lia.
  - apply valid_finite_bounds in Hv. unfold rank_top, radix_prec, e_min, emax, prec in *.
    destruct s; lia.
Qed.

Lemma sf_rank_lt x y :
  valid_binary x = true → valid_binary y = true →
  SFltb x y = true → sf_rank x < sf_rank y.
Proof.
  intros Hx Hy. unfold SFltb.
  destruct x as [sx|sx| |sx mx ex], y as [sy|sy| |sy my ey]; simpl;
    try discriminate;
    try (apply valid_finite_bounds in Hx); try (apply valid_finite_bounds in Hy);
    unfold rank_top, radix_prec, e_min, emax, prec in *.
  all: repeat match goal with b : bool |- _ => destruct b end; try discriminate; try lia.
  - destruct (Z.compare_spec ex ey); try discriminate; try lia.
    rewrite Pos.compare_cont_spec; simpl.
    destruct (Pos.compare_spec mx my); simpl; try discriminate; lia.
  - destruct (Z.compare_spec ex ey); try discriminate; try lia.
    rewrite Pos.compare_cont_spec; simpl.
    destruct (Pos.compare_spec mx my); simpl; try discriminate; lia.
Qed.

Lemma rank_ltb x y : PrimFloat.ltb x y = true → (rank x < rank y)%N.
Proof.
  rewrite ltb_spec. intros H.
  pose proof (sf_rank_lt _ _ (Prim2SF_valid x) (Prim2SF_valid y) H).
  pose proof (sf_rank_bounds _ (Prim2SF_valid x)).
  pose proof (sf_rank_bounds _ (Prim2SF_valid y)).
  unfold rank. lia.
Qed.
End FloatOrderFacts.

(** * Properties of the path planner *)
Module PathFinderSpec.
Import PathFinder.
Local Open Scope Z_scope.

(** A free cell: inside the grid and not marked in the obstacle grid. *)
Definition free (self : t) (g : grid) (c : cell) : Prop :=
  _is_valid_position self c = true ∧ blocked g c = false.

(** One move of the search: to one of the eight neighbours, if it is free. *)
Definition grid_step (self : t) (g : grid) (a b : cell) : Prop :=
  ∃ d, d ∈ neighbor_offsets ∧ b = (fst a + fst d, snd a + snd d) ∧ free self g b.

(** [connected self g a b]: a sequence of free 8-connected cells joins the
    free cell [a] to [b]. *)
Definition connected (self : t) (g : grid) (a b : cell) : Prop :=
  free self g a ∧ rtc (grid_step self g) a b.

(** The invariant of the loop for a property [P] of cells that moves
    preserve: it holds of every queued position and of every predecessor. *)
Definition cells_inv (P : cell → Prop) (st : search) : Prop :=
  (∀ e, e ∈ open_set st → P (snd e)) ∧
  (∀ c p, came_from st !! c = Some p → P p).

(** ** The priority queue *)

Lemma heap_min_elem e heap : heap_min e heap ∈ e :: heap.
Proof.
  revert e. induction heap as [|e' heap IH]; intros e; simpl.
  - apply list_elem_of_here.
  - specialize (IH (if entry_ltb e' e then e' else e)).
    apply elem_of_cons in IH as [IH|IH].
    + rewrite IH. destruct (entry_ltb e' e); rewrite !elem_of_cons; auto.
    + rewrite !elem_of_cons; auto.
Qed.

Lemma heap_remove_subseteq c heap : heap_remove c heap ⊆ heap.
Proof.
  induction heap as [|e heap IH]; simpl; [done|].
  intros e' He'. case_decide.
  - by apply list_elem_of_further.
  - apply elem_of_cons in He' as [->|He']; rewrite elem_of_cons; auto.
Qed.

Lemma heap_remove_length c heap :
  (∃ e, e ∈ heap ∧ snd e = c) →
  S (length (heap_remove c heap)) = length heap.
Proof.
  induction heap as [|e heap IH]; intros (e0 & Hin & Hc); simpl.
  - by apply elem_of_nil in Hin.
  - case_decide as Hd; [done|]. simpl. f_equal. apply IH.
    apply elem_of_cons in Hin as [->|Hin]; [done|]. eauto.
Qed.

Lemma heappop_spec heap m rest :
  heappop heap = Some (m, rest) →
  m ∈ heap ∧ rest ⊆ heap ∧ S (length rest) = length heap.
Proof.
  destruct heap as [|e heap]; [done|]. unfold heappop.
  intros [= <- <-].
  pose proof (heap_min_elem e heap) as Hin.
  split; [done|].
  split; [apply (heap_remove_subseteq _ (e :: heap))|].
  apply (heap_remove_length _ (e :: heap)). eauto.
Qed.

Lemma heappop_None heap : heappop heap = None → heap = [].
Proof. by destruct heap. Qed.

(** ** One relaxation step *)
Section relax_inv.
Context (self : t) (g : grid) (end_grid : cell).
Context (P : cell → Prop).
Hypothesis P_step : ∀ a b, P a → grid_step self g a b → P b.

Lemma relax_cells_inv current st d :
  d ∈ neighbor_offsets → P current →
  cells_inv P st → cells_inv P (relax self g end_grid current st d).
Proof.
  intros Hd Hcur [Hopen Hfrom]. unfold relax.
  destruct d as [dx dy]. simpl.
  destruct (negb _ || _) eqn:Hguard; [done|].
  apply orb_false_iff in Hguard as [Hvalid Hblocked].
  apply negb_false_iff in Hvalid.
  assert (P (current.1 + dx, current.2 + dy)) as Hn.
  { apply (P_step current); [done|]. exists (dx, dy). by split_and!. }
  match goal with |- context [if ?b then _ else st] => destruct b end; [|done].
  assert (∀ c p, <[(current.1 + dx, current.2 + dy) := current]> (came_from st) !! c
                 = Some p → P p) as Hfrom'.
  { intros c p. rewrite lookup_insert. case_decide; [by intros [= <-]|eauto]. }
  case_decide; split; simpl; try done.
  intros e [->|He]%elem_of_cons; eauto.
Qed.

Lemma relax_all_cells_inv current st ds :
  ds ⊆ neighbor_offsets → P current →
  cells_inv P st →
  cells_inv P (fold_left (relax self g end_grid current) ds st).
Proof.
  revert st. induction ds as [|d ds IH]; intros st Hds Hcur Hinv; [done|].
  simpl. apply IH; [set_solver|done|].
  apply relax_cells_inv; [set_solver|done..].
Qed.
End relax_inv.

Lemma grid_step_free self g a b : free self g a → grid_step self g a b → free self g b.
Proof. by intros _ (d & _ & _ & Hb). Qed.

(** ** Path reconstruction *)
Lemma reconstruct_loop_elem (P : cell → Prop) fuel cf current total path :
  (∀ c p, cf !! c = Some p → P p) →
  Forall P total →
  reconstruct_loop fuel cf current total = Some path →
  Forall P path.
Proof.
  intros Hcf. revert current total.
  induction fuel as [|fuel IH]; intros current total Htot; simpl.
  - destruct (cf !! current); [done|]. by intros [= <-].
  - destruct (cf !! current) as [prev|] eqn:Hprev; [|by intros [= <-]].
    apply IH. apply Forall_app. split; [done|]. repeat constructor. eauto.
Qed.

Lemma reconstruct_path_elem (P : cell → Prop) fuel cf current path :
  (∀ c p, cf !! c = Some p → P p) →
  P current →
  _reconstruct_path fuel cf current = Some path →
  Forall P path.
Proof.
  intros Hcf Hcur. unfold _reconstruct_path.
  destruct (reconstruct_loop _ _ _ _) as [l|] eqn:Hl; [|done].
  intros [= <-]. apply Forall_reverse.
  eapply reconstruct_loop_elem; [done| |done]. by repeat constructor.
Qed.

(** ** The search loop returns cells that satisfy the invariant *)
Lemma search_loop_eq fuel self g end_grid st :
  search_loop fuel self g end_grid st =
  match heappop (open_set st) with
  | None => Some []
  | Some ((_, current), rest) =>
      match fuel with
      | O => None
      | S fuel' =>
          let st1 :=
            {| open_set := rest;
               came_from := came_from st;
               g_score := g_score st;
               f_score := f_score st;
               open_set_hash := open_set_hash st ∖ {[current]} |} in
          if decide (current = end_grid) then
            path ← _reconstruct_path fuel' (came_from st1) current;
            Some (map (to_world self) path)
          else
            search_loop fuel' self g end_grid
              (relax_neighbors self g end_grid current st1)
      end
  end.
Proof. by destruct fuel. Qed.

Lemma search_loop_cells (P : cell → Prop) self g end_grid fuel st path :
  (∀ a b, P a → grid_step self g a b → P b) →
  cells_inv P st →
  search_loop fuel self g end_grid st = Some path →
  ∃ cells, path = map (to_world self) cells ∧ Forall P cells.
Proof.
  intros Hstep. revert st.
  induction fuel as [|fuel IH]; intros st Hinv; rewrite search_loop_eq.
  - destruct (heappop _) as [[[] ?]|]; [done|]. intros [= <-]. by exists [].
  - destruct (heappop _) as [[[prio current] rest]|] eqn:Hpop;
      [|intros [= <-]; by exists []].
    apply heappop_spec in Hpop as (Hin & Hrest & _).
    destruct Hinv as [Hopen Hfrom].
    assert (P current) as Hcur by apply (Hopen _ Hin).
    cbv zeta. case_decide as Hend.
    + cbn [came_from]. destruct (_reconstruct_path _ _ _) as [cells|] eqn:Hrec; [|done].
      intros [= <-]. exists cells. split; [done|].
      by eapply reconstruct_path_elem.
    + apply IH. apply relax_all_cells_inv; [done..|].
      split; [|done]. intros e He. apply Hopen, Hrest, He.
Qed.

(** ** Termination measure

    Each iteration removes one queued tuple; a relaxation that queues a new
    tuple either discovers a cell of the grid (there are finitely many) or
    replaces a stored cost by a smaller double (which lowers its rank). *)
Definition all_cells (self : t) : list cell :=
  x ← range 0 (grid_width self); y ← range 0 (grid_height self); [(x, y)].

Definition unseen (g : gmap cell float) (c : cell) : bool :=
  match g !! c with None => true | Some _ => false end.

Definition undiscovered (self : t) (g : gmap cell float) : nat :=
  length (List.filter (unseen g) (all_cells self)).

Definition rank_sum (g : gmap cell float) : N :=
  map_fold (λ _ v acc, (FloatOrder.rank v + acc)%N) 0%N g.

Definition measure (self : t) (st : search) : nat * N * nat :=
  (undiscovered self (g_score st), rank_sum (g_score st), length (open_set st)).

Definition lexlt (a b : nat * N * nat) : Prop :=
  let '(a1, a2, a3) := a in
  let '(b1, b2, b3) := b in
  (a1 < b1)%nat ∨ (a1 = b1 ∧ ((a2 < b2)%N ∨ (a2 = b2 ∧ (a3 < b3)%nat))).

Definition lexle (a b : nat * N * nat) : Prop := a = b ∨ lexlt a b.

Lemma lexlt_wf : well_founded lexlt.
Proof.
  intros [[a1 a2] a3]. revert a2 a3.
  induction (lt_wf a1) as [a1 _ IH1]. intros a2.
  induction (N.lt_wf_0 a2) as [a2 _ IH2]. intros a3.
  induction (lt_wf a3) as [a3 _ IH3].
  constructor. intros [[b1 b2] b3] [H|[-> [H|[-> H]]]]; auto.
Qed.

Lemma lexle_lt_trans a b c : lexle a b → lexlt b c → lexlt a c.
Proof.
  destruct a as [[a1 a2] a3], b as [[b1 b2] b3], c as [[c1 c2] c3].
  intros [[= -> -> ->]|H]; [done|]. unfold lexlt in *. lia.
Qed.

Lemma lexle_trans a b c : lexle a b → lexle b c → lexle a c.
Proof.
  intros Hab [<-|Hbc]; [done|]. right. by eapply lexle_lt_trans.
Qed.

Lemma all_cells_valid self c :
  _is_valid_position self c = true → c ∈ all_cells self.
Proof.
  destruct c as [x y]. unfold _is_valid_position, all_cells, range.
  rewrite !andb_true_iff, !Z.leb_le, !Z.ltb_lt. intros [[[??]?]?].
  apply list_elem_of_bind. exists x. split; [|apply elem_of_seqZ; lia].
  apply list_elem_of_bind. exists y. split; [|apply elem_of_seqZ; lia].
  apply list_elem_of_here.
Qed.

Lemma filter_length_le {A} (p q : A → bool) l :
  (∀ x, p x = true → q x = true) →
  (length (List.filter p l) <= length (List.filter q l))%nat.
Proof.
  intros Hpq. induction l as [|a l IH]; simpl; [done|].
  destruct (p a) eqn:Hp.
  - rewrite (Hpq _ Hp). simpl. lia.
  - destruct (q a); simpl; lia.
Qed.

Lemma filter_length_lt {A} (p q : A → bool) l a :
  (∀ x, p x = true → q x = true) →
  a ∈ l → p a = false → q a = true →
  (length (List.filter p l) < length (List.filter q l))%nat.
Proof.
  intros Hpq Hin Hp Hq. induction l as [|b l IH]; simpl.
  - by apply elem_of_nil in Hin.
  - apply elem_of_cons in Hin as [<-|Hin].
    + rewrite Hp, Hq. simpl.
      pose proof (filter_length_le p q l Hpq). lia.
    + specialize (IH Hin). destruct (p b) eqn:Hpb.
      * rewrite (Hpq _ Hpb). simpl. lia.
      * destruct (q b); simpl; lia.
Qed.

Lemma undiscovered_insert_new self g c v :
  _is_valid_position self c = true → g !! c = None →
  (undiscovered self (<[c := v]> g) < undiscovered self g)%nat.
Proof.
  intros Hvalid Hnone. unfold undiscovered.
  apply filter_length_lt with (a := c).
  - intros x. unfold unseen. rewrite lookup_insert.
    case_decide; [done|]. by destruct (g !! x).
  - by apply all_cells_valid.
  - unfold unseen. by rewrite lookup_insert_eq.
  - unfold unseen. by rewrite Hnone.
Qed.

Lemma undiscovered_insert_old self g c v v' :
  g !! c = Some v → undiscovered self (<[c := v']> g) = undiscovered self g.
Proof.
  intros Hsome. unfold undiscovered. f_equal.
  apply List.filter_ext. intros x. unfold unseen. rewrite lookup_insert.
  case_decide as Hx; [|done]. subst. by rewrite Hsome.
Qed.

Lemma rank_sum_insert g c v :
  g !! c = None →
  rank_sum (<[c := v]> g) = (FloatOrder.rank v + rank_sum g)%N.
Proof.
  intros Hnone. unfold rank_sum.
  apply (map_fold_insert_L (λ _ v acc, (FloatOrder.rank v + acc)%N)); [|done].
  intros. lia.
Qed.

Lemma rank_sum_insert_old g c v v' :
  g !! c = Some v → PrimFloat.ltb v' v = true →
  (rank_sum (<[c := v']> g) < rank_sum g)%N.
Proof.
  intros Hsome Hlt.
  rewrite <-(insert_delete_eq g c v') .
  rewrite <-(insert_id g c v) at 2 by done.
  rewrite <-(insert_delete_eq g c v).
  rewrite !rank_sum_insert by apply lookup_delete_eq.
  apply FloatOrderFacts.rank_ltb in Hlt. lia.
Qed.

(** What one relaxation may change. *)
Lemma relax_measure self g end_grid current st d :
  lexle (measure self (relax self g end_grid current st d)) (measure self st).
Proof.
  unfold relax. destruct d as [dx dy].
  destruct (negb _ || _) eqn:Hguard; [by left|].
  apply orb_false_iff in Hguard as [Hvalid _].
  apply negb_false_iff in Hvalid.
  set (t := if negb (dx =? 0) && negb (dy =? 0) then _ else _).
  destruct (g_score st !! (current.1 + dx, current.2 + dy)) as [old|] eqn:Hold.
  - destruct (PyFloat.ltb t old) eqn:Hlt; [|by left].
    right. unfold measure, lexlt.
    case_decide; simpl; right;
      (split; [by eapply undiscovered_insert_old|]); left;
      by eapply rank_sum_insert_old.
  - right. unfold measure, lexlt.
    case_decide; simpl; left; by apply undiscovered_insert_new.
Qed.

Lemma relax_all_measure self g end_grid current ds st :
  lexle (measure self (fold_left (relax self g end_grid current) ds st))
        (measure self st).
Proof.
  revert st. induction ds as [|d ds IH]; intros st; simpl; [by left|].
  eapply lexle_trans; [apply IH|apply relax_measure].
Qed.

(** ** The loop ends with the empty result when the goal is out of reach *)
Lemma search_loop_unreachable self g start_grid end_grid st :
  ¬ rtc (grid_step self g) start_grid end_grid →
  cells_inv (rtc (grid_step self g) start_grid) st →
  ∃ fuel0, ∀ fuel, (fuel0 <= fuel)%nat →
    search_loop fuel self g end_grid st = Some [].
Proof.
  intros Hunreach.
  remember (measure self st) as m eqn:Hm. revert st Hm.
  induction (lexlt_wf m) as [m _ IH]. intros st -> Hinv.
  destruct (heappop (open_set st)) as [[[prio current] rest]|] eqn:Hpop.
  - pose proof Hpop as (Hin & Hrest & Hlen)%heappop_spec.
    destruct Hinv as [Hopen Hfrom].
    assert (current ≠ end_grid) as Hne.
    { intros ->. apply Hunreach, (Hopen _ Hin). }
    set (st1 := {| open_set := rest; came_from := came_from st;
                   g_score := g_score st; f_score := f_score st;
                   open_set_hash := open_set_hash st ∖ {[current]} |}).
    set (st2 := relax_neighbors self g end_grid current st1).
    destruct (IH (measure self st2)) with (st := st2) as [fuel0 Hfuel0].
    + eapply lexle_lt_trans; [apply relax_all_measure|].
      unfold measure, st1, lexlt; cbn [g_score open_set].
      right. split; [done|]. right. split; [done|]. lia.
    + done.
    + apply relax_all_cells_inv; [|done|apply (Hopen _ Hin)|].
      * intros a b Ha Hab. by eapply rtc_r.
      * split; [|done]. intros e He. apply Hopen, Hrest, He.
    + exists (S fuel0). intros [|fuel] Hle; [lia|].
      rewrite search_loop_eq, Hpop. cbv zeta.
      rewrite decide_False by done. apply Hfuel0. lia.
  - exists 0%nat. intros fuel _. by rewrite search_loop_eq, Hpop.
Qed.

(** ** The obstacle grid has one row per grid line and one entry per cell *)
Definition grid_shape (self : t) (g : grid) : Prop :=
  length g = Z.to_nat (grid_height self) ∧
  Forall (λ row, length row = Z.to_nat (grid_width self)) g.

Lemma grid_mark_shape self g y x :
  grid_shape self g → grid_shape self (grid_mark g y x).
Proof.
  intros [Hlen Hrows]. unfold grid_mark.
  destruct (g !! Z.to_nat y) as [row|] eqn:Hrow; [|done].
  split; [by rewrite length_insert|].
  apply Forall_insert; [done|]. cbv beta. rewrite length_insert.
  eapply Forall_lookup_1 in Hrows; [|done]. done.
Qed.

Lemma fold_shape {A} self (f : grid → A → grid) l g :
  (∀ g a, grid_shape self g → grid_shape self (f g a)) →
  grid_shape self g → grid_shape self (fold_left f l g).
Proof.
  intros Hf. revert g. induction l as [|a l IH]; intros g Hg; simpl; auto.
Qed.

Lemma create_obstacle_grid_shape self obstacles :
  grid_shape self (_create_obstacle_grid self obstacles).
Proof.
  unfold _create_obstacle_grid. apply fold_shape.
  - intros g r Hg. unfold mark_obstacle.
    apply fold_shape; [|done]. intros g' y Hg'.
    apply fold_shape; [|done]. intros g'' x Hg''.
    by apply grid_mark_shape.
  - split; [by rewrite length_replicate|].
    apply Forall_replicate. by rewrite length_replicate.
Qed.

(** Reading the grid at a valid position never fails. *)
Lemma grid_get_valid self obstacles c :
  _is_valid_position self c = true →
  is_Some (grid_get (_create_obstacle_grid self obstacles) c).
Proof.
  destruct c as [x y]. unfold _is_valid_position, grid_get.
  rewrite !andb_true_iff, !Z.leb_le, !Z.ltb_lt. intros [[[??]?]?].
  destruct (create_obstacle_grid_shape self obstacles) as [Hlen Hrows].
  destruct (lookup_lt_is_Some_2 (_create_obstacle_grid self obstacles)
              (Z.to_nat y)) as [row Hrow]; [lia|].
  rewrite Hrow. simpl. apply lookup_lt_is_Some_2.
  eapply Forall_lookup_1 in Hrows; [|done]. simpl in Hrows. lia.
Qed.

(** ** Cell centres *)
Lemma to_world_inj self a b :
  grid_size self ≠ 0 → to_world self a = to_world self b → a = b.
Proof.
  destruct a as [ax ay], b as [bx by_]. unfold to_world. simpl.
  intros Hgs [= Hx Hy]. f_equal; nia.
Qed.

Lemma init_grid_size w h gs self : init w h gs = Some self → grid_size self ≠ 0.
Proof.
  unfold init. destruct (gs =? 0) eqn:Hgs; [done|].
  intros [= <-]. simpl. by apply Z.eqb_neq.
Qed.

Lemma initial_search_inv (P : cell → Prop) start_grid end_grid :
  P start_grid → cells_inv P (initial_search start_grid end_grid).
Proof.
  intros Hs. split; simpl.
  - unfold heappush. by intros e ->%list_elem_of_singleton.
  - intros c p. by rewrite lookup_empty.
Qed.

(** ** Costs of cell paths, in thousandths: 1000 per orthogonal step and
    1414 per diagonal step *)
Definition step_cost (a b : cell) : Z :=
  if negb (fst a =? fst b) && negb (snd a =? snd b) then 1414 else 1000.

Fixpoint path_cost (cells : list cell) : Z :=
  match cells with
  | a :: (b :: _) as rest => step_cost a b + path_cost rest
  | _ => 0
  end.

Definition adjacent (a b : cell) : bool :=
  bool_decide ((fst b - fst a, snd b - snd a) ∈ neighbor_offsets).

(** [grid_path self g cells]: consecutive cells are neighbours, and every
    cell is inside the grid and unmarked. *)
Fixpoint steps_ok (cells : list cell) : bool :=
  match cells with
  | a :: (b :: _) as rest => adjacent a b && steps_ok rest
  | _ => true
  end.

Definition grid_path (self : t) (g : grid) (s e : cell) (cells : list cell) : bool :=
  bool_decide (head cells = Some s) && bool_decide (last cells = Some e)
  && forallb (λ c, _is_valid_position self c && negb (blocked g c)) cells
  && steps_ok cells.

(** A list of cells accepted by [grid_path] is a sequence of free
    8-connected cells in the sense of [connected]. *)
Lemma grid_path_connected self g cells s e :
  grid_path self g s e cells = true → connected self g s e.
Proof.
  unfold grid_path. rewrite !andb_true_iff, !bool_decide_eq_true.
  intros [[[Hhead Hlast] Hfree] Hsteps].
  assert (∀ c, c ∈ cells → free self g c) as Hfree'.
  { intros c Hc. rewrite forallb_forall in Hfree.
    apply list_elem_of_In, Hfree in Hc.
    apply andb_true_iff in Hc as [? ?%negb_true_iff]. by split. }
  clear Hfree. revert s Hhead Hlast Hsteps Hfree'.
  induction cells as [|a [|b rest] IH]; intros s Hhead Hlast Hsteps Hfree.
  - done.
  - simpl in *. injection Hhead as <-. injection Hlast as <-.
    split; [|done]. apply Hfree. apply list_elem_of_here.
  - injection Hhead as <-.
    change (steps_ok (a :: b :: rest)) with (adjacent a b && steps_ok (b :: rest))
      in Hsteps.
    apply andb_true_iff in Hsteps as [Hadj Hsteps].
    destruct (IH b) as [Hb Hrtc]; [done|by rewrite <-Hlast|done|..].
    { intros c Hc. apply Hfree. by apply list_elem_of_further. }
    split; [apply Hfree, list_elem_of_here|].
    eapply rtc_l; [|exact Hrtc].
    apply bool_decide_eq_true in Hadj.
    eexists. split; [exact Hadj|]. split; [|done].
    destruct a, b. simpl. f_equal; lia.
Qed.

(** ** Worked inputs *)

(** A world of 120 x 100 units with cells of 20 units: 6 x 5 cells. *)
Definition small_world : t :=
  {| width := 120; height := 100; grid_size := 20;
     grid_width := 6; grid_height := 5 |}.

(** One obstacle along the left edge; with the margin it marks the cells
    [0..1] x [0..3]. *)
Definition parked_car : Rect.t := Rect.mk 5 5 10 50.

(** A corridor of 120 x 20 units (6 x 1 cells) cut by one obstacle. *)
Definition corridor : t :=
  {| width := 120; height := 20; grid_size := 20;
     grid_width := 6; grid_height := 1 |}.

Definition roadblock : Rect.t := Rect.mk 50 0 5 5.

(** A world of 400 x 400 units: 20 x 20 cells. *)
Definition world_400 : t :=
  {| width := 400; height := 400; grid_size := 20;
     grid_width := 20; grid_height := 20 |}.

Example small_world_init : init 120 100 20 = Some small_world.
Proof. reflexivity. Qed.

Example world_400_init : init 400 400 20 = Some world_400.
Proof. reflexivity. Qed.

Example small_world_grid :
  _create_obstacle_grid small_world [parked_car]
  = [[true; true; false; false; false; false];
     [true; true; false; false; false; false];
     [true; true; false; false; false; false];
     [true; true; false; false; false; false];
     [false; false; false; false; false; false]].
Proof. reflexivity. Qed.

Example open_field_path :
  find_path 100 small_world (110, 10)%Q (10, 30)%Q []
  = Some [(110, 10); (90, 10); (70, 10); (50, 10); (30, 10); (10, 30)].
Proof. vm_compute. reflexivity. Qed.

Example corridor_grid :
  _create_obstacle_grid corridor [roadblock]
  = [[false; true; true; true; false; false]].
Proof. reflexivity. Qed.

(** ** Soundness *)

Lemma find_path_cells fuel self start end_ obstacles path :
  find_path fuel self start end_ obstacles = Some path →
  ∃ cells, path = map (to_world self) cells ∧
           Forall (free self (_create_obstacle_grid self obstacles)) cells.
Proof.
  unfold find_path.
  destruct (negb _ || negb _) eqn:Hvalid; [intros [= <-]; by exists []|].
  destruct (blocked _ _ || blocked _ _) eqn:Hblocked; [intros [= <-]; by exists []|].
  apply orb_false_iff in Hvalid as [Hs%negb_false_iff _].
  apply orb_false_iff in Hblocked as [Hbs _].
  apply search_loop_cells.
  - intros a b. apply grid_step_free.
  - by apply initial_search_inv.
Qed.

(** C4. Whenever [find_path] returns a path, every waypoint of it is the
    centre of a cell that lies inside the grid and is not marked in the
    inflated obstacle grid built for the call; no waypoint is the centre of
    a marked cell. *)
Theorem find_path_sound w h gs self fuel start end_ obstacles path :
  init w h gs = Some self →
  find_path fuel self start end_ obstacles = Some path →
  (∀ p, p ∈ path →
     ∃ c, p = to_world self c ∧ _is_valid_position self c = true ∧
          grid_get (_create_obstacle_grid self obstacles) c = Some false) ∧
  (∀ c, to_world self c ∈ path →
     grid_get (_create_obstacle_grid self obstacles) c ≠ Some true).
Proof.
  intros Hinit (cells & -> & Hfree)%find_path_cells.
  apply init_grid_size in Hinit.
  assert (∀ c, c ∈ cells →
            _is_valid_position self c = true ∧
            grid_get (_create_obstacle_grid self obstacles) c = Some false) as Hc.
  { intros c Hin. eapply Forall_forall in Hfree as [Hv Hb]; [|done].
    split; [done|]. unfold blocked in Hb.
    destruct (grid_get _ c) as [[]|]; done. }
  split.
  - intros p (c & -> & Hin)%list_elem_of_fmap. exists c. split; [done|]. by apply Hc.
  - intros c (c' & Heq & Hin)%list_elem_of_fmap.
    apply to_world_inj in Heq as ->; [|done].
    destruct (Hc _ Hin) as [_ ->]. done.
Qed.

Lemma find_path_sound_witness :
  init 120 100 20 = Some small_world ∧
  find_path 20 small_world (110, 10)%Q (10, 90)%Q [parked_car]
  = Some [(110, 10); (90, 10); (70, 30); (50, 50); (50, 70); (30, 90); (10, 90)] ∧
  grid_get (_create_obstacle_grid small_world [parked_car]) (2, 2) ≠ Some true.
Proof.
  assert (find_path 20 small_world (110, 10)%Q (10, 90)%Q [parked_car]
          = Some [(110, 10); (90, 10); (70, 30); (50, 50); (50, 70); (30, 90); (10, 90)])
    as Hrun by (vm_compute; reflexivity).
  split; [reflexivity|]. split; [exact Hrun|].
  apply (find_path_sound 120 100 20 small_world 20 (110, 10)%Q (10, 90)%Q
           [parked_car] _ eq_refl Hrun).
  vm_compute. do 3 apply list_elem_of_further. apply list_elem_of_here.
Defined.

(** ** No-path cases *)

(** C5. [find_path] returns the empty list, for every sufficient fuel,
    when the start cell or the goal cell is outside the grid, when one of
    them is marked in the inflated obstacle grid, or when no sequence of
    free 8-connected cells joins the start cell to the goal cell. *)
Theorem find_path_empty self start end_ obstacles :
  let g := _create_obstacle_grid self obstacles in
  let start_grid := to_grid self start in
  let end_grid := to_grid self end_ in
  _is_valid_position self start_grid = false ∨
  _is_valid_position self end_grid = false ∨
  blocked g start_grid = true ∨
  blocked g end_grid = true ∨
  ¬ connected self g start_grid end_grid →
  ∃ fuel0, ∀ fuel, (fuel0 <= fuel)%nat →
    find_path fuel self start end_ obstacles = Some [].
Proof.
  intros g start_grid end_grid Hcase. unfold find_path. cbv zeta.
  fold start_grid end_grid g.
  destruct (_is_valid_position self start_grid) eqn:Hvs; cbn [negb orb];
    [|by exists 0%nat].
  destruct (_is_valid_position self end_grid) eqn:Hve; cbn [negb orb];
    [|by exists 0%nat].
  destruct (blocked g start_grid) eqn:Hbs; cbn [negb orb]; [by exists 0%nat|].
  destruct (blocked g end_grid) eqn:Hbe; cbn [negb orb]; [by exists 0%nat|].
  destruct Hcase as [?|[?|[?|[?|Hcon]]]]; try done.
  apply search_loop_unreachable with (start_grid := start_grid).
  - intros Hrtc. apply Hcon. by split.
  - by apply initial_search_inv.
Qed.

(** In the corridor, nothing but the start cell can be reached from it. *)
Lemma corridor_cut a c :
  rtc (grid_step corridor (_create_obstacle_grid corridor [roadblock])) a c →
  a = (0, 0) → c = (0, 0).
Proof.
  intros Hrtc. induction Hrtc as [|a b c Hstep _ IH]; [done|].
  intros ->. exfalso.
  destruct Hstep as (d & Hd & -> & Hvalid & Hblocked).
  unfold neighbor_offsets in Hd.
  repeat (apply elem_of_cons in Hd as [->|Hd]);
    try discriminate Hvalid; try discriminate Hblocked.
  by apply elem_of_nil in Hd.
Qed.

Lemma find_path_empty_witness :
  ¬ connected corridor (_create_obstacle_grid corridor [roadblock])
      (to_grid corridor (10, 10)%Q) (to_grid corridor (110, 10)%Q) ∧
  ∃ fuel0, ∀ fuel, (fuel0 <= fuel)%nat →
    find_path fuel corridor (10, 10)%Q (110, 10)%Q [roadblock] = Some [].
Proof.
  assert (¬ connected corridor (_create_obstacle_grid corridor [roadblock])
            (to_grid corridor (10, 10)%Q) (to_grid corridor (110, 10)%Q)) as Hcut.
  { intros [_ Hrtc]. apply corridor_cut in Hrtc; [|reflexivity].
    discriminate Hrtc. }
  split; [exact Hcut|].
  apply (find_path_empty corridor (10, 10)%Q (110, 10)%Q [roadblock]).
  do 4 right. exact Hcut.
Defined.

(** ** The returned path need not be a cheapest one *)

(** C1 fails on the code.  In [small_world] with [parked_car], from the
    cell (5,0) to the cell (0,4), the search returns a path of three
    orthogonal and three diagonal steps (7.242), while one orthogonal step
    and four diagonal steps (6.656) also join the two cells.

    The cell (3,2) is queued with priority 7.242 when (3,1) is expanded.
    Expanding (4,1) then finds a cheaper way to (3,2) and lowers its
    [g_score] and [f_score] (to 6.656), but (3,2) is in [open_set_hash], so
    nothing is pushed and the queued tuple keeps 7.242.  The cells (2,1),
    (2,3), (1,4) and the goal (0,4) are queued with 7.242 as well and are
    smaller as tuples, so the goal is popped before (3,2) is expanded. *)
Theorem find_path_not_cheapest :
  let g := _create_obstacle_grid small_world [parked_car] in
  let returned := [(5, 0); (4, 0); (3, 1); (2, 2); (2, 3); (1, 4); (0, 4)] in
  let cheaper := [(5, 0); (4, 1); (3, 2); (2, 3); (1, 4); (0, 4)] in
  find_path 20 small_world (110, 10)%Q (10, 90)%Q [parked_car]
    = Some (map (to_world small_world) returned) ∧
  to_grid small_world (110, 10)%Q = (5, 0) ∧
  to_grid small_world (10, 90)%Q = (0, 4) ∧
  connected small_world g (5, 0) (0, 4) ∧
  grid_path small_world g (5, 0) (0, 4) returned = true ∧
  grid_path small_world g (5, 0) (0, 4) cheaper = true ∧
  path_cost returned = 7242 ∧
  path_cost cheaper = 6656 ∧
  ¬ (∀ cells, grid_path small_world g (5, 0) (0, 4) cells = true →
              path_cost returned <= path_cost cells).
Proof.
  cbv zeta.
  assert (grid_path small_world (_create_obstacle_grid small_world [parked_car])
            (5, 0) (0, 4) [(5, 0); (4, 1); (3, 2); (2, 3); (1, 4); (0, 4)] = true)
    as Hcheaper by (vm_compute; reflexivity).
  split; [vm_compute; reflexivity|].
  split; [vm_compute; reflexivity|].
  split; [vm_compute; reflexivity|].
  split; [by eapply grid_path_connected|].
  split; [vm_compute; reflexivity|].
  split; [exact Hcheaper|].
  split; [reflexivity|]. split; [reflexivity|].
  intros Hmin. apply Hmin in Hcheaper. vm_compute in Hcheaper. by apply Hcheaper.
Qed.

End PathFinderSpec.

(** * Properties of the vehicle controller *)
Module VehicleSpec.
Import Num Vehicle.
Local Open Scope Q_scope.

(** ** Comparisons *)
Lemma ltb_lt a b : ltb a b = true ↔ a < b.
Proof.
  unfold ltb. rewrite negb_true_iff, <-not_true_iff_false, Qle_bool_iff.
  split; [apply Qnot_le_lt|apply Qlt_not_le].
Qed.

Lemma ltb_ge a b : ltb a b = false ↔ b <= a.
Proof. unfold ltb. by rewrite negb_false_iff, Qle_bool_iff. Qed.

Lemma ltb_shift a b a' b' : b - a == b' - a' → ltb a b = ltb a' b'.
Proof.
  intros H. destruct (ltb a' b') eqn:E.
  - apply ltb_lt in E. apply ltb_lt. lra.
  - apply ltb_ge in E. apply ltb_ge. lra.
Qed.

(** ** The remainder *)
Lemma pymod_range a : 0 <= pymod a 360 < 360.
Proof.
  unfold pymod.
  pose proof (Qfloor_le (a / 360)) as Hlo.
  pose proof (Qlt_floor (a / 360)) as Hhi.
  rewrite inject_Z_plus in Hhi.
  assert (a == a / 360 * 360) as Ha by (field; discriminate).
  set (q := a / 360) in *. set (k := inject_Z (Qfloor q)) in *.
  change (inject_Z 1) with 1 in Hhi. lra.
Qed.






(** ** One tick *)
Section with_math.
Context (math : MathLib).

(** C10. A tick in state idle returns the vehicle as it is: every field
    is unchanged, whatever the obstacles. *)
Theorem update_idle (self : t) (obstacles : list Rect.t) :
  state_ self = Idle → update math self obstacles = self.
Proof. intros H. unfold update. by rewrite H. Qed.



(** ** The heading *)


















End with_math.


(** ** Worked ticks *)

(** A vehicle at (100, 400), heading 0, following a path in state parking. *)
Definition parking_vehicle : t :=
  set_state (set_path (init 100 400 0) [(104, 400); (200, 400)] 1) Parking.

(** A parked car under the front right corner of the vehicle. *)
Definition blocking_car : Rect.t := Rect.mk 120 390 40 40.

Example get_corners_heading_0 :
  map (λ p, (Qred (fst p), Qred (snd p)))
      (get_corners ApproxMath.math parking_vehicle)
  = [(60, 380); (140, 380); (140, 420); (60, 420)].
Proof. vm_compute. reflexivity. Qed.

Example tick_collides :
  is_colliding ApproxMath.math parking_vehicle [blocking_car] = true ∧
  state_ (update ApproxMath.math parking_vehicle [blocking_car]) = Returning.
Proof. vm_compute. done. Qed.

Example tick_advances :
  let v := update ApproxMath.math parking_vehicle [] in
  current_path_index v = 1%nat ∧ state_ v = Parking ∧ Qeq (velocity v) 0.05.
Proof. vm_compute. done. Qed.

Lemma update_idle_witness :
  update ApproxMath.math (init 100 400 0) [blocking_car] = init 100 400 0.
Proof. apply (update_idle ApproxMath.math (init 100 400 0)). reflexivity. Defined.



End VehicleSpec.

(** * Properties of the planner-based orchestrator (parking.py) *)
Module ParkingSpec.
Import Num Parking.
Local Open Scope string_scope.
Local Open Scope Z_scope.

Section with_math.
Context (math : MathLib).


Lemma plan_frame fuel self self' spot :
  vehicle self' = vehicle self → parking_spots self' = parking_spots self →
  obstacles self' = obstacles self → pathfinder self' = pathfinder self →
  plan fuel self' spot = plan fuel self spot.
Proof. unfold plan, planning_obstacles. by intros -> -> -> ->. Qed.


End with_math.

(** ** Worked run: a spot whose entry point is blocked *)

(** The nearest spot, 230 units from the vehicle; its entry point (230, 205)
    lies in the cell (11, 10). *)
Definition near_spot : parking_spot :=
  mkSpot (Rect.mk 300 160 60 90) Perpendicular Vertical.

(** A second vacant spot, 272 units from the vehicle, with a free entry
    point. *)
Definition far_spot : parking_spot :=
  mkSpot (Rect.mk 300 300 60 90) Perpendicular Vertical.

(** A parked car on the entry point of [near_spot]; with the margin it marks
    the cells [10..13] x [8..11]. *)
Definition entry_blocker : Rect.t := Rect.mk 225 195 20 20.

(** The simulation of a 400 x 400 world before its first attempt. *)
Definition blocked_world : t :=
  {| width := 400;
     height := 400;
     vehicle := Vehicle.init 100 200 0;
     obstacles := [entry_blocker];
     parking_spots := [near_spot; far_spot];
     pathfinder := PathFinderSpec.world_400;
     current_attempt := 0;
     max_attempts := 3;
     status := "Ready to start";
     active_spot := None |}.

Example blocked_world_nearest :
  nearest_spot ApproxMath.math blocked_world = Some near_spot.
Proof. vm_compute. reflexivity. Qed.

Example blocked_world_no_route :
  plan 0 blocked_world near_spot = Some [].
Proof. vm_compute. reflexivity. Qed.

Example far_spot_has_route :
  plan 400 blocked_world far_spot
  = Some [(110, 210); (110, 230); (130, 250); (150, 270); (170, 290);
          (190, 310); (210, 330); (230, 350)].
Proof. vm_compute. reflexivity. Qed.



End ParkingSpec.

(** * Properties of the spot selection and of the failed-spot list (main.py) *)
Module MainSpec.
Import Num Main.
Local Open Scope Q_scope.

(** ** Sorting by a key *)
Section sort_by.
Context {A : Type} (key : A → Q).


Lemma insert_by_perm a l : insert_by key a l ≡ₚ a :: l.
Proof.
  induction l as [|b l IH]; simpl; [done|].
  destruct (ltb (key a) (key b)); [done|].
  rewrite IH. apply Permutation_swap.
Qed.


Lemma sort_by_acc_perm l acc :
  fold_left (λ sorted a, insert_by key a sorted) l acc ≡ₚ l ++ acc.
Proof.
  revert acc. induction l as [|a l IH]; intros acc; simpl; [done|].
  rewrite IH, insert_by_perm. by rewrite Permutation_middle.
Qed.


Lemma sort_by_perm l : sort_by key l ≡ₚ l.
Proof. unfold sort_by. by rewrite sort_by_acc_perm, app_nil_r. Qed.

End sort_by.

(** Sorting pairs [(a, key a)] by their second component sorts the first
    components by [key]. *)
Lemma insert_by_tagged {A} (key : A → Q) a l :
  insert_by snd (a, key a) (map (λ a, (a, key a)) l)
  = map (λ a, (a, key a)) (insert_by key a l).
Proof.
  induction l as [|b l IH]; simpl; [done|].
  destruct (ltb (key a) (key b)); simpl; [done|]. by rewrite IH.
Qed.

Lemma sort_by_tagged {A} (key : A → Q) l :
  sort_by snd (map (λ a, (a, key a)) l) = map (λ a, (a, key a)) (sort_by key l).
Proof.
  unfold sort_by. change [] with (map (λ a, (a, key a)) []) at 1.
  generalize (@nil A) as acc.
  induction l as [|a l IH]; intros acc; simpl; [done|].
  by rewrite insert_by_tagged, IH.
Qed.

(** ** Spot selection *)

(** A spot is occupied when its rectangle is the rectangle of a parked car,
    and failed when it is in the failed list of the car. *)
Definition occupied (self : t) (spot : parking_spot) : Prop :=
  Exists (λ parked, rect parked = rect spot) (parked_cars self).

Definition failed (self : t) (spot : parking_spot) : Prop :=
  spot ∈ failed_spots (car self).

#[local] Instance occupied_dec self spot : Decision (occupied self spot).
Proof. unfold occupied. apply _. Defined.

#[local] Instance failed_dec self spot : Decision (failed self spot).
Proof. unfold failed. apply _. Defined.

(** The spots that remain after filtering out the occupied and the failed
    ones, in the order of [parking_spots]. *)
Definition eligible (self : t) : list parking_spot :=
  filter (λ spot, ¬ occupied self spot ∧ ¬ failed self spot) (parking_spots self).

Lemma skipped_spec self spot :
  skipped self spot = false ↔ ¬ occupied self spot ∧ ¬ failed self spot.
Proof.
  unfold skipped, occupied, failed.
  rewrite orb_false_iff, bool_decide_eq_false.
  rewrite <-not_true_iff_false, existsb_exists, Exists_exists.
  split; intros [Hocc Hfail]; (split; [|done]).
  - intros (p & Hin & Hp). apply Hocc. exists p.
    split; [by apply list_elem_of_In|by apply bool_decide_eq_true].
  - intros (p & Hin & Hp). apply Hocc. exists p.
    split; [by apply list_elem_of_In|by apply bool_decide_eq_true in Hp].
Qed.

Lemma filter_skipped self l :
  List.filter (λ spot, negb (skipped self spot)) l
  = filter (λ spot, ¬ occupied self spot ∧ ¬ failed self spot) l.
Proof.
  induction l as [|spot l IH]; simpl; [done|].
  destruct (skipped self spot) eqn:Hs; simpl.
  - rewrite filter_cons_False; [done|].
    intros H%skipped_spec. congruence.
  - rewrite filter_cons_True; [by rewrite IH|]. by apply skipped_spec.
Qed.

Section with_math.
Context (math : MathLib).

Lemma find_nearest_parking_spot_sorted self :
  (0 <= attempt_count (car self))%Z →
  find_nearest_parking_spot math self
  = sort_by (spot_distance math self) (eligible self)
      !! Z.to_nat (Z.min (attempt_count (car self))
                         (Z.of_nat (length (eligible self)) - 1)).
Proof.
  intros Hattempt. unfold find_nearest_parking_spot, eligible.
  rewrite filter_skipped.
  generalize (filter (λ spot, ¬ occupied self spot ∧ ¬ failed self spot)
                (parking_spots self)).
  intros [|spot l]; [done|].
  set (tag := λ spot, (spot, spot_distance math self spot)).
  set (spots := spot :: l).
  change (map tag spots) with (tag spot :: map tag l) at 1. cbv zeta.
  unfold tag. rewrite sort_by_tagged, length_map.
  assert (length (sort_by (spot_distance math self) spots) = length spots) as ->
    by apply Permutation_length, sort_by_perm.
  unfold py_index.
  destruct (Z.ltb_spec (Z.min (attempt_count (car self))
                              (Z.of_nat (length spots) - 1)) 0) as [Hneg|_].
  { simpl length in Hneg. lia. }
  rewrite list_lookup_fmap. by destruct (_ !! _).
Qed.


(** A selected spot is one of the parking spots, is not occupied and is not
    in the failed list. *)
Lemma find_nearest_parking_spot_eligible self spot :
  (0 <= attempt_count (car self))%Z →
  find_nearest_parking_spot math self = Some spot →
  spot ∈ parking_spots self ∧ ¬ occupied self spot ∧ ¬ failed self spot.
Proof.
  intros Hattempt. rewrite find_nearest_parking_spot_sorted by done.
  intros Hin%list_elem_of_lookup_2.
  rewrite sort_by_perm in Hin. unfold eligible in Hin.
  apply list_elem_of_filter in Hin as [[??] ?]. done.
Qed.

(** ** The failed-spot list *)















End with_math.

(** ** Worked selection *)

Definition spot_a : parking_spot := mkSpot (Rect.mk 200 100 60 40) PARALLEL.
Definition spot_b : parking_spot := mkSpot (Rect.mk 300 380 40 60) PERPENDICULAR.
Definition spot_c : parking_spot := mkSpot (Rect.mk 460 380 40 60) PERPENDICULAR.
Definition spot_d : parking_spot := mkSpot (Rect.mk 800 100 60 40) PARALLEL.

(** The car at (100, 400) on its second attempt; [spot_a] is occupied. *)
Definition second_attempt : t :=
  {| car := set_search (new_car 100 400) SEARCHING 1 None;
     parking_spots := [spot_a; spot_d; spot_c; spot_b];
     parked_cars := [spot_a];
     parking_phase := None |}.

Example second_attempt_target :
  find_nearest_parking_spot ApproxMath.math second_attempt = Some spot_c.
Proof. vm_compute. reflexivity. Qed.

End MainSpec.

(** * Further properties of the path planner *)
Module PathFinderProps.
Import PathFinder PathFinderSpec.
Local Open Scope Z_scope.

(** ** The obstacle grid *)

(** A cell is marked when the grid holds [True] at it. *)
Definition marked (g : grid) (c : cell) : Prop := grid_get g c = Some true.

Lemma grid_get_mark_ne g x y x' y' :
  0 <= x → 0 <= y → 0 <= x' → 0 <= y' → (x', y') ≠ (x, y) →
  grid_get (grid_mark g y x) (x', y') = grid_get g (x', y').
Proof.
  intros Hx Hy Hx' Hy' Hne. unfold grid_mark, grid_get.
  destruct (g !! Z.to_nat y) as [row|] eqn:Hrow; [|done].
  destruct (decide (y' = y)) as [->|Hyy].
  - rewrite list_lookup_insert_eq by by eapply lookup_lt_Some.
    rewrite Hrow. simpl. apply list_lookup_insert_ne.
    intros Heq. apply Hne. f_equal. lia.
  - rewrite list_lookup_insert_ne; [done|]. lia.
Qed.

Lemma grid_get_mark_eq g x y :
  is_Some (grid_get g (x, y)) → grid_get (grid_mark g y x) (x, y) = Some true.
Proof.
  unfold grid_mark, grid_get. intros [b Hb].
  destruct (g !! Z.to_nat y) as [row|] eqn:Hrow; [|done]. simpl in Hb.
  rewrite list_lookup_insert_eq by by eapply lookup_lt_Some.
  simpl. apply list_lookup_insert_eq. by eapply lookup_lt_Some.
Qed.

Lemma grid_get_shape self g c :
  grid_shape self g → _is_valid_position self c = true → is_Some (grid_get g c).
Proof.
  destruct c as [x y]. unfold _is_valid_position, grid_get.
  rewrite !andb_true_iff, !Z.leb_le, !Z.ltb_lt. intros [Hlen Hrows] [[[??]?]?].
  destruct (lookup_lt_is_Some_2 g (Z.to_nat y)) as [row Hrow]; [lia|].
  rewrite Hrow. simpl. apply lookup_lt_is_Some_2.
  eapply Forall_lookup_1 in Hrows; [|done]. simpl in Hrows. lia.
Qed.

Lemma valid_nonneg self x y :
  _is_valid_position self (x, y) = true →
  0 <= x < grid_width self ∧ 0 <= y < grid_height self.
Proof.
  unfold _is_valid_position.
  rewrite !andb_true_iff, !Z.leb_le, !Z.ltb_lt. lia.
Qed.

Section marking.
Context (self : t) (c : cell).
Hypothesis c_valid : _is_valid_position self c = true.

(** Marking the cells of a list: [c] is marked afterwards exactly when it
    was marked before or one of the steps hits it. *)
Lemma fold_marked {A} (f : grid → A → grid) (hit : A → Prop) (l : list A) g :
  (∀ g a, grid_shape self g → grid_shape self (f g a)) →
  (∀ g a, a ∈ l → grid_shape self g → marked (f g a) c ↔ marked g c ∨ hit a) →
  grid_shape self g →
  marked (fold_left f l g) c ↔ marked g c ∨ ∃ a, a ∈ l ∧ hit a.
Proof.
  intros Hshape. revert g.
  induction l as [|a l IH]; intros g Hf Hg; simpl.
  - split; [auto|]. intros [?|(a & Ha & _)]; [done|]. by apply elem_of_nil in Ha.
  - rewrite IH; [|intros; apply Hf; [by apply list_elem_of_further|done]|by apply Hshape].
    rewrite Hf; [|apply list_elem_of_here|done]. split.
    + intros [[?|?]|(a' & Ha' & ?)]; [by left|right..].
      * exists a. split; [apply list_elem_of_here|done].
      * exists a'. split; [by apply list_elem_of_further|done].
    + intros [?|(a' & [->|Ha']%elem_of_cons & ?)]; [by left; left|by left; right|].
      right. by exists a'.
Qed.

Lemma grid_mark_marked g x y :
  0 <= x → 0 <= y → grid_shape self g →
  marked (grid_mark g y x) c ↔ marked g c ∨ c = (x, y).
Proof.
  intros Hx Hy Hg. destruct c as [x' y'].
  destruct (valid_nonneg _ _ _ c_valid) as [Hx' Hy'].
  destruct (decide ((x', y') = (x, y))) as [[= -> ->]|Hne].
  - unfold marked. rewrite grid_get_mark_eq by by eapply grid_get_shape.
    split; auto.
  - unfold marked. rewrite grid_get_mark_ne by (done || lia).
    split; [auto|]. by intros [?|?].
Qed.

Lemma mark_obstacle_marked g obstacle :
  grid_shape self g →
  marked (mark_obstacle self g obstacle) c ↔
  marked g c ∨
  (Rect.left obstacle / grid_size self - 1 <= fst c
     <= Rect.right obstacle / grid_size self + 1 ∧
   Rect.top obstacle / grid_size self - 1 <= snd c
     <= Rect.bottom obstacle / grid_size self + 1).
Proof.
  intros Hg. unfold mark_obstacle. cbv zeta.
  set (xs := range _ _). set (ys := range _ _).
  rewrite (fold_marked _ (λ y, snd c = y ∧ fst c ∈ xs)); [| |intros g' y Hy Hg'|done].
  - destruct c as [x y]. destruct (valid_nonneg _ _ _ c_valid) as [Hx Hy].
    subst xs ys. unfold range. simpl.
    split; (intros [?|H]; [by left|right]).
    + destruct H as (y' & Hy'%elem_of_seqZ & <- & Hx'%elem_of_seqZ). lia.
    + exists y. rewrite !elem_of_seqZ. lia.
  - intros g' y Hg'. apply fold_shape; [|done].
    intros g'' x Hg''. by apply grid_mark_shape.
  - rewrite (fold_marked _ (λ x, c = (x, y))); [| |intros g'' x Hx Hg''|done].
    + split; (intros [?|H]; [by left|right]).
      * destruct H as (x & Hx & ->). done.
      * destruct H as [<- Hx]. exists (fst c). split; [done|]. by destruct c.
    + intros g'' x Hg''. by apply grid_mark_shape.
    + apply grid_mark_marked; [| |done].
      * subst xs. unfold range in Hx. apply elem_of_seqZ in Hx. lia.
      * subst ys. unfold range in Hy. apply elem_of_seqZ in Hy. lia.
Qed.
End marking.

(** X1. The inflation of the obstacles.  A cell of the grid is marked in
    the obstacle grid exactly when, for some obstacle, its column is at most
    one cell away from the columns that the obstacle spans (from
    [left // grid_size] to [right // grid_size]) and its row is at most one
    cell away from the rows that the obstacle spans. *)
Theorem create_obstacle_grid_marked self obstacles x y :
  grid_size self ≠ 0 →
  _is_valid_position self (x, y) = true →
  grid_get (_create_obstacle_grid self obstacles) (x, y) = Some true ↔
  ∃ obstacle, obstacle ∈ obstacles ∧
    Rect.left obstacle / grid_size self - 1 <= x
      <= Rect.right obstacle / grid_size self + 1 ∧
    Rect.top obstacle / grid_size self - 1 <= y
      <= Rect.bottom obstacle / grid_size self + 1.
Proof.
  intros _ Hvalid. unfold _create_obstacle_grid. cbv zeta.
  set (g0 := replicate (Z.to_nat (grid_height self)) _).
  assert (grid_shape self g0) as Hg0.
  { unfold g0. split; [by rewrite length_replicate|].
    apply Forall_replicate. by rewrite length_replicate. }
  change (grid_get ?g (x, y) = Some true) with (marked g (x, y)).
  rewrite (fold_marked self (x, y)
             _ (λ o, Rect.left o / grid_size self - 1 <= x
                       <= Rect.right o / grid_size self + 1 ∧
                     Rect.top o / grid_size self - 1 <= y
                       <= Rect.bottom o / grid_size self + 1)); [| | |done].
  - split; [|by right]. intros [Hm|?]; [|done]. exfalso.
    unfold marked, g0, grid_get in Hm.
    destruct (replicate _ _ !! Z.to_nat y) as [row|] eqn:Hrow; [|done].
    apply lookup_replicate in Hrow as [-> _]. simpl in Hm.
    by apply lookup_replicate in Hm as [? _].
  - intros g o Hg. unfold mark_obstacle.
    apply fold_shape; [|done]. intros g' y' Hg'.
    apply fold_shape; [|done]. intros g'' x' Hg''.
    by apply grid_mark_shape.
  - intros g o _ Hg. by apply (mark_obstacle_marked self (x, y)).
Qed.

Lemma create_obstacle_grid_marked_witness :
  grid_get (_create_obstacle_grid small_world [parked_car]) (1, 3) = Some true ∧
  grid_get (_create_obstacle_grid small_world [parked_car]) (2, 3) ≠ Some true.
Proof.
  split.
  - apply (create_obstacle_grid_marked small_world [parked_car] 1 3);
      [done|reflexivity|].
    exists parked_car. split; [apply list_elem_of_here|]. vm_compute.
    repeat split; discriminate.
  - intros H.
    apply (create_obstacle_grid_marked small_world [parked_car] 2 3) in H;
      [|done|reflexivity].
    destruct H as (o & ->%list_elem_of_singleton & [_ Hx] & _).
    vm_compute in Hx. by apply Hx.
Defined.

(** ** Costs are never negative *)

Definition sf_nonneg (x : spec_float) : bool :=
  match x with
  | S754_zero _ => true
  | S754_infinity s | S754_finite s _ _ => negb s
  | S754_nan => false
  end.

Definition nonneg (v : float) : Prop := sf_nonneg (Prim2SF v) = true.

Lemma shr_1_nonneg mrs : 0 <= shr_m mrs → 0 <= shr_m (shr_1 mrs).
Proof. destruct mrs as [[|[p|p|]|[p|p|]] r s]; simpl; lia. Qed.

Lemma iter_pos_inv {A} (P : A → Prop) (f : A → A) p x :
  (∀ x, P x → P (f x)) → P x → P (SpecFloat.iter_pos f p x).
Proof.
  intros Hf. revert x. induction p as [p IH|p IH|]; intros x Hx; simpl; auto.
Qed.

Lemma shr_fexp_nonneg m e l : 0 <= m → 0 <= shr_m (fst (shr_fexp prec emax m e l)).
Proof.
  intros Hm. unfold shr_fexp, shr.
  assert (0 <= shr_m (shr_record_of_loc m l)) as H0
    by (destruct l as [|[]]; simpl; lia).
  destruct (fexp _ _ _ - e) as [|p|p]; simpl; try done.
  by apply (iter_pos_inv (λ mrs, 0 <= shr_m mrs)); [apply shr_1_nonneg|].
Qed.

Lemma round_nearest_even_nonneg m l : 0 <= m → 0 <= round_nearest_even m l.
Proof.
  intros Hm. destruct l as [|[]]; simpl; try lia. destruct (Z.even m); lia.
Qed.

Lemma binary_round_aux_nonneg m e l :
  0 <= m → sf_nonneg (binary_round_aux prec emax false m e l) = true.
Proof.
  intros Hm. unfold binary_round_aux.
  pose proof (shr_fexp_nonneg m e l Hm) as H1.
  destruct (shr_fexp prec emax m e l) as [mrs' e']. simpl in H1.
  pose proof (shr_fexp_nonneg _ e' loc_Exact
                (round_nearest_even_nonneg _ (loc_of_shr_record mrs') H1)) as H2.
  destruct (shr_fexp prec emax _ e' loc_Exact) as [mrs'' e'']. simpl in H2.
  destruct (shr_m mrs'') as [|p|p]; [done| |lia].
  by destruct (e'' <=? emax - prec).
Qed.

Lemma SFadd_nonneg x y :
  sf_nonneg x = true → sf_nonneg y = true →
  sf_nonneg (SFadd prec emax x y) = true.
Proof.
  destruct x as [sx|sx| |sx mx ex], y as [sy|sy| |sy my ey]; simpl;
    try done; try (by destruct sx, sy).
  destruct sx, sy; try done. intros _ _. simpl.
  unfold binary_round.
  destruct (shl_align _ _ _) as [mz ez]. by apply binary_round_aux_nonneg.
Qed.

Lemma add_nonneg x y : nonneg x → nonneg y → nonneg (x + y)%float.
Proof.
  unfold nonneg. rewrite add_spec. apply SFadd_nonneg.
Qed.

Lemma ltb_nonneg_zero x : nonneg x → PrimFloat.ltb x 0 = false.
Proof.
  unfold nonneg. rewrite ltb_spec.
  destruct (Prim2SF x) as [s|s| |s m e]; try done;
    destruct s; try done; by vm_compute.
Qed.

(** ** What the search loop keeps *)

Lemma heap_remove_other c heap e :
  e ∈ heap → snd e ≠ c → e ∈ heap_remove c heap.
Proof.
  induction heap as [|e' heap IH]; simpl; [done|].
  intros [->|Hin]%elem_of_cons Hne.
  - rewrite decide_False by done. apply list_elem_of_here.
  - case_decide; [done|]. apply list_elem_of_further. by apply IH.
Qed.

Lemma adjacent_offset (a : cell) (d : Z * Z) :
  d ∈ neighbor_offsets → adjacent a (fst a + fst d, snd a + snd d) = true.
Proof.
  intros Hd. apply bool_decide_eq_true. simpl.
  replace (a.1 + d.1 - a.1, a.2 + d.2 - a.2) with d; [done|].
  destruct d. simpl. f_equal; lia.
Qed.

Section search.
Context (self : t) (g : grid) (start_grid end_grid : cell).

(** A cell is seen once it has a cost, queued while a tuple for it is in the
    queue, and expanded when all its free neighbours are seen. *)
Definition seen (st : search) (c : cell) : Prop := is_Some (g_score st !! c).

Definition queued (st : search) (c : cell) : Prop :=
  ∃ e, e ∈ open_set st ∧ snd e = c.

Definition expanded (st : search) (c : cell) : Prop :=
  ∀ b, grid_step self g c b → seen st b.

(** The invariant of the loop; [cur] is the cell whose neighbours are
    being relaxed, if any. *)
Record search_inv (cur : option cell) (st : search) : Prop := SearchInv {
  inv_hash : ∀ c, c ∈ open_set_hash st → seen st c;
  inv_queue : ∀ c, queued st c → seen st c;
  inv_front : ∀ c, seen st c → queued st c ∨ expanded st c ∨ cur = Some c;
  inv_goal : seen st end_grid → queued st end_grid;
  inv_free : ∀ c, seen st c → free self g c;
  inv_start : g_score st !! start_grid = Some 0%float;
  inv_root : came_from st !! start_grid = None;
  inv_link : ∀ c p, came_from st !! c = Some p → seen st p ∧ adjacent p c = true;
  inv_tree : ∀ c, seen st c → c = start_grid ∨ is_Some (came_from st !! c);
  inv_cost : ∀ c v, g_score st !! c = Some v → nonneg v
}.

Lemma initial_search_inv_all :
  free self g start_grid → search_inv None (initial_search start_grid end_grid).
Proof.
  intros Hfree.
  assert (queued (initial_search start_grid end_grid) start_grid) as Hq.
  { exists (0%float, start_grid). split; [apply list_elem_of_here|done]. }
  assert (∀ c, seen (initial_search start_grid end_grid) c → c = start_grid) as Hs.
  { intros c [v Hv]. simpl in Hv. by apply lookup_singleton_Some in Hv as [-> _]. }
  split; simpl.
  - intros c ->%elem_of_singleton. unfold seen. simpl.
    by rewrite lookup_singleton_eq.
  - intros c (e & ->%list_elem_of_singleton & <-). unfold seen. simpl.
    by rewrite lookup_singleton_eq.
  - intros c ->%Hs. by left.
  - by intros ->%Hs.
  - by intros c ->%Hs.
  - by rewrite lookup_singleton_eq.
  - done.
  - intros c p. by rewrite lookup_empty.
  - intros c ->%Hs. by left.
  - intros c v [_ <-]%lookup_singleton_Some. reflexivity.
Qed.

(** The assignment of a cost and a predecessor to the neighbour [n] of
    [current], with or without a push. *)
Lemma assign_inv current n d t st st' :
  search_inv (Some current) st → seen st current →
  d ∈ neighbor_offsets → n = (fst current + fst d, snd current + snd d) →
  free self g n → n ≠ start_grid → nonneg t →
  came_from st' = <[n := current]> (came_from st) →
  g_score st' = <[n := t]> (g_score st) →
  (∀ c, queued st c → queued st' c) →
  (∀ c, queued st' c → c = n ∨ queued st c) →
  (n ∉ open_set_hash st → queued st' n) →
  (∀ c, c ∈ open_set_hash st' → c = n ∨ c ∈ open_set_hash st) →
  search_inv (Some current) st'.
Proof.
  intros Hinv Hcur Hd Hn Hfree Hne Ht Hcf Hg Hq Hq' Hpush Hhash.
  assert (∀ c, seen st' c ↔ c = n ∨ seen st c) as Hseen.
  { intros c. unfold seen. rewrite Hg, lookup_insert_is_Some. split.
    - intros [<-|[_ ?]]; auto.
    - intros [->|?]; [by left|]. destruct (decide (n = c)); auto. }
  assert (∀ c, expanded st c → expanded st' c) as Hexp.
  { intros c He b Hb. apply Hseen. right. by apply He. }
  assert (¬ seen st n → queued st' n) as Hnew.
  { intros Hns. apply Hpush. intros Hin. by apply Hns, (inv_hash _ _ Hinv). }
  split.
  - intros c [->|Hin]%Hhash; apply Hseen; [by left|].
    right. by apply (inv_hash _ _ Hinv).
  - intros c [->|Hc]%Hq'; apply Hseen; [by left|].
    right. by apply (inv_queue _ _ Hinv).
  - intros c Hc. destruct (decide (seen st c)) as [Hsc|Hsc].
    + destruct (inv_front _ _ Hinv c Hsc) as [?|[?|?]]; auto.
    + apply Hseen in Hc as [->|?]; [|done]. left. by apply Hnew.
  - intros He. destruct (decide (seen st end_grid)) as [Hse|Hse].
    + by apply Hq, (inv_goal _ _ Hinv).
    + apply Hseen in He as [->|?]; [|done]. by apply Hnew.
  - intros c [->|Hc]%Hseen; [done|]. by apply (inv_free _ _ Hinv).
  - rewrite Hg, lookup_insert_ne by done. apply (inv_start _ _ Hinv).
  - rewrite Hcf, lookup_insert_ne by done. apply (inv_root _ _ Hinv).
  - intros c p. rewrite Hcf, lookup_insert. case_decide as Hc.
    + intros [= <-]. subst c. split; [apply Hseen; by right|].
      rewrite Hn. by apply adjacent_offset.
    + intros Hp. destruct (inv_link _ _ Hinv c p Hp) as [??].
      split; [apply Hseen; by right|done].
  - intros c [->|Hc]%Hseen; rewrite Hcf.
    + right. by rewrite lookup_insert_eq.
    + destruct (inv_tree _ _ Hinv c Hc) as [?|?]; [by left|right].
      rewrite lookup_insert_is_Some. destruct (decide (n = c)); auto.
  - intros c v. rewrite Hg, lookup_insert. case_decide.
    + by intros [= <-].
    + apply (inv_cost _ _ Hinv).
Qed.

Lemma relax_inv current st d :
  d ∈ neighbor_offsets → seen st current →
  search_inv (Some current) st →
  search_inv (Some current) (relax self g end_grid current st d).
Proof.
  intros Hd Hcur Hinv. unfold relax. destruct d as [dx dy].
  set (n := (fst current + dx, snd current + dy)).
  destruct (negb _ || _) eqn:Hguard; [done|].
  apply orb_false_iff in Hguard as [Hvalid%negb_false_iff Hblocked].
  set (t := if negb (dx =? 0) && negb (dy =? 0) then _ else _).
  assert (nonneg t) as Ht.
  { destruct Hcur as [v Hv]. unfold t, g_of. rewrite Hv. simpl.
    pose proof (inv_cost _ _ Hinv _ _ Hv).
    destruct (_ && _); by apply add_nonneg. }
  assert (match g_score st !! n with
          | None => true
          | Some old => PyFloat.ltb t old
          end = true → n ≠ start_grid) as Hne.
  { intros Hlt Heq.
    assert (g_score st !! n = Some 0%float) as Hs
      by (rewrite Heq; apply (inv_start _ _ Hinv)).
    rewrite Hs in Hlt.
    unfold PyFloat.ltb in Hlt. by rewrite ltb_nonneg_zero in Hlt. }
  destruct (match g_score st !! n with None => true | Some _ => _ end);
    [|done].
  specialize (Hne eq_refl).
  case_decide as Hin.
  - eapply (assign_inv current n (dx, dy) t st); try done; simpl; auto.
  - eapply (assign_inv current n (dx, dy) t st); try done; simpl.
    + intros c (e & He & Hc). exists e. split; [by apply list_elem_of_further|done].
    + intros c (e & [->|He]%elem_of_cons & Hc); [by left|].
      right. by exists e.
    + intros _. eexists. split; [apply list_elem_of_here|done].
    + intros c [->%elem_of_singleton|?]%elem_of_union; auto.
Qed.

Lemma relax_seen current st d c :
  seen st c → seen (relax self g end_grid current st d) c.
Proof.
  intros Hc. unfold relax. destruct d as [dx dy].
  destruct (negb _ || _); [done|].
  destruct (match g_score st !! _ with None => true | Some _ => _ end); [|done].
  assert (∀ n t, is_Some (<[n := t]> (g_score st) !! c)) as Hins.
  { intros n t. rewrite lookup_insert_is_Some.
    destruct (decide (n = c)); auto. }
  case_decide; apply Hins.
Qed.

Lemma relax_discovers current st d :
  free self g (fst current + fst d, snd current + snd d) →
  seen (relax self g end_grid current st d)
       (fst current + fst d, snd current + snd d).
Proof.
  intros [Hvalid Hblocked]. unfold relax. destruct d as [dx dy]. simpl in *.
  rewrite Hvalid, Hblocked. simpl.
  destruct (g_score st !! (current.1 + dx, current.2 + dy)) as [old|] eqn:Hold.
  - destruct (PyFloat.ltb _ old).
    + case_decide; unfold seen; simpl; by rewrite lookup_insert_eq.
    + exists old. exact Hold.
  - case_decide; unfold seen; simpl; by rewrite lookup_insert_eq.
Qed.

Lemma relax_all_inv current ds st :
  ds ⊆ neighbor_offsets → seen st current →
  search_inv (Some current) st →
  search_inv (Some current) (fold_left (relax self g end_grid current) ds st) ∧
  (∀ c, seen st c → seen (fold_left (relax self g end_grid current) ds st) c) ∧
  (∀ d, d ∈ ds → free self g (fst current + fst d, snd current + snd d) →
        seen (fold_left (relax self g end_grid current) ds st)
             (fst current + fst d, snd current + snd d)).
Proof.
  revert st. induction ds as [|d ds IH]; intros st Hds Hcur Hinv; simpl.
  - split; [done|]. split; [done|]. by intros d Hd%elem_of_nil.
  - destruct (IH (relax self g end_grid current st d)) as (Hinv' & Hmono & Hdisc).
    + intros d' Hd'. by apply Hds, list_elem_of_further.
    + by apply relax_seen.
    + apply relax_inv; [apply Hds, list_elem_of_here|done..].
    + split; [done|]. split.
      * intros c Hc. by apply Hmono, relax_seen.
      * intros d' [->|Hd']%elem_of_cons Hfree; [|by apply Hdisc].
        by apply Hmono, relax_discovers.
Qed.

(** One iteration that does not pop the goal keeps the invariant. *)
Lemma iteration_inv st prio current rest :
  search_inv None st →
  heappop (open_set st) = Some ((prio, current), rest) →
  current ≠ end_grid →
  search_inv None
    (relax_neighbors self g end_grid current
       {| open_set := rest;
          came_from := came_from st;
          g_score := g_score st;
          f_score := f_score st;
          open_set_hash := open_set_hash st ∖ {[current]} |}).
Proof.
  intros Hinv Hpop Hne.
  set (st1 := {| open_set := rest; came_from := came_from st;
                 g_score := g_score st; f_score := f_score st;
                 open_set_hash := open_set_hash st ∖ {[current]} |}).
  assert (rest = heap_remove current (open_set st)) as Hrest.
  { unfold heappop in Hpop. destruct (open_set st) as [|e heap]; [done|].
    injection Hpop as Hm <-. by rewrite Hm. }
  pose proof Hpop as (Hin & Hsub & _)%heappop_spec.
  assert (seen st1 current) as Hcur.
  { apply (inv_queue _ _ Hinv). by exists (prio, current). }
  assert (search_inv (Some current) st1) as Hinv1.
  { split; try apply Hinv.
    - intros c [Hc _]%elem_of_difference. by apply (inv_hash _ _ Hinv).
    - intros c (e & He & Hc). apply (inv_queue _ _ Hinv). exists e. auto.
    - intros c Hc. destruct (decide (c = current)) as [->|Hcc]; [auto|].
      destruct (inv_front _ _ Hinv c Hc) as [(e & He & Hec)|[?|?]]; [|auto|done].
      left. exists e. split; [|done]. simpl. rewrite Hrest.
      apply heap_remove_other; [done|]. by rewrite Hec.
    - intros He. destruct (inv_goal _ _ Hinv He) as (e & Hein & Hec).
      exists e. split; [|done]. simpl. rewrite Hrest.
      apply heap_remove_other; [done|]. by rewrite Hec. }
  destruct (relax_all_inv current neighbor_offsets st1) as (Hinv2 & _ & Hdisc);
    [done..|].
  unfold relax_neighbors. fold st1.
  set (st2 := fold_left _ _ _) in *. clearbody st2.
  split; try apply Hinv2.
  intros c Hc. destruct (inv_front _ _ Hinv2 c Hc) as [?|[?|[= <-]]]; auto.
  right. left. intros b (d & Hd & -> & Hfree). by apply Hdisc.
Qed.

(** ** Path reconstruction *)

(** Each cell of the list is followed by its predecessor. *)
Fixpoint linked (cf : gmap cell cell) (l : list cell) : Prop :=
  match l with
  | a :: (b :: _) as rest => cf !! a = Some b ∧ linked cf rest
  | _ => True
  end.

Lemma linked_snoc cf l a b :
  linked cf l → last l = Some a → cf !! a = Some b → linked cf (l ++ [b]).
Proof.
  induction l as [|x [|y l] IH]; intros Hl Hlast Hab; [done|..].
  - injection Hlast as ->. by split.
  - destruct Hl as [Hxy Hl]. split; [done|]. by apply IH.
Qed.

Lemma reconstruct_loop_spec fuel cf current total path :
  reconstruct_loop fuel cf current total = Some path →
  last total = Some current → linked cf total →
  head path = head total ∧ linked cf path ∧
  ∃ root, last path = Some root ∧ cf !! root = None.
Proof.
  revert current total.
  induction fuel as [|fuel IH]; intros current total; simpl.
  - destruct (cf !! current) eqn:Hc; [done|]. intros [= <-] Hlast Hl. eauto.
  - destruct (cf !! current) as [prev|] eqn:Hc; [|intros [= <-] Hlast Hl; eauto].
    intros Hrec Hlast Hl.
    apply IH in Hrec as (Hhead & Hl' & Hroot).
    + split; [|done]. rewrite Hhead. by destruct total.
    + by rewrite last_snoc.
    + by eapply linked_snoc.
Qed.

Lemma steps_ok_snoc l a b :
  steps_ok l = true → last l = Some a → adjacent a b = true →
  steps_ok (l ++ [b]) = true.
Proof.
  induction l as [|x [|y l] IH]; intros Hl Hlast Hab; [done|..].
  - injection Hlast as ->. simpl. by rewrite Hab.
  - change (steps_ok (x :: y :: l)) with (adjacent x y && steps_ok (y :: l)) in Hl.
    apply andb_true_iff in Hl as [Hxy Hl].
    change (adjacent x y && steps_ok ((y :: l) ++ [b]) = true).
    rewrite Hxy. by apply IH.
Qed.

Lemma linked_steps_ok cf l :
  (∀ c p, cf !! c = Some p → adjacent p c = true) →
  linked cf l → steps_ok (reverse l) = true.
Proof.
  intros Hcf. induction l as [|a [|b l] IH]; intros Hl; [done..|].
  destruct Hl as [Hab Hl]. rewrite reverse_cons.
  apply steps_ok_snoc with (a := b); [by apply IH| |by apply Hcf].
  by rewrite reverse_cons, last_snoc.
Qed.

(** ** The result of the loop *)

Lemma empty_queue_unreachable st :
  search_inv None st → open_set st = [] →
  ¬ rtc (grid_step self g) start_grid end_grid.
Proof.
  intros Hinv Hempty Hrtc.
  assert (∀ c, ¬ queued st c) as Hnq.
  { intros c (e & He & _). rewrite Hempty in He. by apply elem_of_nil in He. }
  assert (∀ a b, rtc (grid_step self g) a b → seen st a → seen st b) as Hclosed.
  { intros a b Hab. induction Hab as [|a b c Hstep _ IH]; [done|].
    intros Ha. apply IH.
    destruct (inv_front _ _ Hinv a Ha) as [?|[Hexp|?]]; [by apply Hnq in H| |done].
    by apply Hexp. }
  apply (Hnq end_grid), (inv_goal _ _ Hinv), (Hclosed start_grid); [done|].
  unfold seen. by rewrite (inv_start _ _ Hinv).
Qed.

Lemma goal_popped fuel st prio rest cells :
  search_inv None st →
  heappop (open_set st) = Some ((prio, end_grid), rest) →
  _reconstruct_path fuel (came_from st) end_grid = Some cells →
  grid_path self g start_grid end_grid cells = true.
Proof.
  intros Hinv (Hin & _)%heappop_spec. unfold _reconstruct_path.
  destruct (reconstruct_loop _ _ _ _) as [l|] eqn:Hl; [|done]. intros [= <-].
  assert (seen st end_grid) as Hend.
  { apply (inv_queue _ _ Hinv). by exists (prio, end_grid). }
  assert (Forall (seen st) l) as Hseen.
  { eapply (reconstruct_loop_elem (seen st)); [|by repeat constructor|done].
    intros c p Hp. by apply (inv_link _ _ Hinv) in Hp as [? _]. }
  apply reconstruct_loop_spec in Hl as (Hhead & Hlinked & root & Hlast & Hroot);
    [|done..].
  assert (root = start_grid) as ->.
  { assert (seen st root) as Hr.
    { eapply Forall_forall; [exact Hseen|]. by apply last_Some_elem_of. }
    destruct (inv_tree _ _ Hinv root Hr) as [?|[? Hsome]]; [done|].
    by rewrite Hroot in Hsome. }
  unfold grid_path. rewrite !andb_true_iff, !bool_decide_eq_true.
  split_and!.
  - by rewrite head_reverse.
  - by rewrite last_reverse.
  - apply forallb_forall. intros c Hc%list_elem_of_In.
    rewrite elem_of_reverse in Hc.
    eapply Forall_forall in Hseen; [|done].
    apply (inv_free _ _ Hinv) in Hseen as [-> ->]. done.
  - eapply linked_steps_ok; [|done].
    intros c p Hp. by apply (inv_link _ _ Hinv) in Hp as [_ ?].
Qed.

Lemma search_loop_result fuel st path :
  search_inv None st →
  search_loop fuel self g end_grid st = Some path →
  (path = [] ∧ ¬ rtc (grid_step self g) start_grid end_grid) ∨
  ∃ cells, path = map (to_world self) cells ∧
           grid_path self g start_grid end_grid cells = true.
Proof.
  revert st. induction fuel as [|fuel IH]; intros st Hinv; rewrite search_loop_eq.
  - destruct (heappop (open_set st)) as [[[prio current] rest]|] eqn:Hpop; [done|].
    intros [= <-]. left. split; [done|].
    by eapply empty_queue_unreachable, heappop_None.
  - destruct (heappop (open_set st)) as [[[prio current] rest]|] eqn:Hpop.
    + cbv zeta. case_decide as Hend.
      * subst current. cbn [came_from].
        destruct (_reconstruct_path _ _ _) as [cells|] eqn:Hrec; [|done].
        intros [= <-]. right. exists cells. split; [done|].
        by eapply goal_popped.
      * apply IH. by eapply iteration_inv.
    + intros [= <-]. left. split; [done|].
      by eapply empty_queue_unreachable, heappop_None.
Qed.
End search.

Lemma find_path_result fuel self start end_ obstacles path :
  let g := _create_obstacle_grid self obstacles in
  let start_grid := to_grid self start in
  let end_grid := to_grid self end_ in
  find_path fuel self start end_ obstacles = Some path →
  (path = [] ∧
   (_is_valid_position self start_grid = false ∨
    _is_valid_position self end_grid = false ∨
    blocked g start_grid = true ∨
    blocked g end_grid = true ∨
    ¬ connected self g start_grid end_grid)) ∨
  ∃ cells, path = map (to_world self) cells ∧
           grid_path self g start_grid end_grid cells = true.
Proof.
  intros g start_grid end_grid. unfold find_path. cbv zeta.
  fold start_grid end_grid g.
  destruct (_is_valid_position self start_grid) eqn:Hvs; cbn [negb orb];
    [|intros [= <-]; left; auto].
  destruct (_is_valid_position self end_grid) eqn:Hve; cbn [negb orb];
    [|intros [= <-]; left; auto].
  destruct (blocked g start_grid) eqn:Hbs; cbn [negb orb];
    [intros [= <-]; left; auto|].
  destruct (blocked g end_grid) eqn:Hbe; cbn [negb orb];
    [intros [= <-]; left; auto 6|].
  intros Hloop.
  apply (search_loop_result self g start_grid end_grid) in Hloop
    as [[-> Hrtc]|?]; [| |by apply initial_search_inv_all].
  - left. split; [done|]. do 4 right. by intros [_ ?].
  - by right.
Qed.

(** X2. An empty result means that there is no route: [find_path] returns
    the empty list only when the start cell or the goal cell is outside the
    grid, when one of them is marked in the obstacle grid, or when no
    sequence of free 8-connected cells joins the start cell to the goal
    cell. *)
Theorem find_path_empty_only fuel self start end_ obstacles :
  let g := _create_obstacle_grid self obstacles in
  let start_grid := to_grid self start in
  let end_grid := to_grid self end_ in
  find_path fuel self start end_ obstacles = Some [] →
  _is_valid_position self start_grid = false ∨
  _is_valid_position self end_grid = false ∨
  blocked g start_grid = true ∨
  blocked g end_grid = true ∨
  ¬ connected self g start_grid end_grid.
Proof.
  intros g start_grid end_grid Hpath.
  apply find_path_result in Hpath as [[_ ?]|(cells & Hmap & Hcells)]; [done|].
  destruct cells; [|done].
  unfold grid_path in Hcells.
  rewrite !andb_true_iff, !bool_decide_eq_true in Hcells.
  by destruct Hcells as [[[? _] _] _].
Qed.

Lemma find_path_empty_only_witness :
  find_path 10 corridor (10, 10)%Q (110, 10)%Q [roadblock] = Some [] ∧
  ¬ connected corridor (_create_obstacle_grid corridor [roadblock]) (0, 0) (5, 0).
Proof.
  assert (find_path 10 corridor (10, 10)%Q (110, 10)%Q [roadblock] = Some [])
    as Hrun by (vm_compute; reflexivity).
  split; [exact Hrun|].
  destruct (find_path_empty_only 10 corridor (10, 10)%Q (110, 10)%Q [roadblock] Hrun)
    as [H|[H|[H|[H|H]]]]; try (vm_compute in H; discriminate H).
  exact H.
Defined.

(** X3. A result that is not empty is a route on the grid: its waypoints are
    the centres of a list of cells that begins with the start cell, ends
    with the goal cell, moves from each cell to one of its eight neighbours,
    and holds only cells inside the grid that are not marked. *)
Theorem find_path_route fuel self start end_ obstacles path :
  find_path fuel self start end_ obstacles = Some path → path ≠ [] →
  ∃ cells,
    path = map (to_world self) cells ∧
    head cells = Some (to_grid self start) ∧
    last cells = Some (to_grid self end_) ∧
    steps_ok cells = true ∧
    Forall (λ c, _is_valid_position self c = true ∧
                 grid_get (_create_obstacle_grid self obstacles) c = Some false)
      cells.
Proof.
  intros Hpath Hne.
  apply find_path_result in Hpath as [[? _]|(cells & Hmap & Hcells)]; [done|].
  exists cells. split; [done|].
  unfold grid_path in Hcells.
  rewrite !andb_true_iff, !bool_decide_eq_true, forallb_forall in Hcells.
  destruct Hcells as [[[Hhead Hlast] Hfree] Hsteps].
  split_and!; try done.
  apply Forall_forall. intros c Hc%list_elem_of_In%Hfree.
  apply andb_true_iff in Hc as [Hv Hb%negb_true_iff]. split; [done|].
  unfold blocked in Hb. by destruct (grid_get _ c) as [[]|].
Qed.

Lemma find_path_route_witness :
  ∃ cells,
    map (to_world small_world) cells
    = [(110, 10); (90, 10); (70, 30); (50, 50); (50, 70); (30, 90); (10, 90)] ∧
    head cells = Some (5, 0) ∧ last cells = Some (0, 4) ∧
    steps_ok cells = true.
Proof.
  assert (find_path 20 small_world (110, 10)%Q (10, 90)%Q [parked_car]
          = Some [(110, 10); (90, 10); (70, 30); (50, 50); (50, 70); (30, 90); (10, 90)])
    as Hrun by (vm_compute; reflexivity).
  destruct (find_path_route 20 small_world (110, 10)%Q (10, 90)%Q [parked_car] _ Hrun)
    as (cells & Hmap & Hhead & Hlast & Hsteps & _); [done|].
  exists cells. split; [by rewrite <-Hmap|]. split; [exact Hhead|].
  split; [exact Hlast|exact Hsteps].
Defined.

(** ** Start and goal in one cell *)

(** X4. When the start point and the goal point lie in the same cell, and
    that cell is inside the grid and not marked, the result is the centre of
    that cell alone; one unit of fuel is enough. *)
Theorem find_path_same_cell fuel self start end_ obstacles :
  let c := to_grid self start in
  to_grid self end_ = c →
  _is_valid_position self c = true →
  blocked (_create_obstacle_grid self obstacles) c = false →
  find_path (S fuel) self start end_ obstacles = Some [to_world self c].
Proof.
  intros c Hend Hvalid Hfree. unfold find_path. cbv zeta.
  fold c. rewrite Hend, Hvalid, Hfree. cbn [negb orb].
  rewrite search_loop_eq. unfold initial_search, heappush.
  cbn [open_set heappop heap_min heap_remove snd]. rewrite decide_True by done.
  cbv zeta. rewrite decide_True by done. cbn [came_from].
  unfold _reconstruct_path.
  assert (reconstruct_loop fuel ∅ c [c] = Some [c]) as ->
    by (destruct fuel; simpl; by rewrite lookup_empty).
  done.
Qed.

Lemma find_path_same_cell_witness :
  find_path 1 small_world (110, 10)%Q (105, 15)%Q [parked_car] = Some [(110, 10)].
Proof.
  apply (find_path_same_cell 0 small_world (110, 10)%Q (105, 15)%Q [parked_car]);
    vm_compute; reflexivity.
Defined.

(** ** Cells and their centres *)

(** X5. The centre of a cell lies in that cell: mapping a cell with
    non-negative coordinates to its world point and back gives the cell. *)
Theorem to_grid_to_world self c :
  0 < grid_size self → 0 <= fst c → 0 <= snd c →
  to_grid self (Num.point_of_Z (to_world self c)) = c.
Proof.
  intros Hgs Hx Hy. destruct c as [x y]. simpl in Hx, Hy.
  assert (∀ n, 0 <= n →
            Num.trunc (Num.of_Z (n * grid_size self + grid_size self / 2)
                       / Num.of_Z (grid_size self)) = n) as Htrunc.
  { intros n Hn. unfold Num.trunc, Num.of_Z.
    assert (0 <= grid_size self / 2 < grid_size self) as Hhalf
      by (split; [apply Z.div_pos; lia|apply Z.div_lt_upper_bound; lia]).
    rewrite <-Zdiv_Qdiv.
    assert ((n * grid_size self + grid_size self / 2) / grid_size self = n) as Hdiv.
    { rewrite Z.div_add_l by lia. rewrite (Z.div_small (grid_size self / 2)) by lia.
      lia. }
    rewrite Hdiv.
    assert (Num.ltb (inject_Z (n * grid_size self + grid_size self / 2)
                     / inject_Z (grid_size self)) 0 = false) as ->; [|done].
    apply VehicleSpec.ltb_ge.
    apply Qle_shift_div_l; [by rewrite <-(Zlt_Qlt 0)|].
    rewrite Qmult_0_l. rewrite <-(Zle_Qle 0). nia. }
  unfold to_grid, to_world, Num.point_of_Z. simpl. by rewrite !Htrunc.
Qed.

Lemma to_grid_to_world_witness :
  to_grid small_world (Num.point_of_Z (to_world small_world (3, 2))) = (3, 2).
Proof. apply (to_grid_to_world small_world (3, 2)); simpl; lia. Defined.

End PathFinderProps.

(** * Further properties of the geometry of vehicle.py and utils.py *)
Module GeometryProps.
Import Num Vehicle VehicleSpec.
Local Open Scope Q_scope.

(** ** Comparisons *)
Lemma leb_le a b : leb a b = true ↔ a <= b.
Proof. apply Qle_bool_iff. Qed.

Lemma leb_gt a b : leb a b = false ↔ b < a.
Proof.
  unfold leb. rewrite <-not_true_iff_false, Qle_bool_iff.
  split; [apply Qnot_le_lt|apply Qlt_not_le].
Qed.

Lemma eqb_eq a b : Num.eqb a b = true ↔ a == b.
Proof. apply Qeq_bool_iff. Qed.

Lemma eqb_neq a b : Num.eqb a b = false ↔ ¬ a == b.
Proof. unfold Num.eqb. by rewrite <-not_true_iff_false, Qeq_bool_iff. Qed.

(** ** Crossing segments *)

(** The orientation determinant behind [ccw]: [ccw a b c] holds exactly when
    it is positive. *)
Definition orient (a b c : point) : Q :=
  (snd c - snd a) * (fst b - fst a) - (snd b - snd a) * (fst c - fst a).

Lemma ccw_ltb a b c : ccw a b c = ltb 0 (orient a b c).
Proof. unfold ccw, orient. apply ltb_shift. ring. Qed.

Lemma ccw_orient a b c : ccw a b c = true ↔ 0 < orient a b c.
Proof. unfold ccw, orient. rewrite ltb_lt. split; intros; lra. Qed.

Lemma ccw_orient_false a b c : ccw a b c = false ↔ orient a b c <= 0.
Proof. unfold ccw, orient. rewrite ltb_ge. split; intros; lra. Qed.

(** A number [s] in [0, 1] with [s * (n - m) == n], for [n] and [m] of which
    exactly one is positive. *)
Lemma split_ratio n m :
  xorb (ltb 0 n) (ltb 0 m) = true →
  ∃ s, 0 <= s <= 1 ∧ s * (n - m) == n.
Proof.
  intros Hx. exists (n / (n - m)).
  destruct (ltb 0 n) eqn:Hn, (ltb 0 m) eqn:Hm; try done.
  - apply ltb_lt in Hn. apply ltb_ge in Hm.
    assert (0 < n - m) as Hd by lra.
    split; [split|field; intros ?; lra].
    + apply Qle_shift_div_l; [done|]. lra.
    + apply Qle_shift_div_r; [done|]. lra.
  - apply ltb_ge in Hn. apply ltb_lt in Hm.
    assert (0 < m - n) as Hd by lra.
    assert (n / (n - m) == (- n) / (m - n)) as -> by (field; split; intros ?; lra).
    split; [split|field; intros ?; lra].
    + apply Qle_shift_div_l; [done|]. lra.
    + apply Qle_shift_div_r; [done|]. lra.
Qed.

Lemma crossing_point (p1 p2 p3 p4 : point) :
  xorb (ltb 0 (orient p1 p3 p4)) (ltb 0 (orient p2 p3 p4)) = true →
  xorb (ltb 0 (orient p1 p2 p3)) (ltb 0 (orient p1 p2 p4)) = true →
  ∃ s t, 0 <= s <= 1 ∧ 0 <= t <= 1 ∧
    fst p1 + s * (fst p2 - fst p1) == fst p3 + t * (fst p4 - fst p3) ∧
    snd p1 + s * (snd p2 - snd p1) == snd p3 + t * (snd p4 - snd p3).
Proof.
  intros H12 H34.
  destruct (split_ratio _ _ H12) as (s & Hs & Hsd).
  destruct (split_ratio _ _ H34) as (t & Ht & Htd).
  exists s, t. split; [done|]. split; [done|].
  destruct p1 as [x1 y1], p2 as [x2 y2], p3 as [x3 y3], p4 as [x4 y4].
  unfold orient in *. simpl in *.
  set (D := (x2 - x1) * (y4 - y3) - (y2 - y1) * (x4 - x3)).
  assert (¬ D == 0) as HD.
  { intros HD0.
    assert (s * D == 0) as HsD by (rewrite HD0; ring).
    unfold D in HD0, HsD.
    assert (ltb 0 ((y4 - y1) * (x3 - x1) - (y3 - y1) * (x4 - x1)) = false) as Ha
      by (apply ltb_ge; lra).
    assert (ltb 0 ((y4 - y2) * (x3 - x2) - (y3 - y2) * (x4 - x2)) = false) as Hb
      by (apply ltb_ge; lra).
    by rewrite Ha, Hb in H12. }
  assert (∀ k, k * (s * ((y4 - y1) * (x3 - x1) - (y3 - y1) * (x4 - x1)
                         - ((y4 - y2) * (x3 - x2) - (y3 - y2) * (x4 - x2))))
               == k * ((y4 - y1) * (x3 - x1) - (y3 - y1) * (x4 - x1))) as Hks
    by (intros k; by rewrite Hsd).
  assert (∀ k, k * (t * ((y3 - y1) * (x2 - x1) - (y2 - y1) * (x3 - x1)
                         - ((y4 - y1) * (x2 - x1) - (y2 - y1) * (x4 - x1))))
               == k * ((y3 - y1) * (x2 - x1) - (y2 - y1) * (x3 - x1))) as Hkt
    by (intros k; by rewrite Htd).
  assert (D * (x1 + s * (x2 - x1) - (x3 + t * (x4 - x3))) == 0) as Hx.
  { unfold D. pose proof (Hks (x2 - x1)). pose proof (Hkt (x4 - x3)). lra. }
  assert (D * (y1 + s * (y2 - y1) - (y3 + t * (y4 - y3))) == 0) as Hy.
  { unfold D. pose proof (Hks (y2 - y1)). pose proof (Hkt (y4 - y3)). lra. }
  apply Qmult_integral in Hx as [?|Hx]; [done|].
  apply Qmult_integral in Hy as [?|Hy]; [done|].
  split; lra.
Qed.

(** X6. A reported crossing is a real one: when [_do_lines_intersect]
    returns True for the segments [p1 p2] and [p3 p4], some point lies on
    both segments. *)
Theorem do_lines_intersect_sound (p1 p2 p3 p4 : point) :
  _do_lines_intersect p1 p2 p3 p4 = true →
  ∃ s t, 0 <= s <= 1 ∧ 0 <= t <= 1 ∧
    fst p1 + s * (fst p2 - fst p1) == fst p3 + t * (fst p4 - fst p3) ∧
    snd p1 + s * (snd p2 - snd p1) == snd p3 + t * (snd p4 - snd p3).
Proof.
  unfold _do_lines_intersect. rewrite !ccw_ltb.
  intros [H12 H34]%andb_true_iff. by apply crossing_point.
Qed.

Lemma do_lines_intersect_sound_witness :
  ∃ s t, 0 <= s <= 1 ∧ 0 <= t <= 1 ∧
    0 + s * (2 - 0) == 0 + t * (2 - 0) ∧ 0 + s * (2 - 0) == 2 + t * (0 - 2).
Proof.
  apply (do_lines_intersect_sound (0, 0) (2, 2) (0, 2) (2, 0)). reflexivity.
Defined.

(** X7. A proper crossing is reported: when a point lies strictly between
    the ends of both segments and the segments are not parallel,
    [_do_lines_intersect] returns True. *)
Theorem do_lines_intersect_complete (p1 p2 p3 p4 : point) (s t : Q) :
  0 < s < 1 → 0 < t < 1 →
  fst p1 + s * (fst p2 - fst p1) == fst p3 + t * (fst p4 - fst p3) →
  snd p1 + s * (snd p2 - snd p1) == snd p3 + t * (snd p4 - snd p3) →
  ¬ (fst p2 - fst p1) * (snd p4 - snd p3)
    == (snd p2 - snd p1) * (fst p4 - fst p3) →
  _do_lines_intersect p1 p2 p3 p4 = true.
Proof.
  destruct p1 as [x1 y1], p2 as [x2 y2], p3 as [x3 y3], p4 as [x4 y4]. simpl.
  intros Hs Ht Hx Hy Hpar.
  set (D := (x2 - x1) * (y4 - y3) - (y2 - y1) * (x4 - x3)).
  assert (¬ D == 0) as HD by (unfold D; lra).
  assert (∀ k, k * (x1 + s * (x2 - x1)) == k * (x3 + t * (x4 - x3))) as Hkx
    by (intros k; by rewrite Hx).
  assert (∀ k, k * (y1 + s * (y2 - y1)) == k * (y3 + t * (y4 - y3))) as Hky
    by (intros k; by rewrite Hy).
  assert (orient (x1, y1) (x3, y3) (x4, y4) == s * D) as H1.
  { unfold orient, D. simpl.
    pose proof (Hkx (y4 - y3)). pose proof (Hky (x4 - x3)). lra. }
  assert (orient (x2, y2) (x3, y3) (x4, y4) == (s - 1) * D) as H2.
  { unfold orient, D. simpl.
    pose proof (Hkx (y4 - y3)). pose proof (Hky (x4 - x3)). lra. }
  assert (orient (x1, y1) (x2, y2) (x3, y3) == - t * D) as H3.
  { unfold orient, D. simpl.
    pose proof (Hkx (y2 - y1)). pose proof (Hky (x2 - x1)). lra. }
  assert (orient (x1, y1) (x2, y2) (x4, y4) == (1 - t) * D) as H4.
  { unfold orient, D. simpl.
    pose proof (Hkx (y2 - y1)). pose proof (Hky (x2 - x1)). lra. }
  unfold _do_lines_intersect. rewrite !ccw_ltb.
  assert (0 < D ∨ D < 0) as [Hpos|Hneg].
  { destruct (Qlt_le_dec 0 D); [by left|right].
    apply Qle_lt_or_eq in q as [?|?]; [done|]. by destruct HD. }
  - assert (ltb 0 (orient (x1, y1) (x3, y3) (x4, y4)) = true) as ->
      by (apply ltb_lt; rewrite H1; nra).
    assert (ltb 0 (orient (x2, y2) (x3, y3) (x4, y4)) = false) as ->
      by (apply ltb_ge; rewrite H2; nra).
    assert (ltb 0 (orient (x1, y1) (x2, y2) (x3, y3)) = false) as ->
      by (apply ltb_ge; rewrite H3; nra).
    assert (ltb 0 (orient (x1, y1) (x2, y2) (x4, y4)) = true) as ->
      by (apply ltb_lt; rewrite H4; nra).
    done.
  - assert (ltb 0 (orient (x1, y1) (x3, y3) (x4, y4)) = false) as ->
      by (apply ltb_ge; rewrite H1; nra).
    assert (ltb 0 (orient (x2, y2) (x3, y3) (x4, y4)) = true) as ->
      by (apply ltb_lt; rewrite H2; nra).
    assert (ltb 0 (orient (x1, y1) (x2, y2) (x3, y3)) = true) as ->
      by (apply ltb_lt; rewrite H3; nra).
    assert (ltb 0 (orient (x1, y1) (x2, y2) (x4, y4)) = false) as ->
      by (apply ltb_ge; rewrite H4; nra).
    done.
Qed.

Lemma do_lines_intersect_complete_witness :
  _do_lines_intersect (0, 0) (2, 2) (0, 2) (2, 0) = true.
Proof.
  apply (do_lines_intersect_complete (0, 0) (2, 2) (0, 2) (2, 0) (1 # 2) (1 # 2));
    simpl; lra.
Defined.

(** ** Containment in an axis-aligned rectangle *)

(** Case analysis on the next comparison of the goal; branches whose
    assumptions contradict each other are closed at once. *)
Ltac no_cmp a :=
  lazymatch a with
  | context [ltb _ _] => fail
  | context [Num.eqb _ _] => fail
  | _ => idtac
  end.

Ltac case_cmp :=
  match goal with
  | |- context [Num.eqb ?a ?b] =>
      no_cmp a; no_cmp b;
      let H := fresh "Hcmp" in
      destruct (Num.eqb a b) eqn:H;
      [apply eqb_eq in H|apply eqb_neq in H]
  | |- context [ltb ?a ?b] =>
      no_cmp a; no_cmp b;
      let H := fresh "Hcmp" in
      destruct (ltb a b) eqn:H; [apply ltb_lt in H|apply ltb_ge in H]
  | |- context [leb ?a ?b] =>
      no_cmp a; no_cmp b;
      let H := fresh "Hcmp" in
      destruct (leb a b) eqn:H; [apply leb_le in H|apply leb_gt in H]
  end;
  try (exfalso; lra);
  cbv beta iota zeta delta [andb orb negb fst snd].

Lemma pip_box (l r t b x y : Q) :
  l <= r → t <= b →
  _is_point_in_polygon (x, y) [(l, t); (r, t); (r, b); (l, b)] = true ↔
  l < x <= r ∧ t < y <= b.
Proof.
  intros Hlr Htb.
  cbv beta iota zeta delta
    [_is_point_in_polygon pip_step corner default from_option id lookup
     list_lookup List.length seq fold_left Nat.modulo Nat.divmod Nat.add
     Nat.sub fst snd min max].
  repeat case_cmp.
  all: split; [intros ?|intros [??]]; (done || lra).
Qed.

Lemma of_Z_le (a b : Z) : (a <= b)%Z → of_Z a <= of_Z b.
Proof. unfold of_Z. by rewrite <-Zle_Qle. Qed.

Lemma rect_ordered (r : Rect.t) :
  (0 <= Rect.w r)%Z → (0 <= Rect.h r)%Z →
  of_Z (Rect.left r) <= of_Z (Rect.right r) ∧
  of_Z (Rect.top r) <= of_Z (Rect.bottom r).
Proof.
  intros Hw Hh.
  split; apply of_Z_le; unfold Rect.left, Rect.right, Rect.top, Rect.bottom; lia.
Qed.

(** X8. On the corners of a [pygame.Rect] of non-negative size, the
    ray-casting test holds exactly for the points with
    [left < x <= right] and [top < y <= bottom]: the points of the left and
    of the top edge are outside, those of the right and of the bottom edge
    inside. *)
Theorem is_point_in_polygon_rect (pt : point) (r : Rect.t) :
  (0 <= Rect.w r)%Z → (0 <= Rect.h r)%Z →
  _is_point_in_polygon pt (rect_corners r) = true ↔
  of_Z (Rect.left r) < fst pt <= of_Z (Rect.right r) ∧
  of_Z (Rect.top r) < snd pt <= of_Z (Rect.bottom r).
Proof.
  intros Hw Hh. destruct (rect_ordered r Hw Hh) as [Hx Hy].
  destruct pt as [x y]. unfold rect_corners. by apply pip_box.
Qed.

Lemma is_point_in_polygon_rect_witness :
  _is_point_in_polygon (160, 430) (rect_corners blocking_car) = true ∧
  _is_point_in_polygon (120, 400) (rect_corners blocking_car) = false.
Proof.
  pose proof (is_point_in_polygon_rect (160, 430) blocking_car) as Hin.
  pose proof (is_point_in_polygon_rect (120, 400) blocking_car) as Hout.
  split.
  - apply Hin; [simpl; lia..|]. vm_compute. repeat split; discriminate.
  - apply not_true_is_false. intros H.
    apply Hout in H as [[H _] _]; [|simpl; lia..]. vm_compute in H. discriminate H.
Defined.

(** X9. A vehicle corner inside an obstacle is a collision: when the first
    corner of the footprint has [left < x <= right] and
    [top < y <= bottom] for an obstacle of non-negative size,
    [_check_rectangle_collision] returns True. *)
Theorem check_rectangle_collision_inside (vehicle_corners : list point)
    (obstacle_rect : Rect.t) (c : point) :
  (0 <= Rect.w obstacle_rect)%Z → (0 <= Rect.h obstacle_rect)%Z →
  vehicle_corners !! 0%nat = Some c →
  of_Z (Rect.left obstacle_rect) < fst c <= of_Z (Rect.right obstacle_rect) →
  of_Z (Rect.top obstacle_rect) < snd c <= of_Z (Rect.bottom obstacle_rect) →
  _check_rectangle_collision vehicle_corners obstacle_rect = true.
Proof.
  intros Hw Hh Hc Hx Hy. destruct (rect_ordered _ Hw Hh) as [Hlr Htb].
  unfold _check_rectangle_collision, collides.
  assert (_is_point_in_polygon (corner vehicle_corners 0)
            (rect_corners obstacle_rect) = true) as ->.
  { destruct vehicle_corners as [|c' rest]; [done|]. injection Hc as ->.
    unfold corner. simpl. destruct c as [x y].
    unfold rect_corners. by apply pip_box. }
  by rewrite orb_true_r.
Qed.

Lemma check_rectangle_collision_inside_witness :
  _check_rectangle_collision [(130, 400); (131, 400); (131, 401); (130, 401)]
    blocking_car = true.
Proof.
  apply (check_rectangle_collision_inside _ blocking_car (130, 400));
    [simpl; lia..|reflexivity| |]; vm_compute; split; (reflexivity || discriminate).
Defined.

(** ** utils.py *)

(** X10. [line_intersects_rect] reports only real contacts: when it returns
    True for a rectangle of non-negative size, some point of the segment
    lies in the closed rectangle. *)
Theorem line_intersects_rect_sound (line_start line_end : point) (rect : Rect.t) :
  (0 <= Rect.w rect)%Z → (0 <= Rect.h rect)%Z →
  Utils.line_intersects_rect line_start line_end rect = true →
  ∃ s, 0 <= s <= 1 ∧
    of_Z (Rect.left rect)
      <= fst line_start + s * (fst line_end - fst line_start)
      <= of_Z (Rect.right rect) ∧
    of_Z (Rect.top rect)
      <= snd line_start + s * (snd line_end - snd line_start)
      <= of_Z (Rect.bottom rect).
Proof.
  intros Hw Hh. destruct (rect_ordered rect Hw Hh) as [Hlr Htb].
  unfold Utils.line_intersects_rect.
  destruct (Utils.point_in_rect line_start rect) eqn:Hstart.
  { intros _. exists 0. unfold Utils.point_in_rect in Hstart.
    rewrite !andb_true_iff, !leb_le in Hstart. lra. }
  destruct (Utils.point_in_rect line_end rect) eqn:Hend.
  { intros _. exists 1. unfold Utils.point_in_rect in Hend.
    rewrite !andb_true_iff, !leb_le in Hend. lra. }
  cbn [orb]. unfold Utils.rect_edges. cbv zeta.
  set (l := of_Z (Rect.left rect)) in *. set (r := of_Z (Rect.right rect)) in *.
  set (t := of_Z (Rect.top rect)) in *. set (b := of_Z (Rect.bottom rect)) in *.
  clearbody l r t b.
  assert (∀ e1 e2 : point,
            l <= fst e1 <= r → l <= fst e2 <= r →
            t <= snd e1 <= b → t <= snd e2 <= b →
            Utils.lines_intersect line_start line_end e1 e2 = true →
            ∃ s, 0 <= s <= 1 ∧
              l <= fst line_start + s * (fst line_end - fst line_start) <= r ∧
              t <= snd line_start + s * (snd line_end - snd line_start) <= b)
    as Hedge.
  { intros e1 e2 Hx1 Hx2 Hy1 Hy2. unfold Utils.lines_intersect.
    change Utils.ccw with ccw. rewrite !ccw_ltb.
    intros [H12 H34]%andb_true_iff.
    destruct (crossing_point _ _ _ _ H12 H34) as (s & u & Hs & Hu & Hx & Hy).
    exists s. split; [done|]. rewrite Hx, Hy. nra. }
  cbn [existsb]. rewrite !orb_true_iff.
  intros [H|[H|[H|[H|H]]]]; [..|done]; (eapply Hedge; [..|exact H]); simpl; lra.
Qed.

Lemma line_intersects_rect_sound_witness :
  ∃ s, 0 <= s <= 1 ∧
    of_Z 120 <= 100 + s * (200 - 100) <= of_Z 160 ∧
    of_Z 390 <= 400 + s * (400 - 400) <= of_Z 430.
Proof.
  apply (line_intersects_rect_sound (100, 400) (200, 400) blocking_car);
    [simpl; lia..|]. vm_compute. reflexivity.
Defined.

Section with_math.
Context (math : MathLib).

(** ** Rotation *)


End with_math.



End GeometryProps.

(** * Further properties of the vehicle state machine *)
Module VehicleProps.
Import Num Vehicle VehicleSpec.
Local Open Scope Q_scope.

Lemma min_spec a b : (a <= b ∧ min a b = a) ∨ (b < a ∧ min a b = b).
Proof.
  unfold min. destruct (ltb b a) eqn:H.
  - right. by apply ltb_lt in H.
  - left. by apply ltb_ge in H.
Qed.

Lemma max_spec a b : (a < b ∧ max a b = b) ∨ (b <= a ∧ max a b = a).
Proof.
  unfold max. destruct (ltb a b) eqn:H.
  - left. by apply ltb_lt in H.
  - right. by apply ltb_ge in H.
Qed.

Lemma half_range a : 0 <= a → 0 <= a / 2 <= a.
Proof.
  intros Ha. split; [apply Qle_shift_div_l|apply Qle_shift_div_r]; lra.
Qed.

(** The attributes that no tick assigns. *)
Definition fixed_part (self : t)
    : Q * Q * Q * Q * Q * Q * Q * Q * Q * color * list point * list color
      * option color * Z :=
  (start_x self, start_y self, start_angle self, max_velocity self,
   acceleration self, deceleration self, turning_speed self, width self,
   length self, color_ self, path self, path_colors self, path_color self,
   parking_phase self).

(** The states that one tick can lead to. *)
Definition next_states (s : state) : list state :=
  match s with
  | Idle => [Idle]
  | Moving => [Moving; Rotating; Idle]
  | Rotating => [Rotating; Idle]
  | Parking => [Parking; Returning; Idle]
  | Returning => [Returning; Idle]
  end.

Definition speed_ok (self : t) : Prop := 0 <= velocity self <= max_velocity self.

Ltac state_in := try apply list_elem_of_In; simpl; auto 6.

Section with_math.
Context (math : MathLib).

(** ** What [pursue] does to the attributes other than the pose *)
Lemma pursue_spec self dx dy top gain :
  let self' := pursue math self dx dy top gain in
  fixed_part self' = fixed_part self ∧
  state_ self' = state_ self ∧
  (0 <= gain → 0 <= top <= max_velocity self → speed_ok self → speed_ok self').
Proof.
  unfold pursue. cbv zeta. destruct (ltb 2 _).
  - split; [reflexivity|]. split; [reflexivity|].
    unfold speed_ok. cbn [velocity max_velocity set_pose set_velocity turn set_angle].
    intros Hgain Htop Hv.
    destruct (max_spec 0 (velocity self - 0.05)) as [[? ->]|[? ->]]; lra.
  - split; [reflexivity|]. split; [reflexivity|].
    unfold speed_ok. cbn [velocity max_velocity set_pose set_velocity].
    intros Hgain Htop Hv.
    destruct (min_spec top (velocity self + gain)) as [[? ->]|[? ->]]; lra.
Qed.

(** Replaces the vehicle that [pursue] returns by a variable [v] with the
    facts [H] of [pursue_spec]. *)
Ltac pursued v H :=
  match goal with
  | |- context [pursue math ?self ?dx ?dy ?top ?gain] =>
      pose proof (pursue_spec self dx dy top gain) as H; cbv zeta in H;
      revert H; generalize (pursue math self dx dy top gain); intros v H
  end.

(** ** What a tick leaves alone *)

(** X13. A tick assigns the position, the heading, the velocity, the
    targets, the path cursor and the state only: the start pose, the speed
    limits, the dimensions, the colours, the list of waypoints and the
    parking phase are the same after every tick, in every state. *)
Theorem update_fixed_part (self : t) (obstacles : list Rect.t) :
  fixed_part (update math self obstacles) = fixed_part self.
Proof.
  unfold update. destruct (state_ self); [reflexivity|..].
  - unfold _update_moving.
    destruct (target_x self) as [tx|], (target_y self) as [ty|];
      try reflexivity.
    cbv zeta. pursued v Hv. destruct Hv as [Hf _].
    destruct (ltb _ 5); [|exact Hf]. destruct (target_angle _); exact Hf.
  - unfold _update_rotating. destruct (target_angle self); [|reflexivity].
    cbv zeta. destruct (ltb 1 _); reflexivity.
  - unfold _update_parking. destruct (is_colliding _ _ _); [reflexivity|].
    destruct (path self !! current_path_index self) as [target|]; [|reflexivity].
    cbv zeta. pursued v Hv. destruct Hv as [Hf _].
    destruct (ltb _ 5); [|exact Hf]. destruct (_ <=? _)%nat; exact Hf.
  - unfold _update_returning. cbv zeta.
    destruct (ltb _ 10); [|apply pursue_spec].
    destruct (ltb _ 2); reflexivity.
Qed.

(** ** Transitions *)

(** X14. The transitions of a tick: idle stays idle; moving stays moving or
    becomes rotating or idle; rotating stays rotating or becomes idle;
    parking stays parking or becomes returning or idle; returning stays
    returning or becomes idle.  No tick enters the states moving or
    parking from another state. *)
Theorem update_transitions (self : t) (obstacles : list Rect.t) :
  state_ (update math self obstacles) ∈ next_states (state_ self).
Proof.
  unfold update. destruct (state_ self) eqn:Hstate.
  - rewrite Hstate. state_in.
  - unfold _update_moving.
    destruct (target_x self) as [tx|], (target_y self) as [ty|]; try state_in.
    cbv zeta. pursued v Hv. destruct Hv as (_ & Hs & _).
    destruct (ltb _ 5); [|rewrite Hs, Hstate; state_in].
    destruct (target_angle _); state_in.
  - unfold _update_rotating. destruct (target_angle self); [|state_in].
    cbv zeta. destruct (ltb 1 _); [|state_in].
    change (state_ (turn self ?d)) with (state_ self). rewrite Hstate. state_in.
  - unfold _update_parking. destruct (is_colliding _ _ _); [state_in|].
    destruct (path self !! current_path_index self) as [target|]; [|state_in].
    cbv zeta. pursued v Hv. destruct Hv as (_ & Hs & _).
    destruct (ltb _ 5); [|rewrite Hs, Hstate; state_in].
    destruct (_ <=? _)%nat; [state_in|].
    change (state_ (set_route v ?p ?i ?c)) with (state_ v).
    rewrite Hs, Hstate. state_in.
  - unfold _update_returning. cbv zeta.
    destruct (ltb _ 10).
    + destruct (ltb _ 2); [state_in|].
      change (state_ (turn ?v ?d)) with (state_ self). rewrite Hstate. state_in.
    + pursued v Hv. destruct Hv as (_ & Hs & _). rewrite Hs, Hstate. state_in.
Qed.

(** ** The velocity *)

(** X15. The velocity stays in its range: when the acceleration is not
    negative and the velocity is between 0 and [max_velocity], it is so
    again after a tick, in every state. *)
Theorem update_speed_ok (self : t) (obstacles : list Rect.t) :
  0 <= acceleration self → speed_ok self →
  speed_ok (update math self obstacles).
Proof.
  intros Hacc Hv.
  assert (0 <= max_velocity self) as Hmax by (unfold speed_ok in Hv; lra).
  assert (∀ v : t, fixed_part v = fixed_part self →
                   speed_ok (set_velocity v 0)) as Hzero.
  { intros v Hf.
    assert (max_velocity v = max_velocity self) as Hm
      by (unfold fixed_part in Hf; congruence).
    unfold speed_ok. simpl. rewrite Hm. lra. }
  unfold update. destruct (state_ self); [done|..].
  - unfold _update_moving.
    destruct (target_x self) as [tx|], (target_y self) as [ty|]; try exact Hv.
    cbv zeta. pursued v Hp. destruct Hp as (Hf & _ & Hok).
    specialize (Hok Hacc (conj Hmax (Qle_refl _)) Hv).
    destruct (ltb _ 5); [|exact Hok].
    destruct (target_angle _); by apply Hzero.
  - unfold _update_rotating. destruct (target_angle self); [|exact Hv].
    cbv zeta. destruct (ltb 1 _); exact Hv.
  - unfold _update_parking. destruct (is_colliding _ _ _); [exact Hv|].
    destruct (path self !! current_path_index self) as [target|];
      [|by apply Hzero].
    cbv zeta. pursued v Hp. destruct Hp as (Hf & _ & Hok).
    assert (speed_ok v) as Hok' by (apply Hok; [by apply half_range|by apply half_range|done]).
    destruct (ltb _ 5); [|exact Hok'].
    destruct (_ <=? _)%nat; [by apply Hzero|exact Hok'].
  - unfold _update_returning. cbv zeta.
    destruct (ltb _ 10).
    + destruct (ltb _ 2); [by apply Hzero|exact Hv].
    + apply pursue_spec; [done|split; lra|done].
Qed.

(** ** Rotation in place *)

Lemma Qfloor_unique (n : Z) (q : Q) :
  inject_Z n <= q < inject_Z (n + 1) → Qfloor q = n.
Proof.
  intros [Hlo Hhi].
  pose proof (Qfloor_le q) as Hf. pose proof (Qlt_floor q) as Hc.
  assert (Qfloor q < n + 1)%Z by (rewrite Zlt_Qlt; lra).
  assert (n < Qfloor q + 1)%Z by (rewrite Zlt_Qlt; lra).
  lia.
Qed.

Lemma pymod_unique a r k :
  r == a - 360 * inject_Z k → 0 <= r < 360 → pymod a 360 == r.
Proof.
  intros Hr Hrange. unfold pymod.
  assert (Qfloor (a / 360) = k) as ->; [|lra].
  apply Qfloor_unique. rewrite inject_Z_plus. change (inject_Z 1) with 1. split.
  - apply Qle_shift_div_l; lra.
  - apply Qlt_shift_div_r; lra.
Qed.

Lemma pymod_spec a : ∃ k, pymod a 360 == a - 360 * inject_Z k.
Proof. by exists (Qfloor (a / 360)). Qed.

Lemma angle_diff_range self ta : -180 < angle_diff_to self ta <= 180.
Proof.
  unfold angle_diff_to. cbv zeta.
  pose proof (pymod_range (ta - angle self)) as Hm.
  destruct (ltb 180 _) eqn:E; [apply ltb_lt in E|apply ltb_ge in E]; lra.
Qed.

(** A turn toward the target heading shortens the heading error by the
    turned angle. *)
Lemma turn_error self ta :
  let d := angle_diff_to self ta in
  0 < turning_speed self → ¬ d == 0 →
  (turning_speed self <= Qabs d →
   Qabs (angle_diff_to (turn self d) ta) == Qabs d - turning_speed self) ∧
  (Qabs d < turning_speed self → angle_diff_to (turn self d) ta == 0).
Proof.
  cbv zeta. intros Hts Hd.
  pose proof (angle_diff_range self ta) as Hrange.
  unfold angle_diff_to in Hrange, Hd |- *. cbv zeta in Hrange, Hd |- *.
  destruct (pymod_spec (ta - angle self)) as [k0 Hk0].
  pose proof (pymod_range (ta - angle self)) as Hm.
  set (m := pymod (ta - angle self) 360) in *.
  set (d := if ltb 180 m then m - 360 else m) in *.
  unfold turn. cbn [angle set_angle set_pose turning_speed].
  set (a' := if ltb 0 d then _ else _).
  destruct (pymod_spec a') as [k1 Hk1].
  pose proof (pymod_range a') as Ha'.
  assert (∀ r k, r == ta - pymod a' 360 - 360 * inject_Z k → 0 <= r < 360 →
                 (if ltb 180 (pymod (ta - pymod a' 360) 360)
                  then pymod (ta - pymod a' 360) 360 - 360
                  else pymod (ta - pymod a' 360) 360)
                 == (if ltb 180 r then r - 360 else r)) as Hwrap.
  { intros r k Hr Hr360. pose proof (pymod_unique _ _ _ Hr Hr360) as Hp.
    destruct (ltb 180 (pymod _ 360)) eqn:E1;
      [apply ltb_lt in E1|apply ltb_ge in E1];
      (destruct (ltb 180 r) eqn:E2;
       [apply ltb_lt in E2|apply ltb_ge in E2]); lra. }
  destruct (ltb 180 m) eqn:Em; [apply ltb_lt in Em|apply ltb_ge in Em];
    subst d.
  - (* the error is negative: the heading decreases *)
    assert (ltb 0 (m - 360) = false) as E0 by (apply ltb_ge; lra).
    unfold a' in *. rewrite E0 in *. clear a' E0.
    assert (Qabs (m - 360) == 360 - m) as Habs by (rewrite Qabs_neg; lra).
    destruct (min_spec (turning_speed self) (- (m - 360)))
      as [[Hle Hmin]|[Hlt Hmin]]; rewrite Hmin in *; clear Hmin.
    + split; [intros _|intros Hlt; lra].
      destruct (Qlt_le_dec (turning_speed self) (360 - m)) as [Hlt|Hge].
      * rewrite (Hwrap (m + turning_speed self) (k0 + k1)%Z);
          [|rewrite inject_Z_plus; lra|lra].
        assert (ltb 180 (m + turning_speed self) = true) as ->
          by (apply ltb_lt; lra).
        rewrite Qabs_neg; lra.
      * rewrite (Hwrap 0 (k0 + k1 + 1)%Z);
          [|rewrite !inject_Z_plus; change (inject_Z 1) with 1; lra|lra].
        assert (ltb 180 0 = false) as -> by done.
        rewrite Habs. change (Qabs 0) with 0. lra.
    + split; [intros Hle; lra|intros _].
      rewrite (Hwrap 0 (k0 + k1 + 1)%Z);
        [|rewrite !inject_Z_plus; change (inject_Z 1) with 1; lra|lra].
      done.
  - (* the error is positive: the heading increases *)
    assert (ltb 0 m = true) as E0 by (apply ltb_lt; lra).
    unfold a' in *. rewrite E0 in *. clear a' E0.
    assert (Qabs m == m) as Habs by (rewrite Qabs_pos; lra).
    destruct (min_spec (turning_speed self) m)
      as [[Hle Hmin]|[Hlt Hmin]]; rewrite Hmin in *; clear Hmin.
    + split; [intros _|intros Hlt; lra].
      rewrite (Hwrap (m - turning_speed self) (k0 + k1)%Z);
        [|rewrite inject_Z_plus; lra|lra].
      assert (ltb 180 (m - turning_speed self) = false) as ->
        by (apply ltb_ge; lra).
      rewrite Habs, Qabs_pos; lra.
    + split; [intros Hle; lra|intros _].
      rewrite (Hwrap 0 (k0 + k1)%Z); [|rewrite inject_Z_plus; lra|lra].
      done.
Qed.

(** [k] successive ticks. *)
Fixpoint ticks (obstacles : list Rect.t) (k : nat) (self : t) : t :=
  match k with
  | O => self
  | S k' => ticks obstacles k' (update math self obstacles)
  end.

Lemma ticks_idle obstacles k self :
  state_ self = Idle → ticks obstacles k self = self.
Proof.
  intros Hidle. induction k as [|k IH]; simpl; [done|].
  unfold update. by rewrite Hidle.
Qed.

Lemma rotating_converges obstacles ta n :
  ∀ self,
    state_ self = Rotating → target_angle self = Some ta →
    0 < turning_speed self →
    Qabs (angle_diff_to self ta) <= inject_Z (Z.of_nat n) * turning_speed self →
    ∀ k, (S n <= k)%nat →
      let self' := ticks obstacles k self in
      state_ self' = Idle ∧ angle self' = ta ∧ target_angle self' = None ∧
      x self' = x self ∧ y self' = y self ∧ velocity self' = velocity self.
Proof.
  assert (∀ self k,
            state_ self = Rotating → target_angle self = Some ta →
            Qabs (angle_diff_to self ta) <= 1 →
            let self' := ticks obstacles (S k) self in
            state_ self' = Idle ∧ angle self' = ta ∧ target_angle self' = None ∧
            x self' = x self ∧ y self' = y self ∧ velocity self' = velocity self)
    as Hsnap.
  { intros self k Hstate Htarget Hd. cbv zeta. simpl.
    unfold update. rewrite Hstate. unfold _update_rotating. rewrite Htarget.
    cbv zeta.
    assert (ltb 1 (Qabs (angle_diff_to self ta)) = false) as ->
      by by apply ltb_ge.
    by rewrite ticks_idle. }
  induction n as [|n IH]; intros self Hstate Htarget Hts Hd k Hk;
    (destruct k as [|k]; [lia|]).
  - apply Hsnap; [done..|].
    change (inject_Z (Z.of_nat 0)) with 0 in Hd. lra.
  - destruct (Qlt_le_dec 1 (Qabs (angle_diff_to self ta))) as [Hbig|Hsmall];
      [|by apply Hsnap].
    assert (update math self obstacles = turn self (angle_diff_to self ta)) as Hup.
    { unfold update. rewrite Hstate. unfold _update_rotating. rewrite Htarget.
      cbv zeta.
      assert (ltb 1 (Qabs (angle_diff_to self ta)) = true) as ->
        by by apply ltb_lt.
      done. }
    cbv zeta. simpl ticks. rewrite Hup.
    destruct (turn_error self ta Hts) as [Hfull Hpart].
    { intros H0. rewrite H0 in Hbig. change (Qabs 0) with 0 in Hbig. lra. }
    set (self1 := turn self (angle_diff_to self ta)) in *.
    apply (IH self1); [exact Hstate|exact Htarget|exact Hts| |lia].
    rewrite Nat2Z.inj_succ, <-Z.add_1_r, inject_Z_plus in Hd.
    change (inject_Z 1) with 1 in Hd.
    change (turning_speed self1) with (turning_speed self).
    assert (0 <= inject_Z (Z.of_nat n)) as Hn
      by (rewrite <-(Zle_Qle 0); lia).
    destruct (Qlt_le_dec (Qabs (angle_diff_to self ta)) (turning_speed self))
      as [Hlt|Hge].
    + rewrite (Hpart Hlt). change (Qabs 0) with 0. nra.
    + rewrite (Hfull Hge). nra.
Qed.

(** X16. Rotation in place ends.  A rotating vehicle with a positive turning
    speed is idle, with its heading equal to the target heading, after
    [ceil(180 / turning_speed) + 1] ticks and after every later tick (91
    ticks for the turning speed 2 of the constructor); its position and its
    velocity are the same as before. *)
Theorem rotation_converges (self : t) (ta : Q) (obstacles : list Rect.t) (k : nat) :
  state_ self = Rotating → target_angle self = Some ta →
  0 < turning_speed self →
  (Z.to_nat (Qceiling (180 / turning_speed self)) + 1 <= k)%nat →
  let self' := ticks obstacles k self in
  state_ self' = Idle ∧ angle self' = ta ∧ target_angle self' = None ∧
  x self' = x self ∧ y self' = y self ∧ velocity self' = velocity self.
Proof.
  intros Hstate Htarget Hts Hk.
  apply (rotating_converges obstacles ta
           (Z.to_nat (Qceiling (180 / turning_speed self)))); [done..| |lia].
  pose proof (angle_diff_range self ta) as Hrange.
  assert (Qabs (angle_diff_to self ta) <= 180) as Habs
    by (apply Qabs_case; lra).
  assert (0 <= Qceiling (180 / turning_speed self))%Z as Hc.
  { rewrite <-(Qceiling_Z 0). apply Qceiling_resp_le.
    change (inject_Z 0) with 0. apply Qle_shift_div_l; lra. }
  rewrite Z2Nat.id by done.
  pose proof (Qle_ceiling (180 / turning_speed self)) as Hceil.
  assert (180 == 180 / turning_speed self * turning_speed self) as H180
    by (field; lra).
  assert (180 / turning_speed self * turning_speed self
          <= inject_Z (Qceiling (180 / turning_speed self)) * turning_speed self)
    by (apply Qmult_le_compat_r; [done|lra]).
  lra.
Qed.

(** ** The end of a return *)

(** The vehicle is within 10 units of its start position, as
    [_update_returning] measures it. *)
Definition near_start (self : t) : Prop :=
  let dx := start_x self - x self in
  let dy := start_y self - y self in
  sqrt math (dx * dx + dy * dy) < 10.

Lemma returning_converges obstacles n :
  (∀ q, q == 0 → sqrt math q < 10) →
  ∀ self,
    state_ self = Returning → 0 < turning_speed self → near_start self →
    Qabs (angle_diff_to self (start_angle self))
      <= inject_Z (Z.of_nat n) * turning_speed self →
    ∀ k, (S n <= k)%nat →
      let self' := ticks obstacles k self in
      state_ self' = Idle ∧ x self' = start_x self ∧ y self' = start_y self ∧
      angle self' = start_angle self ∧ velocity self' = 0.
Proof.
  intros Hsqrt.
  assert (∀ self,
            state_ self = Returning → near_start self →
            let self0 := set_pose self (start_x self) (start_y self) (angle self) in
            let d := angle_diff_to self0 (start_angle self0) in
            update math self obstacles
            = if ltb (Qabs d) 2
              then set_state (set_velocity (set_angle self0 (start_angle self0)) 0) Idle
              else turn self0 d) as Hup.
  { intros self Hstate Hnear. unfold update. rewrite Hstate.
    unfold _update_returning. cbv zeta.
    assert (ltb (sqrt math
                   ((start_x self - x self) * (start_x self - x self)
                    + (start_y self - y self) * (start_y self - y self))) 10
            = true) as -> by by apply ltb_lt.
    done. }
  assert (∀ self k,
            state_ self = Returning → near_start self →
            Qabs (angle_diff_to self (start_angle self)) < 2 →
            let self' := ticks obstacles (S k) self in
            state_ self' = Idle ∧ x self' = start_x self ∧ y self' = start_y self ∧
            angle self' = start_angle self ∧ velocity self' = 0) as Hsnap.
  { intros self k Hstate Hnear Hd. cbv zeta. simpl ticks.
    rewrite Hup by done. cbv zeta.
    change (angle_diff_to (set_pose self ?a ?b ?c) ?ta)
      with (angle_diff_to self (start_angle self)).
    assert (ltb (Qabs (angle_diff_to self (start_angle self))) 2 = true) as ->
      by by apply ltb_lt.
    by rewrite ticks_idle. }
  induction n as [|n IH]; intros self Hstate Hts Hnear Hd k Hk;
    (destruct k as [|k]; [lia|]).
  - apply Hsnap; [done..|].
    change (inject_Z (Z.of_nat 0)) with 0 in Hd. lra.
  - destruct (Qlt_le_dec (Qabs (angle_diff_to self (start_angle self))) 2)
      as [Hsmall|Hbig]; [by apply Hsnap|].
    cbv zeta. simpl ticks. rewrite Hup by done. cbv zeta.
    set (self0 := set_pose self (start_x self) (start_y self) (angle self)).
    change (angle_diff_to self0 (start_angle self0))
      with (angle_diff_to self (start_angle self)).
    assert (ltb (Qabs (angle_diff_to self (start_angle self))) 2 = false) as ->
      by by apply ltb_ge.
    destruct (turn_error self0 (start_angle self) Hts) as [Hfull Hpart].
    { change (angle_diff_to self0 (start_angle self))
        with (angle_diff_to self (start_angle self)).
      intros H0. rewrite H0 in Hbig. change (Qabs 0) with 0 in Hbig. lra. }
    change (angle_diff_to self0 (start_angle self))
      with (angle_diff_to self (start_angle self)) in Hfull, Hpart.
    change (turning_speed self0) with (turning_speed self) in Hfull, Hpart.
    set (self1 := turn self0 (angle_diff_to self (start_angle self))) in *.
    apply (IH self1); [exact Hstate|exact Hts| | |lia].
    + unfold near_start. cbv zeta.
      change (start_x self1) with (start_x self).
      change (start_y self1) with (start_y self).
      change (x self1) with (start_x self). change (y self1) with (start_y self).
      apply Hsqrt. ring.
    + change (start_angle self1) with (start_angle self).
      change (turning_speed self1) with (turning_speed self).
      rewrite Nat2Z.inj_succ, <-Z.add_1_r, inject_Z_plus in Hd.
      change (inject_Z 1) with 1 in Hd.
      assert (0 <= inject_Z (Z.of_nat n)) as Hn
        by (rewrite <-(Zle_Qle 0); lia).
      destruct (Qlt_le_dec (Qabs (angle_diff_to self (start_angle self)))
                  (turning_speed self)) as [Hlt|Hge].
      * rewrite (Hpart Hlt). change (Qabs 0) with 0. nra.
      * rewrite (Hfull Hge). nra.
Qed.

(** X17. A return ends at the start pose.  A returning vehicle that is
    within 10 units of its start position is idle, exactly at its start
    position and start heading and with velocity 0, after
    [ceil(180 / turning_speed) + 1] ticks and after every later tick; this
    needs only that [math.sqrt] gives less than 10 for zero. *)
Theorem return_converges (self : t) (obstacles : list Rect.t) (k : nat) :
  (∀ q, q == 0 → sqrt math q < 10) →
  state_ self = Returning → 0 < turning_speed self → near_start self →
  (Z.to_nat (Qceiling (180 / turning_speed self)) + 1 <= k)%nat →
  let self' := ticks obstacles k self in
  state_ self' = Idle ∧ x self' = start_x self ∧ y self' = start_y self ∧
  angle self' = start_angle self ∧ velocity self' = 0.
Proof.
  intros Hsqrt Hstate Hts Hnear Hk.
  apply (returning_converges obstacles
           (Z.to_nat (Qceiling (180 / turning_speed self)))); [done..| |lia].
  pose proof (angle_diff_range self (start_angle self)) as Hrange.
  assert (Qabs (angle_diff_to self (start_angle self)) <= 180) as Habs
    by (apply Qabs_case; lra).
  assert (0 <= Qceiling (180 / turning_speed self))%Z as Hc.
  { rewrite <-(Qceiling_Z 0). apply Qceiling_resp_le.
    change (inject_Z 0) with 0. apply Qle_shift_div_l; lra. }
  rewrite Z2Nat.id by done.
  pose proof (Qle_ceiling (180 / turning_speed self)) as Hceil.
  assert (180 == 180 / turning_speed self * turning_speed self) as H180
    by (field; lra).
  assert (180 / turning_speed self * turning_speed self
          <= inject_Z (Qceiling (180 / turning_speed self)) * turning_speed self)
    by (apply Qmult_le_compat_r; [done|lra]).
  lra.
Qed.
End with_math.

Lemma update_speed_ok_witness :
  speed_ok (update ApproxMath.math parking_vehicle []).
Proof.
  apply (update_speed_ok ApproxMath.math parking_vehicle []);
    unfold speed_ok; simpl; lra.
Defined.

Lemma rotation_converges_witness :
  let v := set_state (set_targets (init 100 400 0) None None (Some 90)) Rotating in
  let v' := ticks ApproxMath.math [] 91 v in
  state_ v' = Idle ∧ angle v' = 90.
Proof.
  cbv zeta.
  destruct (rotation_converges ApproxMath.math
              (set_state (set_targets (init 100 400 0) None None (Some 90)) Rotating)
              90 [] 91) as (Hs & Ha & _).
  - reflexivity.
  - reflexivity.
  - reflexivity.
  - vm_compute. lia.
  - split; [exact Hs|exact Ha].
Defined.

Lemma return_converges_witness :
  let v := set_state (set_pose (init 100 400 0) 103 404 270) Returning in
  let v' := ticks ApproxMath.math [] 91 v in
  state_ v' = Idle ∧ x v' = 100 ∧ y v' = 400 ∧ angle v' = 0 ∧ velocity v' = 0.
Proof.
  cbv zeta.
  apply (return_converges ApproxMath.math
           (set_state (set_pose (init 100 400 0) 103 404 270) Returning) [] 91).
  - intros q Hq. unfold sqrt, ApproxMath.math, ApproxMath.sqrt.
    assert (Qle_bool q 0 = true) as -> by (apply Qle_bool_iff; lra). lra.
  - reflexivity.
  - reflexivity.
  - vm_compute. reflexivity.
  - vm_compute. lia.
Defined.

End VehicleProps.

(** * Further properties of the planner-based orchestrator (parking.py) *)
Module ParkingProps.
Import Num Parking ParkingSpec.
Local Open Scope string_scope.
Local Open Scope Z_scope.

Section with_math.
Context (math : MathLib).

(** ** The selection of the nearest spot *)

(** The distance from the vehicle to the centre of a spot, as
    [find_parking_spot] computes it. *)
Definition spot_distance (self : t) (spot : parking_spot) : Q :=
  Utils.distance math
    (Vehicle.x (vehicle self), Vehicle.y (vehicle self))
    (of_Z (Rect.centerx (rect spot)), of_Z (Rect.centery (rect spot))).

(** [l !! i] is a spot of least distance in [l], and the first such. *)
Definition first_nearest (dist : parking_spot → Q) (l : list parking_spot)
    (i : nat) (spot : parking_spot) : Prop :=
  l !! i = Some spot ∧
  (∀ j other, l !! j = Some other → (dist spot <= dist other)%Q) ∧
  (∀ j other, (j < i)%nat → l !! j = Some other → (dist spot < dist other)%Q).

(** The invariant of the selection loop after the spots [l]. *)
Definition nearest_inv (dist : parking_spot → Q) (l : list parking_spot)
    (acc : option (parking_spot * Q)) : Prop :=
  match acc with
  | None => l = []
  | Some (spot, d) => d = dist spot ∧ ∃ i, first_nearest dist l i spot
  end.

Lemma nearest_step_inv self l acc spot :
  let pos := (Vehicle.x (vehicle self), Vehicle.y (vehicle self)) in
  nearest_inv (spot_distance self) l acc →
  nearest_inv (spot_distance self) (l ++ [spot]) (nearest_step math pos acc spot).
Proof.
  cbv zeta. unfold nearest_step. cbv zeta.
  fold (spot_distance self spot).
  destruct acc as [[best d]|]; simpl.
  - intros (-> & i & Hi & Hle & Hlt).
    destruct (ltb (spot_distance self spot) (spot_distance self best)) eqn:Hcmp.
    + apply VehicleSpec.ltb_lt in Hcmp. split; [done|].
      exists (length l). split_and!.
      * by rewrite lookup_app_r, Nat.sub_diag.
      * intros j other [Hj|[_ Hj]]%lookup_app_Some.
        -- specialize (Hle _ _ Hj). lra.
        -- destruct (j - length l)%nat; [|done]. injection Hj as <-. lra.
      * intros j other Hjl Hj. rewrite lookup_app_l in Hj by done.
        specialize (Hle _ _ Hj). lra.
    + apply VehicleSpec.ltb_ge in Hcmp. split; [done|].
      exists i. split_and!.
      * apply lookup_app_l_Some, Hi.
      * intros j other [Hj|[_ Hj]]%lookup_app_Some; [by eapply Hle|].
        destruct (j - length l)%nat; [|done]. by injection Hj as <-.
      * intros j other Hji Hj. apply (Hlt j); [done|].
        rewrite lookup_app_l in Hj; [done|].
        apply lookup_lt_Some in Hi. lia.
  - intros ->. split; [done|]. exists 0%nat. split_and!; [done| |lia].
    intros [|j] other; [|done]. intros [= <-]. lra.
Qed.

Lemma nearest_fold_inv self l pre acc :
  let pos := (Vehicle.x (vehicle self), Vehicle.y (vehicle self)) in
  nearest_inv (spot_distance self) pre acc →
  nearest_inv (spot_distance self) (pre ++ l)
    (fold_left (nearest_step math pos) l acc).
Proof.
  cbv zeta. revert pre acc.
  induction l as [|spot l IH]; intros pre acc Hacc; simpl.
  - by rewrite app_nil_r.
  - rewrite (cons_middle spot pre l), app_assoc. apply IH.
    by apply nearest_step_inv.
Qed.

(** The selected spot is a spot of the list. *)
Lemma nearest_spot_lookup (self : t) :
  match nearest_spot math self with
  | None => parking_spots self = []
  | Some spot => ∃ i, parking_spots self !! i = Some spot
  end.
Proof.
  unfold nearest_spot. cbv zeta.
  pose proof (nearest_fold_inv self (parking_spots self) [] None eq_refl) as H.
  cbv zeta in H. simpl in H.
  destruct (fold_left _ _ _) as [[spot d]|]; simpl in *; [|done].
  destruct H as (_ & i & Hi & _). by exists i.
Qed.

(** X18. The selection of [find_parking_spot]: it finds no spot exactly
    when the list of spots is empty, and otherwise the spot it selects is
    one of least distance from the vehicle to the centre of the spot, the
    first such in the order of the list. *)
Theorem nearest_spot_spec (self : t) :
  match nearest_spot math self with
  | None => parking_spots self = []
  | Some spot =>
      ∃ i, first_nearest (spot_distance self) (parking_spots self) i spot
  end.
Proof.
  unfold nearest_spot. cbv zeta.
  pose proof (nearest_fold_inv self (parking_spots self) [] None eq_refl) as H.
  cbv zeta in H. simpl in H.
  destruct (fold_left _ _ _) as [[spot d]|]; simpl in *; [|done].
  by destruct H as [_ H].
Qed.

(** ** A successful attempt *)

(** X19. What a successful attempt gives the vehicle.  When attempts remain
    and the planner returns a route to the entry point of the nearest spot,
    [find_parking_spot] returns True, counts the attempt, and sets the
    vehicle to state parking with a path of three waypoints: the last
    waypoint of the planned route, one point inside the spot and the centre
    of the spot.  The other waypoints of the planned route are not given to
    the vehicle, and the pose of the vehicle is as before. *)
Theorem find_parking_spot_route fuel self spot route entry :
  current_attempt self < max_attempts self →
  nearest_spot math self = Some spot →
  plan fuel self spot = Some route →
  last route = Some entry →
  ∃ self' inside,
    find_parking_spot math fuel self = Some (true, self') ∧
    let centre := (Rect.centerx (rect spot), Rect.centery (rect spot)) in
    add_parking_maneuver entry spot = [entry; inside; centre] ∧
    Vehicle.path (vehicle self') = map point_of_Z [entry; inside; centre] ∧
    Vehicle.current_path_index (vehicle self') = 0%nat ∧
    Vehicle.state_ (vehicle self') = Vehicle.Parking ∧
    Vehicle.x (vehicle self') = Vehicle.x (vehicle self) ∧
    Vehicle.y (vehicle self') = Vehicle.y (vehicle self) ∧
    Vehicle.angle (vehicle self') = Vehicle.angle (vehicle self) ∧
    current_attempt self' = current_attempt self + 1 ∧
    active_spot self' = Some spot.
Proof.
  intros Hattempt Hnearest Hplan Hlast.
  assert (∃ inside,
            add_parking_maneuver entry spot
            = [entry; inside; (Rect.centerx (rect spot), Rect.centery (rect spot))])
    as [inside Hpath].
  { unfold add_parking_maneuver. destruct (type_ spot), (orientation_ spot);
      simpl; eauto. }
  unfold find_parking_spot.
  destruct (Z.leb_spec (max_attempts self) (current_attempt self)) as [?|_]; [lia|].
  rewrite Hnearest. cbv zeta.
  rewrite (plan_frame fuel self) by done. rewrite Hplan. cbn [mbind option_bind].
  rewrite Hlast. eexists _, inside. split; [reflexivity|]. cbv zeta.
  split; [done|]. cbn. rewrite Hpath. done.
Qed.

(** ** A settled simulation *)

(** X20. Once the vehicle is idle and the simulation has either used up its
    attempts or reported success, [update] changes nothing. *)
Theorem update_settled fuel self :
  Vehicle.state_ (vehicle self) = Vehicle.Idle →
  (max_attempts self <= current_attempt self) ∨
    (String.prefix "Successfully" (status self) = true) →
  update math fuel self = Some self.
Proof.
  intros Hidle Hdone. unfold update. cbv zeta.
  assert (Vehicle.update math (vehicle self) (obstacles self) = vehicle self) as ->
    by (unfold Vehicle.update; by rewrite Hidle).
  assert (set_vehicle self (vehicle self) = self) as -> by by destruct self.
  rewrite decide_False by (intros H; by apply H).
  cbn [mbind option_bind].
  destruct Hdone as [Hmax| ->].
  - assert ((current_attempt self <? max_attempts self) = false) as ->
      by (apply Z.ltb_ge; lia).
    by rewrite andb_false_r.
  - by rewrite andb_false_r.
Qed.

(** ** Construction *)

Lemma first_attempt fuel self b self' :
  current_attempt self = 0 → 0 < max_attempts self →
  find_parking_spot math fuel self = Some (b, self') →
  (status self' = "No valid parking spots found"
   ∨ ∃ n m, status self' = "Attempting parking in spot " +:+ n +:+ "/" +:+ m) ∧
  (parking_spots self = [] →
     b = false ∧ current_attempt self' = 0 ∧ vehicle self' = vehicle self) ∧
  (parking_spots self ≠ [] → current_attempt self' = 1) ∧
  obstacles self' = obstacles self ∧ parking_spots self' = parking_spots self ∧
  max_attempts self' = max_attempts self ∧
  (b = false → vehicle self' = vehicle self) ∧
  (b = true → Vehicle.state_ (vehicle self') = Vehicle.Parking ∧
              Vehicle.x (vehicle self') = Vehicle.x (vehicle self) ∧
              Vehicle.y (vehicle self') = Vehicle.y (vehicle self) ∧
              Vehicle.angle (vehicle self') = Vehicle.angle (vehicle self)).
Proof.
  intros H0 Hmax. unfold find_parking_spot.
  destruct (Z.leb_spec (max_attempts self) (current_attempt self)) as [?|_]; [lia|].
  pose proof (nearest_spot_lookup self) as Hnearest.
  destruct (nearest_spot math self) as [spot|].
  - destruct Hnearest as (i & Hi). cbv zeta.
    destruct (plan fuel _ spot) as [route|]; [|done]. cbn [mbind option_bind].
    assert (parking_spots self ≠ []) as Hne by (intros Hnil; by rewrite Hnil in Hi).
    destruct (last route) as [entry|]; intros [= <- <-]; cbn; rewrite H0;
      (split_and!; eauto; try done).
  - intros [= <- <-]. cbn. split_and!; eauto; try done.
Qed.

(** X21. After construction the simulation has made its first attempt: the
    status is "No valid parking spots found" or announces the attempt (it is
    never "Ready to start"); the counter is 0 when the environment has no
    vacant spot and 1 otherwise; and the vehicle is at (100, height // 2)
    with heading 0, idle or in state parking. *)
Theorem init_first_attempt fuel width height obstacles parking_spots self :
  init math fuel width height obstacles parking_spots = Some self →
  status self ≠ "Ready to start" ∧
  (parking_spots = [] → current_attempt self = 0) ∧
  (parking_spots ≠ [] → current_attempt self = 1) ∧
  Vehicle.x (vehicle self) = 100%Q ∧
  Vehicle.y (vehicle self) = of_Z (height / 2) ∧
  Vehicle.angle (vehicle self) = 0%Q ∧
  (Vehicle.state_ (vehicle self) = Vehicle.Idle
   ∨ Vehicle.state_ (vehicle self) = Vehicle.Parking).
Proof.
  unfold init. cbv zeta. unfold PathFinder.init.
  change (20 =? 0) with false. cbn [mbind option_bind].
  destruct (find_parking_spot _ _ _) as [[b self']|] eqn:Hfind; [|done].
  intros [= <-]. simpl.
  apply first_attempt in Hfind
    as (Hstatus & Hnone & Hsome & _ & _ & _ & Hfalse & Htrue); [|done..].
  simpl in *. split_and!.
  - destruct Hstatus as [->|(n & m & ->)]; done.
  - intros Hnil. by apply Hnone.
  - done.
  - destruct b; [by destruct Htrue as (_ & -> & _)|by rewrite Hfalse].
  - destruct b; [by destruct Htrue as (_ & _ & -> & _)|by rewrite Hfalse].
  - destruct b; [by destruct Htrue as (_ & _ & _ & ->)|by rewrite Hfalse].
  - destruct b; [right; by destruct Htrue as (-> & _)|left; by rewrite Hfalse].
Qed.

(** ** The environment *)

(** The slots that the environment is made of: parallel spots are
    horizontal and measure 100 x 50, perpendicular spots are vertical and
    measure 60 x 90; a parked car is 10 units smaller than its slot. *)
Definition spot_shape (spot : parking_spot) : Prop :=
  (type_ spot, orientation_ spot, Rect.w (rect spot), Rect.h (rect spot))
    = (Parallel, Horizontal, 100, 50) ∨
  (type_ spot, orientation_ spot, Rect.w (rect spot), Rect.h (rect spot))
    = (Perpendicular, Vertical, 60, 90).

Definition car_shape (obstacle : Rect.t) : Prop :=
  (Rect.w obstacle, Rect.h obstacle) = (90, 40) ∨
  (Rect.w obstacle, Rect.h obstacle) = (50, 80).

Definition environment_inv (n : nat)
    (st : nat * list Rect.t * list parking_spot) : Prop :=
  let '(calls, obstacles, parking_spots) := st in
  calls = n ∧ (length obstacles + length parking_spots = n)%nat ∧
  Forall car_shape obstacles ∧ Forall spot_shape parking_spots.

Lemma place_inv random n st x y w h ty or :
  (ty, or, w, h) = (Parallel, Horizontal, 100, 50) ∨
  (ty, or, w, h) = (Perpendicular, Vertical, 60, 90) →
  environment_inv n st →
  environment_inv (S n) (place random st x y w h ty or).
Proof.
  intros Hshape. destruct st as [[calls obstacles] parking_spots].
  intros (-> & Hlen & Hcars & Hspots). unfold place.
  destruct (ltb (random _) 0.7); cbv zeta.
  - split; [done|]. rewrite length_app. simpl. split; [lia|]. split; [|done].
    apply Forall_app. split; [done|]. apply Forall_singleton.
    unfold car_shape. simpl.
    destruct Hshape as [[= _ _ -> ->]|[= _ _ -> ->]]; [by left|by right].
  - split; [done|]. rewrite length_app. simpl. split; [lia|]. split; [done|].
    apply Forall_app. split; [done|]. apply Forall_singleton.
    unfold spot_shape. simpl.
    destruct Hshape as [[= -> -> -> ->]|[= -> -> -> ->]]; [by left|by right].
Qed.

(** X22. The environment has 20 slots, whatever the random numbers are:
    the parked cars and the vacant spots that [create_environment] returns
    are 20 together; every vacant spot is parallel and horizontal with size
    100 x 50, or perpendicular and vertical with size 60 x 90, and every
    parked car measures 90 x 40 or 50 x 80. *)
Theorem create_environment_slots (width height : Z) (random : nat → Q) :
  let environment := create_environment width height random in
  (length (fst environment) + length (snd environment) = 20)%nat ∧
  Forall car_shape (fst environment) ∧ Forall spot_shape (snd environment).
Proof.
  unfold create_environment. cbv zeta.
  change (PathFinder.range 0 6) with [0; 1; 2; 3; 4; 5].
  change (PathFinder.range 0 4) with [0; 1; 2; 3].
  cbn [fold_left].
  set (st := place random _ _ _ _ _ _ _).
  assert (environment_inv 20 st) as Hinv.
  { subst st. repeat (apply place_inv; [auto|]). repeat split; constructor. }
  clearbody st. destruct st as [[calls obstacles] parking_spots].
  by destruct Hinv as (_ & Hlen & Hcars & Hspots).
Qed.

(** X23. A reset starts over: when it returns, the vehicle is at its start
    pose (idle or in state parking on the new first attempt), the
    environment is the one that [create_environment] makes from the random
    numbers, the counter is 0 or 1, and the status is the one of the first
    attempt (it is never "Reset"). *)
Theorem reset_first_attempt fuel (random : nat → Q) self self' :
  0 < max_attempts self →
  reset math fuel random self = Some self' →
  status self' ≠ "Reset" ∧
  0 <= current_attempt self' <= 1 ∧
  (obstacles self', parking_spots self')
    = create_environment (width self) (height self) random ∧
  Vehicle.x (vehicle self') = Vehicle.start_x (vehicle self) ∧
  Vehicle.y (vehicle self') = Vehicle.start_y (vehicle self) ∧
  Vehicle.angle (vehicle self') = Vehicle.start_angle (vehicle self) ∧
  (Vehicle.state_ (vehicle self') = Vehicle.Idle
   ∨ Vehicle.state_ (vehicle self') = Vehicle.Parking) ∧
  max_attempts self' = max_attempts self.
Proof.
  intros Hmax. unfold reset. cbv zeta.
  destruct (create_environment _ _ _) as [obs spots].
  destruct (find_parking_spot _ _ _) as [[b s]|] eqn:Hfind; [|done].
  intros [= <-].
  apply first_attempt in Hfind
    as (Hstatus & Hnone & Hsome & Hobs & Hspots & Hm & Hfalse & Htrue);
    [|done..].
  simpl in *. split_and!.
  - destruct Hstatus as [->|(n & m & ->)]; done.
  - destruct spots; [rewrite (proj1 (proj2 (Hnone eq_refl)))|rewrite Hsome]; done.
  - destruct spots; [rewrite (proj1 (proj2 (Hnone eq_refl)))|rewrite Hsome]; done.
  - by rewrite Hobs, Hspots.
  - destruct b; [by destruct Htrue as (_ & -> & _)|by rewrite Hfalse].
  - destruct b; [by destruct Htrue as (_ & _ & -> & _)|by rewrite Hfalse].
  - destruct b; [by destruct Htrue as (_ & _ & _ & ->)|by rewrite Hfalse].
  - destruct b; [right; by destruct Htrue as (-> & _)|left; by rewrite Hfalse].
  - done.
Qed.
End with_math.

(** ** Worked attempt: a world with one reachable spot *)
Definition open_world : t :=
  {| width := 400;
     height := 400;
     vehicle := Vehicle.init 100 200 0;
     obstacles := [entry_blocker];
     parking_spots := [far_spot];
     pathfinder := PathFinderSpec.world_400;
     current_attempt := 0;
     max_attempts := 3;
     status := "Ready to start";
     active_spot := None |}.

Lemma find_parking_spot_route_witness :
  ∃ self',
    find_parking_spot ApproxMath.math 400 open_world = Some (true, self') ∧
    Vehicle.path (vehicle self')
    = map point_of_Z [(230, 350); (330, 345); (330, 345)] ∧
    current_attempt self' = 1.
Proof.
  destruct (find_parking_spot_route ApproxMath.math 400 open_world far_spot
              [(110, 210); (110, 230); (130, 250); (150, 270); (170, 290);
               (190, 310); (210, 330); (230, 350)] (230, 350))
    as (self' & inside & Hfind & Hpath & Hvpath & _ & _ & _ & _ & _ & Hattempt & _).
  - reflexivity.
  - vm_compute. reflexivity.
  - vm_compute. reflexivity.
  - reflexivity.
  - exists self'. split; [exact Hfind|]. split; [|exact Hattempt].
    rewrite Hvpath. injection Hpath as <-. reflexivity.
Defined.

Lemma update_settled_witness :
  update ApproxMath.math 400
    (set_attempt blocked_world (Some near_spot) 3)
  = Some (set_attempt blocked_world (Some near_spot) 3).
Proof.
  apply (update_settled ApproxMath.math 400
           (set_attempt blocked_world (Some near_spot) 3)).
  - reflexivity.
  - left. simpl. lia.
Defined.

Lemma init_first_attempt_witness :
  ∃ self,
    init ApproxMath.math 400 400 400 [entry_blocker] [near_spot; far_spot]
    = Some self ∧
    current_attempt self = 1 ∧ status self ≠ "Ready to start".
Proof.
  destruct (init ApproxMath.math 400 400 400 [entry_blocker] [near_spot; far_spot])
    as [self|] eqn:Hinit; [|vm_compute in Hinit; discriminate Hinit].
  exists self. split; [reflexivity|].
  destruct (init_first_attempt ApproxMath.math 400 400 400 [entry_blocker]
              [near_spot; far_spot] self Hinit) as (Hstatus & _ & Hone & _).
  split; [by apply Hone|exact Hstatus].
Defined.

Lemma reset_first_attempt_witness :
  ∃ self',
    reset ApproxMath.math 400 (λ _, 0%Q) blocked_world = Some self' ∧
    current_attempt self' = 0 ∧ length (obstacles self') = 20%nat.
Proof.
  destruct (reset ApproxMath.math 400 (λ _, 0%Q) blocked_world)
    as [self'|] eqn:Hreset; [|vm_compute in Hreset; discriminate Hreset].
  exists self'. split; [reflexivity|].
  destruct (reset_first_attempt ApproxMath.math 400 (λ _, 0%Q) blocked_world self')
    as (_ & _ & Henv & _); [reflexivity|exact Hreset|].
  injection Henv as Hobs Hspots.
  pose proof Hreset as Hrun. vm_compute in Hrun. injection Hrun as <-.
  split; reflexivity.
Defined.

End ParkingProps.

(** * Further properties of the phase-based orchestrator (main.py) *)
Module MainProps.
Import Num Main MainSpec.
Local Open Scope Q_scope.

Section with_math.
Context (math : MathLib).

(** ** Selection and the eligible spots *)
Lemma find_nearest_none self :
  (0 <= attempt_count (car self))%Z →
  find_nearest_parking_spot math self = None ↔ eligible self = [].
Proof.
  intros Hattempt. rewrite find_nearest_parking_spot_sorted by done.
  pose proof (Permutation_length
                (sort_by_perm (spot_distance math self) (eligible self))) as Hlen.
  rewrite lookup_ge_None, Hlen. split.
  - intros Hge. destruct (eligible self); [done|]. simpl length in Hge. lia.
  - intros ->. simpl. lia.
Qed.

(** ** Speed and steering *)

(** The speeds and the steering angles that the movement methods assign. *)
Definition motion_ok (car : AutonomousCar) : Prop :=
  0 <= steering_angle car <= 5 ∧
  (speed car = 0 ∨ speed car = 1 ∨ speed car = 2).

Lemma steer_motion_ok car dx dy speed gain bound :
  0 <= gain → 0 <= bound <= 5 →
  speed = 0 ∨ speed = 1 ∨ speed = 2 →
  motion_ok (steer math car dx dy speed gain bound).
Proof.
  intros Hgain Hbound Hspeed. unfold steer, motion_ok. cbv zeta.
  cbn [steering_angle Main.speed set_motion]. split; [|done].
  pose proof (VehicleSpec.pymod_range
                (degrees math (atan2 math (- dy) dx) - angle car)) as Hmod.
  set (a := pymod _ 360) in *.
  assert (0 <= a * gain) as Hag by nra.
  destruct (VehicleProps.max_spec (a * gain) (- bound)) as [[? ->]|[? ->]];
    destruct (VehicleProps.min_spec (a * gain) bound) as [[? Hmin]|[? Hmin]];
    try (destruct (VehicleProps.min_spec (- bound) bound) as [[? ->]|[? ->]]);
    rewrite ?Hmin; lra.
Qed.

Lemma movement_motion_ok self target :
  motion_ok (car self) →
  motion_ok (car (parallel_parking_movement math self target)).
Proof.
  intros Hok. unfold parallel_parking_movement. cbv zeta.
  destruct (generate_approach_path self target) as [[ax ay] fa].
  repeat case_match; cbn [car]; try done.
  - apply steer_motion_ok; [lra|lra|auto].
  - apply steer_motion_ok; [lra|lra|auto].
  - unfold motion_ok. simpl. split; [lra|auto].
Qed.

Lemma tick_motion_ok self :
  motion_ok (car self) → motion_ok (car (tick math self)).
Proof.
  intros Hok. unfold tick. cbv zeta.
  set (self1 := match state (car self) with SEARCHING => _ | _ => _ end).
  assert (motion_ok (car self1)) as Hok1.
  { subst self1. destruct (state (car self)); try done.
    - unfold search_step. destruct (find_nearest_parking_spot math self); [done|].
      destruct (3 <=? _)%Z; [done|]. cbn [car set_car].
      unfold mark_failed. cbn [target_spot set_search].
      by destruct (target_spot (car self)).
    - destruct (target_spot (car self)) as [target|]; [|done].
      destruct (type_ target); by apply movement_motion_ok. }
  clearbody self1.
  assert (motion_ok (move math (car self1))) as Hok2.
  { unfold move. by destruct (_ || _). }
  unfold collision_step.
  destruct (check_collision _); [|done]. cbn [car set_car].
  unfold mark_failed. destruct (target_spot (move math (car self1))); exact Hok2.
Qed.

(** X24. Speed and steering stay in a small range: after every number of
    iterations from the initial state the speed is 0, 1 or 2, and the
    steering angle is between 0 and 5; it is never negative, because the
    angle difference is reduced modulo 360 before it is clamped. *)
Theorem run_motion_ok spots parked n :
  let car := car (run math n (init spots parked)) in
  0 <= steering_angle car <= 5 ∧
  (speed car = 0 ∨ speed car = 1 ∨ speed car = 2).
Proof.
  cbv zeta. change (motion_ok (car (run math n (init spots parked)))).
  induction n as [|n IH]; simpl run.
  - unfold motion_ok. simpl. split; [lra|auto].
  - by apply tick_motion_ok.
Qed.

(** ** What the states PARKED and FAILED mean *)

(** The car is within 5 units of the centre of the spot, in each
    direction. *)
Definition centred (car : AutonomousCar) (spot : parking_spot) : Prop :=
  Qabs (of_Z (Rect.centerx (rect spot)) - x car) <= 5 ∧
  Qabs (of_Z (Rect.centery (rect spot)) - y car) <= 5.

Record outcome_inv (spots parked : list parking_spot) (self : t) : Prop :=
  OutcomeInv {
  inv_spots : parking_spots self = spots;
  inv_parked : parked_cars self = parked;
  inv_attempts : (0 <= attempt_count (car self))%Z;
  inv_parking :
    state (car self) = PARKING ∨ state (car self) = PARKED →
    ∃ spot, target_spot (car self) = Some spot ∧ spot ∈ spots ∧
            ¬ occupied self spot;
  inv_parked_at :
    state (car self) = PARKED →
    ∃ spot, target_spot (car self) = Some spot ∧ centred (car self) spot ∧
            speed (car self) = 0;
  inv_failed :
    state (car self) = FAILED →
    (3 <= attempt_count (car self))%Z ∧ eligible self = []
}.

Lemma movement_outcome_inv spots parked self target :
  state (car self) = PARKING → target_spot (car self) = Some target →
  outcome_inv spots parked self →
  outcome_inv spots parked (parallel_parking_movement math self target).
Proof.
  intros Hstate Htarget Hinv.
  destruct (inv_parking _ _ _ Hinv) as (spot & Hspot & Hin & Hfree); [by left|].
  rewrite Htarget in Hspot. injection Hspot as <-.
  unfold parallel_parking_movement. cbv zeta.
  destruct (generate_approach_path self target) as [[ax ay] fa].
  destruct (default 1%Z (parking_phase self) =? 1)%Z;
    [|destruct (default 1%Z (parking_phase self) =? 2)%Z].
  - destruct (_ || _); split; try apply Hinv; cbn; rewrite ?Hstate, ?Htarget;
      try done; eauto.
  - destruct (ltb 5 _ || ltb 5 _) eqn:Hfar.
    + split; try apply Hinv; cbn; rewrite ?Hstate, ?Htarget; try done; eauto.
    + apply orb_false_iff in Hfar as [Hx%VehicleSpec.ltb_ge Hy%VehicleSpec.ltb_ge].
      split; try apply Hinv; cbn; rewrite ?Htarget; try done; eauto.
      intros _. exists target. by repeat split.
  - split; try apply Hinv; cbn; rewrite ?Hstate, ?Htarget; try done; eauto.
Qed.

Lemma tick_outcome_inv spots parked self :
  outcome_inv spots parked self → outcome_inv spots parked (tick math self).
Proof.
  intros Hinv. unfold tick. cbv zeta.
  set (self1 := match state (car self) with SEARCHING => _ | _ => _ end).
  assert (outcome_inv spots parked self1) as Hinv1.
  { subst self1. destruct (state (car self)) eqn:Hstate; try done.
    - unfold search_step.
      destruct (find_nearest_parking_spot math self) as [spot|] eqn:Hfind.
      + apply find_nearest_parking_spot_eligible in Hfind as (Hin & Hfree & _);
          [|apply Hinv].
        split; cbn; [apply Hinv|apply Hinv|apply Hinv| |intros [=]|intros [=]].
        intros _. exists spot. rewrite <-(inv_spots _ _ _ Hinv). by repeat split.
      + apply find_nearest_none in Hfind; [|apply Hinv].
        destruct (Z.leb_spec 3 (attempt_count (car self))).
        * split; cbn;
            [apply Hinv|apply Hinv|apply Hinv|intros [[=]|[=]]|intros [=]|].
          intros _. split; [done|exact Hfind].
        * pose proof (inv_attempts _ _ _ Hinv).
          unfold mark_failed. cbn [target_spot set_search].
          destruct (target_spot (car self));
            (split; cbn; rewrite ?Hstate;
             [apply Hinv|apply Hinv|lia|intros [[=]|[=]]|intros [=]|intros [=]]).
    - destruct (target_spot (car self)) as [target|] eqn:Htarget; [|done].
      destruct (type_ target); by apply movement_outcome_inv. }
  clearbody self1.
  set (self2 := set_car self1 (move math (car self1))).
  assert (outcome_inv spots parked self2) as Hinv2.
  { subst self2. unfold move.
    destruct (bool_decide (state (car self1) = SEARCHING)
              || bool_decide (state (car self1) = PARKING)) eqn:Hmoving.
    - apply orb_true_iff in Hmoving as [Hs|Hs]; apply bool_decide_eq_true in Hs.
      + split; cbn; rewrite ?Hs;
          [apply Hinv1|apply Hinv1|apply Hinv1|intros [[=]|[=]]|intros [=]|intros [=]].
      + destruct (inv_parking _ _ _ Hinv1) as (spot & Hspot & Hin & Hfree);
          [by left|].
        split; cbn; rewrite ?Hs;
          [apply Hinv1|apply Hinv1|apply Hinv1| |intros [=]|intros [=]].
        intros _. by exists spot.
    - by destruct self1. }
  clearbody self2.
  unfold collision_step. destruct (check_collision self2); [|done].
  pose proof (inv_attempts _ _ _ Hinv2).
  unfold mark_failed.
  destruct (target_spot (car self2));
    (split; cbn;
     [apply Hinv2|apply Hinv2|lia|intros [[=]|[=]]|intros [=]|intros [=]]).
Qed.

(** X25. What the final states mean.  After every number of iterations from
    the initial state: if the car is PARKED, its target is a spot of the lot
    that holds no parked car, the car is within 5 units of the centre of
    that spot in each direction, and its speed is 0; if the car is FAILED,
    at least three attempts were counted and no spot is left that is
    neither occupied nor failed. *)
Theorem run_outcome spots parked n :
  let self := run math n (init spots parked) in
  (state (car self) = PARKED →
   ∃ spot, target_spot (car self) = Some spot ∧ spot ∈ spots ∧
           (∀ parked_car, parked_car ∈ parked → rect parked_car ≠ rect spot) ∧
           Qabs (of_Z (Rect.centerx (rect spot)) - x (car self)) <= 5 ∧
           Qabs (of_Z (Rect.centery (rect spot)) - y (car self)) <= 5 ∧
           speed (car self) = 0) ∧
  (state (car self) = FAILED →
   (3 <= attempt_count (car self))%Z ∧
   ∀ spot, spot ∈ spots →
     (∃ parked_car, parked_car ∈ parked ∧ rect parked_car = rect spot) ∨
     spot ∈ failed_spots (car self)).
Proof.
  cbv zeta.
  assert (outcome_inv spots parked (run math n (init spots parked))) as Hinv.
  { induction n as [|n IH]; simpl run; [|by apply tick_outcome_inv].
    split; cbn; try done; try (intros [[=]|[=]]); try (intros [=]). }
  set (self := run math n (init spots parked)) in *. clearbody self. split.
  - intros Hstate.
    destruct (inv_parking _ _ _ Hinv) as (spot & Hspot & Hin & Hfree); [by right|].
    destruct (inv_parked_at _ _ _ Hinv Hstate) as (spot' & Hspot' & [Hx Hy] & Hv).
    rewrite Hspot in Hspot'. injection Hspot' as <-.
    exists spot. split_and!; try done.
    intros parked_car Hc Hrect. apply Hfree. unfold occupied.
    rewrite (inv_parked _ _ _ Hinv). apply Exists_exists. by exists parked_car.
  - intros Hstate. destruct (inv_failed _ _ _ Hinv Hstate) as [Hthree Hnone].
    split; [done|]. intros spot Hin.
    destruct (decide (Exists (λ parked_car, rect parked_car = rect spot)
                        (parked_cars self))) as [Hocc|Hfree].
    + left. unfold occupied in Hocc. rewrite (inv_parked _ _ _ Hinv) in Hocc.
      apply Exists_exists in Hocc as (parked_car & ? & ?). by exists parked_car.
    + right. destruct (decide (spot ∈ failed_spots (car self))) as [Hf|Hnf]; [done|].
      exfalso. assert (spot ∈ eligible self) as Hel.
      { unfold eligible. apply list_elem_of_filter. split; [done|].
        by rewrite (inv_spots _ _ _ Hinv). }
      rewrite Hnone in Hel. by apply elem_of_nil in Hel.
Qed.

(** ** A lot without a free spot *)

Lemma trunc_comp a b : a == b → trunc a = trunc b.
Proof.
  intros Hab. unfold trunc.
  assert (ltb a 0 = ltb b 0) as -> by (apply VehicleSpec.ltb_shift; lra).
  destruct (ltb b 0); [by apply Qceiling_comp|by apply Qfloor_comp].
Qed.

Lemma check_collision_comp self self' :
  x (car self) == x (car self') → y (car self) == y (car self') →
  parked_cars self = parked_cars self' →
  check_collision self = check_collision self'.
Proof.
  intros Hx Hy Hparked. unfold check_collision, rect_of_floats. cbv zeta.
  rewrite Hparked.
  rewrite (trunc_comp (x (car self) - _) (x (car self') - of_Z CAR_WIDTH / 2))
    by by rewrite Hx.
  rewrite (trunc_comp (y (car self) - _) (y (car self') - of_Z CAR_LENGTH / 2))
    by by rewrite Hy.
  f_equal. f_equal; [f_equal; [f_equal|]|]; apply VehicleSpec.ltb_shift; lra.
Qed.

(** The car waits at the start position while it counts attempts. *)
Record waiting (spots parked : list parking_spot) (n : Z) (self : t) : Prop :=
  Waiting {
  wait_spots : parking_spots self = spots;
  wait_parked : parked_cars self = parked;
  wait_state : state (car self) = SEARCHING;
  wait_attempts : attempt_count (car self) = n;
  wait_target : target_spot (car self) = None;
  wait_failed : failed_spots (car self) = [];
  wait_speed : speed (car self) = 0;
  wait_x : x (car self) == 100;
  wait_y : y (car self) == of_Z (WINDOW_HEIGHT / 2)
}.

(** The car has given up at the start position. *)
Record given_up (spots parked : list parking_spot) (self : t) : Prop :=
  GivenUp {
  gave_spots : parking_spots self = spots;
  gave_parked : parked_cars self = parked;
  gave_state : state (car self) = FAILED;
  gave_attempts : attempt_count (car self) = 3%Z;
  gave_failed : failed_spots (car self) = [];
  gave_x : x (car self) == 100;
  gave_y : y (car self) == of_Z (WINDOW_HEIGHT / 2)
}.

Section full_lot.
Context (spots parked : list parking_spot).
Hypothesis all_occupied :
  ∀ spot, spot ∈ spots →
    ∃ parked_car, parked_car ∈ parked ∧ rect parked_car = rect spot.
Hypothesis start_free : check_collision (init spots parked) = false.

Lemma no_selection self :
  parking_spots self = spots → parked_cars self = parked →
  find_nearest_parking_spot math self = None.
Proof.
  intros Hspots Hparked. unfold find_nearest_parking_spot. cbv zeta.
  assert (List.filter (λ spot, negb (skipped self spot)) (parking_spots self) = [])
    as -> ; [|done].
  rewrite Hspots. clear Hspots start_free.
  induction spots as [|spot rest IH]; [done|]. simpl.
  destruct (all_occupied spot) as (parked_car & Hin & Hrect); [by left|].
  assert (skipped self spot = true) as ->.
  { unfold skipped. apply orb_true_iff. left. apply existsb_exists.
    exists parked_car. rewrite Hparked. split; [by apply list_elem_of_In|].
    by apply bool_decide_eq_true. }
  simpl. apply IH. intros spot' Hin'. apply all_occupied. by right.
Qed.

Lemma waiting_no_collision n self :
  waiting spots parked n self → check_collision self = false.
Proof.
  intros Hw. rewrite <-start_free. apply check_collision_comp; simpl.
  - apply Hw.
  - apply Hw.
  - apply Hw.
Qed.

Lemma waiting_tick n self :
  (n < 3)%Z → waiting spots parked n self →
  waiting spots parked (n + 1) (tick math self).
Proof.
  intros Hn Hw.
  assert (waiting spots parked (n + 1)
            (set_car (search_step math self) (move math (car (search_step math self)))))
    as Hw'.
  { unfold search_step.
    rewrite no_selection by apply Hw.
    rewrite (wait_attempts _ _ _ _ Hw).
    destruct (Z.leb_spec 3 n); [lia|].
    unfold mark_failed. cbn [target_spot set_search].
    rewrite (wait_target _ _ _ _ Hw), (wait_state _ _ _ _ Hw).
    unfold move. cbn.
    rewrite (wait_speed _ _ _ _ Hw).
    split; cbn; try apply Hw; try done; unfold of_Z; simpl; ring. }
  unfold tick. cbv zeta. rewrite (wait_state _ _ _ _ Hw).
  unfold collision_step. by rewrite (waiting_no_collision _ _ Hw').
Qed.

Lemma waiting_gives_up self :
  waiting spots parked 3 self → given_up spots parked (tick math self).
Proof.
  intros Hw.
  assert (given_up spots parked
            (set_car (search_step math self) (move math (car (search_step math self)))))
    as Hg.
  { unfold search_step.
    rewrite no_selection by apply Hw.
    rewrite (wait_attempts _ _ _ _ Hw). cbn.
    split; cbn; try apply Hw; done. }
  unfold tick. cbv zeta. rewrite (wait_state _ _ _ _ Hw).
  unfold collision_step.
  assert (check_collision
            (set_car (search_step math self) (move math (car (search_step math self))))
          = false) as ->; [|done].
  rewrite <-start_free. apply check_collision_comp; simpl; apply Hg.
Qed.

Lemma given_up_tick self :
  given_up spots parked self → given_up spots parked (tick math self).
Proof.
  intros Hg.
  assert (tick math self = self) as ->; [|done].
  unfold tick. cbv zeta. rewrite (gave_state _ _ _ Hg).
  unfold move. rewrite (gave_state _ _ _ Hg). cbn [bool_decide decide_rel orb].
  replace (if bool_decide (FAILED = SEARCHING) || bool_decide (FAILED = PARKING)
           then _ else car self) with (car self) by done.
  assert (set_car self (car self) = self) as -> by by destruct self.
  unfold collision_step.
  assert (check_collision self = false) as ->; [|done].
  rewrite <-start_free. apply check_collision_comp; simpl; apply Hg.
Qed.

Lemma run_waiting (k : nat) :
  (k <= 3)%nat →
  waiting spots parked (Z.of_nat k) (run math k (init spots parked)).
Proof.
  induction k as [|k IH]; intros Hk.
  - by split.
  - change (run math (S k) ?s) with (tick math (run math k s)).
    replace (Z.of_nat (S k)) with (Z.of_nat k + 1)%Z by lia.
    apply waiting_tick; [lia|]. apply IH. lia.
Qed.

Lemma run_given_up (k : nat) :
  (4 <= k)%nat → given_up spots parked (run math k (init spots parked)).
Proof.
  induction k as [|k IH]; intros Hk; [lia|].
  change (given_up spots parked (tick math (run math k (init spots parked)))).
  destruct (decide (k = 3%nat)) as [->|Hne].
  - pose proof (run_waiting 3 ltac:(lia)) as Hw.
    change (Z.of_nat 3) with 3%Z in Hw. by apply waiting_gives_up.
  - apply given_up_tick, IH. lia.
Qed.
End full_lot.

(** X26. A lot without a free spot.  If every spot of the lot has the
    rectangle of a parked car and the start position of the car is free,
    the run never selects a spot: the car stays at the start position, the
    first three iterations count one attempt each, and from the fourth
    iteration on the state is FAILED with an attempt count of 3. *)
Theorem full_lot_fails spots parked (k : nat) :
  (∀ spot, spot ∈ spots →
     ∃ parked_car, parked_car ∈ parked ∧ rect parked_car = rect spot) →
  check_collision (init spots parked) = false →
  let self := run math k (init spots parked) in
  attempts math k (init spots parked) = [] ∧
  x (car self) == 100 ∧ y (car self) == of_Z (WINDOW_HEIGHT / 2) ∧
  if (k <=? 3)%nat
  then state (car self) = SEARCHING ∧ attempt_count (car self) = Z.of_nat k
  else state (car self) = FAILED ∧ attempt_count (car self) = 3%Z.
Proof.
  intros Hocc Hfree self.
  assert (∀ j, (parking_spots (run math j (init spots parked)) = spots
                ∧ parked_cars (run math j (init spots parked)) = parked)) as Hfix.
  { intros j. destruct (Nat.le_gt_cases j 3) as [Hj|Hj].
    - pose proof (run_waiting spots parked Hocc Hfree j Hj) as Hw.
      split; apply Hw.
    - pose proof (run_given_up spots parked Hocc Hfree j Hj) as Hg.
      split; apply Hg. }
  split.
  { clear self. induction k as [|k IH]; [done|]. simpl attempts.
    unfold selected. destruct (Hfix k) as [Hs Hp].
    rewrite (no_selection spots parked Hocc _ Hs Hp).
    by destruct (state _). }
  subst self. destruct (Nat.leb_spec k 3) as [Hk|Hk].
  - pose proof (run_waiting spots parked Hocc Hfree k Hk) as Hw.
    repeat split; apply Hw.
  - pose proof (run_given_up spots parked Hocc Hfree k Hk) as Hg.
    repeat split; apply Hg.
Qed.
End with_math.

Lemma full_lot_fails_witness :
  let self := run ApproxMath.math 6 (init [spot_a; spot_b] [spot_b; spot_a]) in
  state (car self) = FAILED ∧ attempt_count (car self) = 3%Z.
Proof.
  destruct (full_lot_fails ApproxMath.math [spot_a; spot_b] [spot_b; spot_a] 6)
    as (_ & _ & _ & Hstate).
  - intros spot Hin. exists spot. split; [|reflexivity].
    apply list_elem_of_In in Hin. apply list_elem_of_In. simpl in *. tauto.
  - reflexivity.
  - exact Hstate.
Defined.

End MainProps.
